(** * guacamole-dotool: the automation command engine

    A shallow embedding of the command language (commands.ts), the keysym
    translation layer (keyboard.ts, keymaps.ts) and the action executor
    (client.ts), with the properties the specification states about them. *)

From Stdlib Require Ascii String PrimFloat Uint63.
From stdpp Require Import gmap list strings.

Open Scope Z_scope.

(** ** JavaScript strings

    A JavaScript string is a sequence of UTF-16 code units; regular
    expressions without the [u] flag, [length] and indexing all work on code
    units.  A unit is a number from 0 to 0xFFFF: a character up to U+FFFF is
    one unit, a character above it is two, a surrogate pair. *)

Abbreviation jstring := (list Z).

(** What a list has to hold to be a string: code units. *)
Definition code_unit (c : Z) : Prop := 0 ≤ c ≤ 0xFFFF.

(** [String.fromCodePoint(n)] for a code point up to 0x10FFFF: the one unit
    up to 0xFFFF, the surrogate pair above. *)
Definition String_fromCodePoint (n : Z) : jstring :=
  if n <=? 0xFFFF then [n]
  else [0xD800 + (n - 0x10000) / 0x400; 0xDC00 + (n - 0x10000) mod 0x400].

(** The code units of an ASCII literal. *)
Definition js (s : string) : jstring :=
  (λ a, Z.of_N (Ascii.N_of_ascii a)) <$> String.list_ascii_of_string s.

Module Char.
Definition tab : Z := 9.
Definition newline : Z := 10.
Definition space : Z := 32.
Definition quote : Z := 34.
Definition hash : Z := 35.
Definition plus : Z := 43.
Definition minus : Z := 45.
Definition backslash : Z := 92.
End Char.

(** [\s] of an ECMAScript regular expression, which is also the set that
    [trimStart] removes: WhiteSpace and LineTerminator. *)
Definition is_space (c : Z) : bool :=
  (9 <=? c) && (c <=? 13)
  || (c =? 32) || (c =? 160) || (c =? 5760)
  || (8192 <=? c) && (c <=? 8202)
  || (c =? 8232) || (c =? 8233) || (c =? 8239) || (c =? 8287)
  || (c =? 12288) || (c =? 65279).

(** The longest prefix whose units satisfy [p], and the rest. *)
Fixpoint span (p : Z → bool) (s : jstring) : jstring * jstring :=
  match s with
  | c :: r => if p c then let '(a, b) := span p r in (c :: a, b) else ([], s)
  | [] => ([], [])
  end.

Definition trimStart (s : jstring) : jstring := (span is_space s).2.

(** [s.indexOf(c)] for a one-unit search string: -1 when [c] does not occur. *)
Fixpoint indexOf_from (c : Z) (s : jstring) (i : Z) : Z :=
  match s with
  | [] => -1
  | x :: r => if x =? c then i else indexOf_from c r (i + 1)
  end.

Definition indexOf (c : Z) (s : jstring) : Z := indexOf_from c s 0.

(** [s.split(sep)] for a one-unit separator. *)
Fixpoint split (sep : Z) (s : jstring) : list jstring :=
  match s with
  | [] => [[]]
  | c :: r =>
      if c =? sep then [] :: split sep r
      else match split sep r with
           | w :: ws => (c :: w) :: ws
           | [] => [[c]]
           end
  end.

(** ** commands.ts: the Keystroke argument parser *)

(** [negToInf]: a number or [Infinity] (None). *)
Definition negToInf (n : Z) : option Z := if n <? 0 then None else Some n.

(** [a < b] on numbers extended with [Infinity]. *)
Definition lt_inf (a b : option Z) : bool :=
  match a, b with
  | Some x, Some y => x <? y
  | Some _, None => true
  | None, _ => false
  end.

Definition Keystroke_separator (value : jstring) : Z :=
  if lt_inf (negToInf (indexOf Char.plus value)) (negToInf (indexOf Char.minus value))
  then Char.plus else Char.minus.

(** The reducer: [acc.at(-1) === ''] replaces the last element, otherwise
    the key is pushed. *)
Definition Keystroke_reducer (separator : Z) (acc : list jstring) (key : jstring)
    : list jstring :=
  if decide (last acc = Some [])
  then <[ (length acc - 1)%nat := separator :: key ]> acc
  else acc ++ [key].

Definition Keystroke (value : jstring) : list jstring :=
  let separator := Keystroke_separator value in
  fold_left (Keystroke_reducer separator) (split separator value) [].

(** The Keystroke parser as the specification words it. *)
Module KeystrokeSpec.
(** Whichever of [+] and [-] occurs first; [-] when neither occurs. *)
Definition separator (s : jstring) : Z :=
  default Char.minus
    (head (filter (λ c, c = Char.plus ∨ c = Char.minus) s)).

(** An empty segment and the segment after it become one key: the
    separator followed by that segment. *)
Fixpoint collapse (sep : Z) (segments : list jstring) : list jstring :=
  match segments with
  | [] :: next :: rest => (sep :: next) :: collapse sep rest
  | segment :: rest => segment :: collapse sep rest
  | [] => []
  end.

Definition parse (s : jstring) : list jstring :=
  collapse (separator s) (split (separator s) s).
End KeystrokeSpec.

(** ** commands.ts: the tokenizer, [parseScriptToWords]

    The regular expression of the source has five alternatives and the
    flags [g] and [s]; it is embedded alternative by alternative, Q standing
    for the double quote in the comments below.  Each alternative takes the text
    at the current position and gives the match and the text after it. *)
Module Regex.
Definition not_newline (c : Z) : bool := negb (c =? Char.newline).

Definition word_unit (c : Z) : bool :=
  negb ((c =? Char.backslash) || (c =? Char.quote) || is_space c).

(** Alternative 1: at the start of the input (no [m] flag), a hash, any
    run of units other than newline, and a newline. *)
Definition comment_line (at_start : bool) (s : jstring) : option (jstring * jstring) :=
  match s with
  | c :: r =>
      if at_start && (c =? Char.hash) then
        let '(body, r') := span not_newline r in
        match r' with
        | n :: r'' => Some (c :: body ++ [n], r'')
        | [] => None
        end
      else None
  | [] => None
  end.

(** Alternative 2: one or more units other than backslash, Q and [\s]. *)
Definition word (s : jstring) : option (jstring * jstring) :=
  match span word_unit s with
  | ([], _) => None
  | (w, r) => Some (w, r)
  end.

(** Alternative 3: one or more [\s] units, then optionally a hash and any
    run of units other than newline. *)
Definition blank (s : jstring) : option (jstring * jstring) :=
  match span is_space s with
  | ([], _) => None
  | (ws, h :: r) =>
      if h =? Char.hash then
        let '(body, r') := span not_newline r in Some (ws ++ h :: body, r')
      else Some (ws, h :: r)
  | (ws, []) => Some (ws, [])
  end.

(** Alternative 4: one Q. *)
Definition dquote (s : jstring) : option (jstring * jstring) :=
  match s with
  | c :: r => if c =? Char.quote then Some ([c], r) else None
  | [] => None
  end.

(** Alternative 5: a backslash and any one unit (the [s] flag lets the dot
    match a newline). *)
Definition escape (s : jstring) : option (jstring * jstring) :=
  match s with
  | c :: d :: r => if c =? Char.backslash then Some ([c; d], r) else None
  | _ => None
  end.

Definition orelse {A} (a b : option A) : option A :=
  match a with Some _ => a | None => b end.

(** The first alternative, in the order written, that matches here. *)
Definition match_here (at_start : bool) (s : jstring) : option (jstring * jstring) :=
  orelse (comment_line at_start s)
    (orelse (word s) (orelse (blank s) (orelse (dquote s) (escape s)))).

(** [regex.exec(input)] from [lastIndex]: the leftmost position at or after
    it where an alternative matches.  [at_start] says [lastIndex] is 0. *)
Fixpoint exec (at_start : bool) (s : jstring) : option (jstring * jstring) :=
  match match_here at_start s with
  | Some m => Some m
  | None =>
      match s with
      | _ :: r => exec false r
      | [] => None
      end
  end.
End Regex.

Record Lexer := { words : list jstring; quoted : bool }.

(** [words[words.length - 1] += text] *)
Definition append_last (ws : list jstring) (text : jstring) : list jstring :=
  match last ws with
  | Some w => <[ (length ws - 1)%nat := w ++ text ]> ws
  | None => ws
  end.

(** The body of the [while] loop, for one match. *)
Definition lexer_step (st : Lexer) (m : jstring) : Lexer :=
  match m with
  | c :: rest =>
      if c =? Char.backslash then
        (* match[1]: the escaped unit; strips the backslash *)
        {| words := append_last (words st) (take 1 rest); quoted := quoted st |}
      else if decide (m = [Char.quote]) then
        {| words := words st; quoted := negb (quoted st) |}
      else if quoted st then
        {| words := append_last (words st) m; quoted := quoted st |}
      else
        match trimStart m with
        | [] => {| words := words st ++ [[]]; quoted := quoted st |}
        | h :: t =>
            if h =? Char.hash then st
            else {| words := append_last (words st) (h :: t); quoted := quoted st |}
        end
  | [] => st
  end.

(** The loop [while ((match = regex.exec(input)?.[0]) != null)].  Every match
    consumes at least one unit, so the length of the input bounds the number
    of rounds; [None] is a loop cut short by that bound. *)
Fixpoint lexer_loop (fuel : nat) (at_start : bool) (input : jstring) (st : Lexer)
    : option Lexer :=
  match fuel with
  | O => None
  | S fuel' =>
      match Regex.exec at_start input with
      | Some (m, rest) => lexer_loop fuel' false rest (lexer_step st m)
      | None => Some st
      end
  end.

(** The result [{ words, unclosed }] as a pair. *)
Definition parseScriptToWords (input : jstring) : option (list jstring * bool) :=
  (λ st, (words st, quoted st)) <$>
    lexer_loop (S (length input)) true input {| words := [[]]; quoted := false |}.


(** ** The host language

    JavaScript numbers are doubles.  The integers are kept apart as [Num] so
    that counting loops and bit operations work on [Z] (exact below 2^53);
    [Flt] carries any other double, as the kernel's binary64 floats. *)
Inductive number : Type :=
| NaN
| Num (z : Z)
| Flt (x : PrimFloat.float).

(** [n * k] for an integer [k]. *)
Definition number_times (n : number) (k : Z) : number :=
  match n with
  | NaN => NaN
  | Num z => Num (z * k)
  | Flt x => Flt (PrimFloat.mul x (PrimFloat.of_uint63 (Uint63.of_Z k)))
  end.

(** Built-ins of the language whose definition is the ECMAScript standard's
    (Unicode case mapping, numeric literals): the model takes them as given. *)
Class Host := {
  (** [String.prototype.toLowerCase] *)
  toLowerCase : jstring → jstring;
  (** [Number(value)] on a string *)
  Number : jstring → number;
}.

Definition is_digit (c : Z) : bool := (48 <=? c) && (c <=? 57).

(** The value of a run of decimal digits. *)
Definition decimal (s : jstring) : Z := fold_left (λ a c, a * 10 + (c - 48)) s 0.

(** The value of a digit of [parseInt], in any radix up to 36. *)
Definition digit_value (c : Z) : option Z :=
  if (48 <=? c) && (c <=? 57) then Some (c - 48)
  else if (97 <=? c) && (c <=? 122) then Some (c - 87)
  else if (65 <=? c) && (c <=? 90) then Some (c - 55)
  else None.

(** The values of the longest prefix of digits of the radix. *)
Fixpoint radix_digits (radix : Z) (s : jstring) : list Z :=
  match s with
  | c :: r =>
      match digit_value c with
      | Some d => if d <? radix then d :: radix_digits radix r else []
      | None => []
      end
  | [] => []
  end.

(** [parseInt(string, radix)] for a radix from 2 to 36: leading white space
    and a sign are skipped, radix 16 skips a prefix 0x or 0X, the longest run
    of digits is read, and no digit at all gives NaN. *)
Definition parseInt (string : jstring) (radix : Z) : number :=
  let s := trimStart string in
  let '(sign, s) :=
    match s with
    | c :: r =>
        if c =? Char.minus then (-1, r)
        else if c =? Char.plus then (1, r) else (1, s)
    | [] => (1, s)
    end in
  let s :=
    match s with
    | 48 :: x :: r => if (radix =? 16) && ((x =? 120) || (x =? 88)) then r else s
    | _ => s
    end in
  match radix_digits radix s with
  | [] => NaN
  | ds => Num (sign * fold_left (λ a d, a * radix + d) ds 0)
  end.

Definition startsWith (prefix s : jstring) : bool :=
  bool_decide (take (length prefix) s = prefix).

(** ** errors.ts

    The error classes with their codes; the message texts are left out. *)
Inductive ClientErrorCode := CANVAS_NOT_INITIALIZED | NOT_CONNECTED | UNKNOWN_KEY.

Inductive CommandErrorCode := UNKNOWN | INVALID_ARGUMENT.

Inductive Error :=
| GuacamoleClientError (code : ClientErrorCode)
| GuacamoleCommandError (code : CommandErrorCode) (command : jstring)
| AssertionError
| TypeError
| RangeError
(* Two outcomes of the model only: an argument of a shape the model does
   not cover, and a loop cut short by its bound. *)
| OutsideModel
| OutOfFuel.

(** A call returns a value or throws. *)
Inductive Result (A : Type) : Type :=
| Ok (a : A)
| Throw (e : Error).
Arguments Ok {A} a.
Arguments Throw {A} e.

(** ** JavaScript objects with string keys

    An object is the list of its own enumerable properties in property order,
    the order of [Object.entries]: array indices ascending, then the other
    keys in the order they were created.  [None] is a property whose value is
    [undefined]. *)
Definition object (V : Type) : Type := list (jstring * option V).

(** A key that is an array index: the canonical decimal form of an integer
    below 2^32 - 1. *)
Definition array_index (k : jstring) : option Z :=
  match k with
  | [] => None
  | c :: r =>
      if forallb is_digit k && ((c =? 48) && bool_decide (r = []) || negb (c =? 48))
         && (decimal k <=? 4294967294)
      then Some (decimal k) else None
  end.

(** Where a new array index [n] goes: before the first key that is no
    array index or a greater one. *)
Fixpoint obj_insert_index {V} (n : Z) (k : jstring) (v : option V) (o : object V)
    : object V :=
  match o with
  | (k', v') :: rest =>
      match array_index k' with
      | Some m => if m <? n then (k', v') :: obj_insert_index n k v rest
                  else (k, v) :: o
      | None => (k, v) :: o
      end
  | [] => [(k, v)]
  end.

Fixpoint obj_replace {V} (k : jstring) (v : option V) (o : object V) : object V :=
  match o with
  | (k', v') :: rest =>
      if decide (k' = k) then (k, v) :: rest else (k', v') :: obj_replace k v rest
  | [] => []
  end.

Definition obj_has {V} (o : object V) (k : jstring) : bool :=
  existsb (λ e, bool_decide (e.1 = k)) o.

(** [o[k] = v]: an existing property keeps its place. *)
Definition obj_set {V} (o : object V) (k : jstring) (v : option V) : object V :=
  if obj_has o k then obj_replace k v o
  else match array_index k with
       | Some n => obj_insert_index n k v o
       | None => o ++ [(k, v)]
       end.

(** [o[k]]: [None] for a missing property and for one that is undefined. *)
Fixpoint obj_get {V} (o : object V) (k : jstring) : option V :=
  match o with
  | (k', v) :: rest => if decide (k' = k) then v else obj_get rest k
  | [] => None
  end.

(** The spread [{ ...target, ...source }]. *)
Definition obj_spread {V} (target source : object V) : object V :=
  fold_left (λ o e, obj_set o e.1 e.2) source target.

(** No key twice: what every object satisfies. *)
Definition obj_wf {V} (o : object V) : Prop := NoDup (o.*1).

(** ** keymaps.ts *)

(** [combined] holds arrays of codes; an element can be undefined ([None])
    when [shifted] finds no code for the base key. *)
Record Keymap := {
  name : jstring;
  allowFallback : bool;
  modifiers : object Z;
  control : object Z;
  printable : object Z;
  combined : object (list (option Z));
}.

Definition ControlKeysyms : object Z :=
  (λ e, (js e.1, Some e.2)) <$>
  [ ("Space", 0x20);
    ("Backspace", 0xff08); ("Bsp", 0xff08);
    ("Tab", 0xff09);
    ("Enter", 0xff0d);
    ("Pause", 0xff13);
    ("ScrollLock", 0xff14); ("ScrLk", 0xff14);
    ("SysReq", 0xff15); ("SysRq", 0xff15);
    ("Escape", 0xff1b); ("Esc", 0xff1b);
    ("Home", 0xff50);
    ("Left", 0xff51);
    ("Up", 0xff52);
    ("Right", 0xff53);
    ("Down", 0xff54);
    ("PageUp", 0xff55); ("PgUp", 0xff55);
    ("PageDown", 0xff56); ("PgDown", 0xff56); ("PgDn", 0xff56);
    ("End", 0xff57);
    ("PrintScreen", 0xff61); ("PrtSc", 0xff61);
    ("Insert", 0xff63); ("Ins", 0xff63);
    ("Menu", 0xff67);
    ("NumLock", 0xff7f); ("NumLk", 0xff7f);
    ("F1", 0xffbe); ("F2", 0xffbf); ("F3", 0xffc0); ("F4", 0xffc1);
    ("F5", 0xffc2); ("F6", 0xffc3); ("F7", 0xffc4); ("F8", 0xffc5);
    ("F9", 0xffc6); ("F10", 0xffc7); ("F11", 0xffc8); ("F12", 0xffc9);
    ("F13", 0xffca); ("F14", 0xffcb); ("F15", 0xffcc); ("F16", 0xffcd);
    ("F17", 0xffce); ("F18", 0xffcf); ("F19", 0xffd0); ("F20", 0xffd1);
    ("F21", 0xffd2); ("F22", 0xffd3); ("F23", 0xffd4); ("F24", 0xffd5);
    ("Delete", 0xffff); ("Del", 0xffff) ]%string.

Definition ModifierKeysyms : object Z :=
  (λ e, (js e.1, Some e.2)) <$>
  [ ("LShift", 0xffe1); ("Shift", 0xffe1);
    ("RShift", 0xffe2);
    ("LCtrl", 0xffe3); ("Ctrl", 0xffe3);
    ("RCtrl", 0xffe4);
    ("CapsLock", 0xffe5); ("CapLk", 0xffe5);
    ("LAlt", 0xffe9); ("Alt", 0xffe9);
    ("RAlt", 0xffea);
    ("LSuper", 0xffeb); ("Super", 0xffeb); ("Cmd", 0xffeb); ("Win", 0xffeb);
    ("RSuper", 0xffec) ]%string.

(** [char.codePointAt(0)]: undefined for the empty string; the code point of
    a surrogate pair when the string begins with one; the first unit
    otherwise, also when it is a surrogate that stands alone. *)
Definition codePointAt0 (char : jstring) : option Z :=
  match char with
  | [] => None
  | first :: rest =>
      if (0xD800 <=? first) && (first <=? 0xDBFF) then
        match rest with
        | second :: _ =>
            if (0xDC00 <=? second) && (second <=? 0xDFFF)
            then Some ((first - 0xD800) * 0x400 + (second - 0xDC00) + 0x10000)
            else Some first
        | [] => Some first
        end
      else Some first
  end.

(** [codePointsMap]: each character mapped to its code point. *)
Definition codePointsMap (chars : list jstring) : object Z :=
  fold_left (λ acc char, obj_set acc char (codePointAt0 char)) chars [].

(** [shifted]: each key mapped to the modifier and the code of its base key. *)
Definition shifted (modifier : Z) (map : list (jstring * jstring)) (keysyms : object Z)
    : object (list (option Z)) :=
  fold_left (λ acc e, obj_set acc e.1 (Some [Some modifier; obj_get keysyms e.2]))
    map [].

(** The characters of a literal, one string each. *)
Definition chars (s : string) : list jstring := (λ c, [c]) <$> js s.

Definition PrintableKeysyms : object Z :=
  codePointsMap
    (chars "`1234567890-=" ++ chars "qwertyuiop[]" ++ chars "asdfghjkl;'\"
     ++ chars "zxcvbnm,./" ++ chars " ").

Definition PrintableShiftedKeysyms : object (list (option Z)) :=
  shifted 0xffe1
    (zip (chars "~!@#$%^&*()_+" ++ chars "QWERTYUIOP{}" ++ chars "ASDFGHJKL:"
            ++ [[Char.quote]] ++ chars "|" ++ chars "ZXCVBNM<>?")
         (chars "`1234567890-=" ++ chars "qwertyuiop[]" ++ chars "asdfghjkl;'\"
            ++ chars "zxcvbnm,./"))
    PrintableKeysyms.

Definition defaultKeymap : Keymap :=
  {| name := js "us"; allowFallback := false;
     combined := PrintableShiftedKeysyms; control := ControlKeysyms;
     modifiers := ModifierKeysyms; printable := PrintableKeysyms |}.

Module Keymaps.

Definition US : Keymap := defaultKeymap.

Definition US_MAC : Keymap :=
  {| name := js "us-mac"; allowFallback := false;
     combined := obj_spread (obj_spread [] (combined defaultKeymap)) [(js "~", None)];
     control := ControlKeysyms; modifiers := ModifierKeysyms;
     printable := obj_spread (obj_spread [] (printable defaultKeymap)) [(js "`", Some 0x3c)] |}.
End Keymaps.


(** ** keyboard.ts *)

Section KeyboardMapper.
Context `{Host}.

(** The lookup table of key names: the entries of
    [{ ...control, ...modifiers, ...printable }], lower-cased, those with a
    code other than null. *)
Definition keysMap (keymap : Keymap) : gmap jstring Z :=
  fold_left
    (λ map e, match e.2 with
              | Some code => <[ toLowerCase e.1 := code ]> map
              | None => map
              end)
    (obj_spread (obj_spread (obj_spread [] (control keymap)) (modifiers keymap))
       (printable keymap))
    ∅.

(** The lookup table of characters: [printable], then [combined], then the
    three fixed entries, each [set] replacing an earlier one for its key. *)
Definition charsMap (keymap : Keymap) : gmap jstring (list (option Z)) :=
  let charsMap :=
    fold_left
      (λ map e, match e.2 with
                | Some code => <[ e.1 := [Some code] ]> map
                | None => map
                end)
      (printable keymap) ∅ in
  let charsMap :=
    fold_left
      (λ map e, match e.2 with
                | Some codes => <[ e.1 := codes ]> map
                | None => map
                end)
      (combined keymap) charsMap in
  <[ [Char.tab] := [keysMap keymap !! js "tab"] ]>
    (<[ [Char.space] := [keysMap keymap !! js "space"] ]>
       (<[ [Char.newline] := [keysMap keymap !! js "enter"] ]> charsMap)).

Definition KeyboardMapper_translateKey (keymap : Keymap) (key : jstring) : Result number :=
  if startsWith (js "0x") key then Ok (parseInt (drop 2 key) 16)
  else
    match keysMap keymap !! toLowerCase key with
    | Some keysym =>
        (* [!keysym] also holds for the code 0 *)
        if keysym =? 0 then Throw (GuacamoleClientError UNKNOWN_KEY)
        else Ok (Num keysym)
    | None => Throw (GuacamoleClientError UNKNOWN_KEY)
    end.

Definition isControlChar (codepoint : Z) : bool :=
  (codepoint <=? 0x1f) || (0x7f <=? codepoint) && (codepoint <=? 0x9f).

Definition keysymFromCodePoint (codepoint : Z) : Result Z :=
  if isControlChar codepoint then Ok (Z.lor 0xff00 codepoint)
  else if (0x0000 <=? codepoint) && (codepoint <=? 0x00ff) then Ok codepoint
  else if (0x0100 <=? codepoint) && (codepoint <=? 0x10ffff)
       then Ok (Z.lor 0x01000000 codepoint)
  else Throw RangeError.

(** Past the assertion the string is one unit [c], and
    [char.codePointAt(0)] is that unit. *)
Definition KeyboardMapper_translateChar (keymap : Keymap) (char : jstring)
    : Result (list (option Z)) :=
  match char with
  | [c] =>
      match charsMap keymap !! char with
      | Some keysyms => Ok keysyms
      | None =>
          if allowFallback keymap then
            match keysymFromCodePoint c with
            | Ok keysym => Ok [Some keysym]
            | Throw e => Throw e
            end
          else Throw (GuacamoleClientError UNKNOWN_KEY)
      end
  | _ => Throw AssertionError
  end.

End KeyboardMapper.

(** The fallback encoding as the specification words it: control characters
    first, then the code points up to 0xFF, then the rest of Unicode. *)
Module FallbackSpec.
Definition keysym (n : Z) : Z :=
  if decide (n ≤ 0x1F ∨ 0x7F ≤ n ≤ 0x9F) then Z.lor 0xFF00 n
  else if decide (n ≤ 0xFF) then n
  else Z.lor 0x01000000 n.
End FallbackSpec.

(** A keymap that has the character a in both tables: alone in [printable],
    with Shift in [combined]. *)
Definition overlappingKeymap : Keymap :=
  {| name := js "overlapping"; allowFallback := false;
     modifiers := ModifierKeysyms; control := ControlKeysyms;
     printable := [(js "a", Some 0x61)];
     combined := [(js "a", Some [Some 0xffe1; Some 0x61])] |}.

(** A keymap that has the character a in both tables too, with the combined
    entry undefined, the way US_MAC has its tilde. *)
Definition maskedKeymap : Keymap :=
  {| name := js "masked"; allowFallback := false;
     modifiers := ModifierKeysyms; control := ControlKeysyms;
     printable := [(js "a", Some 0x61)];
     combined := [(js "a", None)] |}.


(** ** A state and exception monad

    A computation reads and writes a store of type [S] and returns or throws;
    what was written before a throw stays written. *)
Definition State (S A : Type) : Type := S → Result A * S.

#[global] Instance State_ret {S} : MRet (State S) := λ A a s, (Ok a, s).

#[global] Instance State_bind {S} : MBind (State S) := λ A B f m s,
  match m s with
  | (Ok a, s') => f a s'
  | (Throw e, s') => (Throw e, s')
  end.

Definition throw {S A} (e : Error) : State S A := λ s, (Throw e, s).

Definition get {S} : State S S := λ s, (Ok s, s).

Definition modify {S} (f : S → S) : State S () := λ s, (Ok (), f s).

(** A call that returns or throws without touching the store. *)
Definition lift {S A} (r : Result A) : State S A := λ s, (r, s).

(** [for (const x of xs) body(x)] *)
Fixpoint for_of {S A} (xs : list A) (body : A → State S ()) : State S () :=
  match xs with
  | x :: rest => body x ;; for_of rest body
  | [] => mret ()
  end.

(** ** The values that cross the client's interface *)
#[local] Unset Elimination Schemes.
Inductive Value : Type :=
| VUndefined
| VNumber (n : number)
| VString (s : jstring)
| VArray (items : list Value)
| VBuffer (bytes : list Z).
#[local] Set Elimination Schemes.

(** [args[i]]: a missing argument is undefined. *)
Definition arg (i : nat) (args : list Value) : Value := nth i args VUndefined.

(** ** mouse.ts and the pointer state *)
Definition MouseButton : list jstring :=
  [js "Left"; js "Middle"; js "Right"; js "ScrollUp"; js "ScrollDown"].

(** [Enum.isType(e, value)]: [Object.keys(e).includes(value)]. *)
Definition Enum_isType (e : list jstring) (value : jstring) : bool :=
  bool_decide (value ∈ e).

(** Modelled from the spec: the PointerState record of the transport
    library ([Guacamole.Mouse.State]), cursor position and one boolean per
    logical button. *)
Module MouseState.
Record t := {
  x : Z;
  y : Z;
  left : bool;
  middle : bool;
  right : bool;
  up : bool;
  down : bool;
}.

Definition new : t :=
  {| x := 0; y := 0; left := false; middle := false; right := false;
     up := false; down := false |}.

(** [state[prop] = value] for the five button properties. *)
Definition set (prop : jstring) (value : bool) (s : t) : t :=
  if decide (prop = js "left") then
    {| x := x s; y := y s; left := value; middle := middle s; right := right s;
       up := up s; down := down s |}
  else if decide (prop = js "middle") then
    {| x := x s; y := y s; left := left s; middle := value; right := right s;
       up := up s; down := down s |}
  else if decide (prop = js "right") then
    {| x := x s; y := y s; left := left s; middle := middle s; right := value;
       up := up s; down := down s |}
  else if decide (prop = js "up") then
    {| x := x s; y := y s; left := left s; middle := middle s; right := right s;
       up := value; down := down s |}
  else if decide (prop = js "down") then
    {| x := x s; y := y s; left := left s; middle := middle s; right := right s;
       up := up s; down := value |}
  else s.

(** [state.x = x; state.y = y] *)
Definition move (x' y' : Z) (s : t) : t :=
  {| x := x'; y := y'; left := left s; middle := middle s; right := right s;
     up := up s; down := down s |}.
End MouseState.

Definition mouseButtonToStateProp : list (jstring * jstring) :=
  [ (js "Left", js "left"); (js "Middle", js "middle"); (js "Right", js "right");
    (js "ScrollUp", js "up"); (js "ScrollDown", js "down") ].

Definition mouseButtonProps : list jstring := mouseButtonToStateProp.*2.

(** ** The transport and the world the client acts on *)

(** Modelled from the spec: the ConnectionState of the transport. *)
Inductive ConnectionState := Disconnected | Connecting | Connected | Failed.

(** [tunnel.isConnected()] *)
Definition isConnected (s : ConnectionState) : bool :=
  match s with Connected => true | _ => false end.

(** Modelled from the spec: the rendered frame of the remote display, with
    its dimensions and its encoding as a still image. *)
Module Canvas.
Record t := { width : Z; height : Z; png : list Z }.
End Canvas.

(** What the client does to the outside, in the order it does it: the
    transport's events, the suspensions ([await delay(ms)]) and the files
    written. *)
Inductive Event : Type :=
| SendKeyEvent (pressed : Z) (keysym : number)
| SendMouseState (state : MouseState.t)
| ClientDisconnect
| Delay (ms : number)
| WriteFile (filename : Value) (data : list Z).

Record World := {
  tunnel : ConnectionState;
  mouseState : MouseState.t;
  display : Canvas.t;
  events : list Event;
}.

Definition emit (e : Event) : State World () :=
  modify (λ w, {| tunnel := tunnel w; mouseState := mouseState w;
                  display := display w; events := events w ++ [e] |}).

Definition set_mouseState (f : MouseState.t → MouseState.t) : State World () :=
  modify (λ w, {| tunnel := tunnel w; mouseState := f (mouseState w);
                  display := display w; events := events w |}).

Definition set_tunnel (s : ConnectionState) : State World () :=
  modify (λ w, {| tunnel := s; mouseState := mouseState w;
                  display := display w; events := events w |}).

(** [await delay(ms)] *)
Definition delay (ms : number) : State World () := emit (Delay ms).

(** [client.sendMouseState(mouseState)]: the whole record as it is now. *)
Definition sendMouseState : State World () :=
  w ← get; emit (SendMouseState (mouseState w)).

(** ** client.ts *)
Record ClientOptions := {
  toggleDelay : Z;
  doubleClickDelay : Z;
  delayBetweenKeys : Z;
}.

Definition defaultOptions : ClientOptions :=
  {| toggleDelay := 12; doubleClickDelay := 100; delayBetweenKeys := 50 |}.

Definition unifyVarArgs (array : list Value) : list Value :=
  match array with
  | [VArray a] => a
  | _ => array
  end.

Definition keysym_value (k : option Z) : Value :=
  match k with
  | Some z => VNumber (Num z)
  | None => VUndefined
  end.

Module Method.
Inductive t :=
| keysPress | keysDown | keysUp | type | mouseClick | mouseDoubleClick
| mouseButtonDown | mouseButtonUp | scroll | mouseMove | captureScreen
| captureScreenToFile | pause | disconnect.
End Method.

(** [createClient(client, tunnel, keyboard, options)]: the methods of [self]
    as [decorateMethods] leaves them.  Each [m_method] is the method as
    written in the object literal and [m] is [self.m] after the decoration,
    which is what the methods call on [self] and what callers get.  The
    arguments of a method are the list of values it is called with; a shape
    its TypeScript signature excludes (and a number that is no integer where
    the method counts or compares) gives [OutsideModel]. *)
Section createClient.
Context `{Host}.
Variable keymap : Keymap.
Variable options : ClientOptions.

(** The local [translateKey]: numbers pass, strings go to the keyboard
    mapper, and [startsWith] of anything else is a TypeError. *)
Definition translateKey (keyOrCode : Value) : Result number :=
  match keyOrCode with
  | VNumber n => Ok n
  | VString key => KeyboardMapper_translateKey keymap key
  | _ => Throw TypeError
  end.

Definition setMouseButtonState (button : Value) (down : bool) : State World () :=
  match button with
  | VString b =>
      if Enum_isType MouseButton b || bool_decide (b ∈ mouseButtonProps) then
        set_mouseState
          (MouseState.set (default b (list_to_map (M := gmap jstring jstring)
                                        mouseButtonToStateProp !! b)) down)
      else throw AssertionError
  | _ => throw AssertionError
  end.

Definition CheckConnectedDecorator (func : list Value → State World Value)
    : list Value → State World Value :=
  λ args w,
    if isConnected (tunnel w) then func args w
    else (Throw (GuacamoleClientError NOT_CONNECTED), w).

Definition keysDown_method (keys : list Value) : State World Value :=
  for_of (unifyVarArgs keys)
    (λ key, keysym ← lift (translateKey key); emit (SendKeyEvent 1 keysym)) ;;
  mret VUndefined.

Definition keysDown := CheckConnectedDecorator keysDown_method.

Definition keysUp_method (keys : list Value) : State World Value :=
  for_of (unifyVarArgs keys)
    (λ key, keysym ← lift (translateKey key); emit (SendKeyEvent 0 keysym)) ;;
  mret VUndefined.

Definition keysUp := CheckConnectedDecorator keysUp_method.

(** [keysArray.reverse()] reverses the array in place; the model passes the
    reversed list on and keeps no array of keys in a store. *)
Definition keysPress_method (keys : list Value) : State World Value :=
  let keysArray := unifyVarArgs keys in
  keysDown [VArray keysArray] ;;
  (if toggleDelay options >? 0 then delay (Num (toggleDelay options)) else mret ()) ;;
  keysUp [VArray (reverse keysArray)].

Definition keysPress := CheckConnectedDecorator keysPress_method.

(** The [for] loop of [type] over the units that are left. *)
Fixpoint type_loop (text : jstring) : State World () :=
  match text with
  | c :: rest =>
      keysyms ← lift (KeyboardMapper_translateChar keymap [c]);
      keysDown [VArray (keysym_value <$> keysyms)] ;;
      delay (Num (toggleDelay options)) ;;
      keysUp [VArray (reverse (keysym_value <$> keysyms))] ;;
      (if bool_decide (rest ≠ []) then delay (Num (delayBetweenKeys options))
       else mret ()) ;;
      type_loop rest
  | [] => mret ()
  end.

Definition type_method (args : list Value) : State World Value :=
  match arg 0 args with
  | VString text => type_loop text ;; mret VUndefined
  | _ => throw OutsideModel
  end.

Definition type := CheckConnectedDecorator type_method.

Definition mouseButtonDown_method (args : list Value) : State World Value :=
  setMouseButtonState (arg 0 args) true ;;
  sendMouseState ;;
  mret VUndefined.

Definition mouseButtonDown := CheckConnectedDecorator mouseButtonDown_method.

Definition mouseButtonUp_method (args : list Value) : State World Value :=
  setMouseButtonState (arg 0 args) false ;;
  sendMouseState ;;
  mret VUndefined.

Definition mouseButtonUp := CheckConnectedDecorator mouseButtonUp_method.

(** [while (count-- > 0)] of [mouseClick] for an integer [count]: [count]
    rounds are left, and inside a round [count] is already one less. *)
Fixpoint mouseClick_loop (button : Value) (count : nat) : State World () :=
  match count with
  | S count =>
      mouseButtonDown [button] ;;
      delay (Num (toggleDelay options)) ;;
      mouseButtonUp [button] ;;
      (if bool_decide (0 < count)%nat then delay (Num (doubleClickDelay options))
       else mret ()) ;;
      mouseClick_loop button count
  | O => mret ()
  end.

(** [count] defaults to 1 and [modifiers] to the empty array; a [count] that
    is NaN fails [count-- > 0] at once. *)
Definition mouseClick_method (args : list Value) : State World Value :=
  let button := arg 0 args in
  let modifiers := match arg 2 args with VUndefined => VArray [] | m => m end in
  match match arg 1 args with VUndefined => VNumber (Num 1) | c => c end with
  | VNumber (Num count) =>
      keysDown [modifiers] ;;
      mouseClick_loop button (Z.to_nat count) ;;
      keysUp [modifiers]
  | VNumber NaN => keysDown [modifiers] ;; keysUp [modifiers]
  | _ => throw OutsideModel
  end.

Definition mouseClick := CheckConnectedDecorator mouseClick_method.

Definition mouseDoubleClick_method (args : list Value) : State World Value :=
  mouseClick [arg 0 args; VNumber (Num 2)].

Definition mouseDoubleClick := CheckConnectedDecorator mouseDoubleClick_method.

(** [while (count-- > 0)] of [scroll], as in [mouseClick_loop]. *)
Fixpoint scroll_loop (button : Value) (count : nat) : State World () :=
  match count with
  | S count =>
      mouseButtonDown [button] ;;
      delay (Num (toggleDelay options)) ;;
      mouseButtonUp [button] ;;
      (if bool_decide (0 < count)%nat then delay (Num (toggleDelay options))
       else mret ()) ;;
      scroll_loop button count
  | O => mret ()
  end.

(** [NaN > 0] is false and [Math.abs(NaN)] is NaN: no round. *)
Definition scroll_method (args : list Value) : State World Value :=
  match arg 0 args with
  | VNumber (Num lines) =>
      let button := if lines >? 0 then js "ScrollUp" else js "ScrollDown" in
      let count := Z.abs lines in
      scroll_loop (VString button) (Z.to_nat count) ;;
      mret VUndefined
  | VNumber NaN => mret VUndefined
  | _ => throw OutsideModel
  end.

Definition scroll := CheckConnectedDecorator scroll_method.

Definition mouseMove_method (args : list Value) : State World Value :=
  match arg 0 args, arg 1 args with
  | VNumber (Num x), VNumber (Num y) =>
      if negb (x >=? 0) then throw AssertionError
      else if negb (y >=? 0) then throw AssertionError
      else set_mouseState (MouseState.move x y) ;; sendMouseState ;; mret VUndefined
  | VNumber NaN, _ => throw AssertionError
  | VNumber (Num x), VNumber NaN => throw AssertionError
  | _, _ => throw OutsideModel
  end.

Definition mouseMove := CheckConnectedDecorator mouseMove_method.

Definition captureScreen_method (args : list Value) : State World Value :=
  w ← get;
  let canvas := display w in
  if (Canvas.width canvas =? 0) || (Canvas.height canvas =? 0)
  then throw (GuacamoleClientError CANVAS_NOT_INITIALIZED)
  else mret (VBuffer (Canvas.png canvas)).

Definition captureScreen := CheckConnectedDecorator captureScreen_method.

Definition captureScreenToFile_method (args : list Value) : State World Value :=
  image ← captureScreen [arg 1 args];
  match image with
  | VBuffer data => emit (WriteFile (arg 0 args) data) ;; mret VUndefined
  | _ => throw OutsideModel
  end.

Definition captureScreenToFile := CheckConnectedDecorator captureScreenToFile_method.

Definition pause_method (args : list Value) : State World Value :=
  match arg 0 args with
  | VNumber seconds => delay (number_times seconds 1000) ;; mret VUndefined
  | _ => throw OutsideModel
  end.

Definition pause := CheckConnectedDecorator pause_method.

(** Modelled from the spec: [client.disconnect()] tears the transport
    down. *)
Definition disconnect_method (args : list Value) : State World Value :=
  emit ClientDisconnect ;; set_tunnel Disconnected ;; mret VUndefined.

Definition disconnect := CheckConnectedDecorator disconnect_method.

(** [client[cmd]] *)
Definition Client_method (cmd : Method.t) : list Value → State World Value :=
  match cmd with
  | Method.keysPress => keysPress
  | Method.keysDown => keysDown
  | Method.keysUp => keysUp
  | Method.type => type
  | Method.mouseClick => mouseClick
  | Method.mouseDoubleClick => mouseDoubleClick
  | Method.mouseButtonDown => mouseButtonDown
  | Method.mouseButtonUp => mouseButtonUp
  | Method.scroll => scroll
  | Method.mouseMove => mouseMove
  | Method.captureScreen => captureScreen
  | Method.captureScreenToFile => captureScreenToFile
  | Method.pause => pause
  | Method.disconnect => disconnect
  end.

End createClient.

(** ** Arrays of words on the heap

    [parseCommands] shifts words off an array; the arrays live in a store so
    that the caller's array and the function's own are told apart. *)
Abbreviation loc := positive.
Abbreviation Heap := (gmap loc (list jstring)).

(** A reference to no array does not occur. *)
Definition array_read (a : loc) : State Heap (list jstring) :=
  λ h, match h !! a with
       | Some ws => (Ok ws, h)
       | None => (Throw OutsideModel, h)
       end.

(** A new array with the given elements. *)
Definition array_new (ws : list jstring) : State Heap loc :=
  λ h, let a := fresh (dom h) in (Ok a, <[ a := ws ]> h).

(** [[...a]] *)
Definition array_spread (a : loc) : State Heap loc :=
  ws ← array_read a; array_new ws.

(** [a.length] *)
Definition array_length (a : loc) : State Heap Z :=
  ws ← array_read a; mret (Z.of_nat (length ws)).

(** [a.shift()]: the first element, removed; [None] is undefined. *)
Definition array_shift (a : loc) : State Heap (option jstring) :=
  ws ← array_read a;
  match ws with
  | w :: rest => (λ h, (Ok (Some w), <[ a := rest ]> h))
  | [] => mret None
  end.

(** [array.map(f)] for an [f] that reads and writes the store. *)
Fixpoint array_map {S A B} (f : A → State S B) (xs : list A) : State S (list B) :=
  match xs with
  | x :: rest => b ← f x; bs ← array_map f rest; mret (b :: bs)
  | [] => mret []
  end.

(** ** commands.ts: the registry and the parser *)
Definition Command : Type := Method.t * list Value.

Section Commands.
Context `{Host}.

Record CommandInfo := {
  desc : string;
  method : Method.t;
  params : list (jstring → jstring → Result Value);
}.

(** [Keystroke] as an argument parser: the array of its keys (the command
    name it is also called with is not among its parameters). *)
Definition Keystroke_param (value command : jstring) : Result Value :=
  Ok (VArray (VString <$> Keystroke value)).

(** The global [String] called with the word (and the command name, which
    it ignores). *)
Definition String (value command : jstring) : Result Value := Ok (VString value).

(** The pattern is an optional minus sign and one or more decimal digits,
    from the start of the word to its end. *)
Definition SignedInt (value command : jstring) : Result Value :=
  let digits := match value with
                | c :: r => if c =? Char.minus then r else value
                | [] => value
                end in
  if negb (forallb is_digit digits && negb (bool_decide (digits = [])))
  then Throw (GuacamoleCommandError INVALID_ARGUMENT command)
  else Ok (VNumber (Number value)).

(** The pattern is one or more decimal digits, from start to end. *)
Definition UnsignedInt (value command : jstring) : Result Value :=
  if negb (forallb is_digit value && negb (bool_decide (value = [])))
  then Throw (GuacamoleCommandError INVALID_ARGUMENT command)
  else Ok (VNumber (Number value)).

(** [Number.isNaN(num)] holds of NaN alone. *)
Definition ValidNumber (value command : jstring) : Result Value :=
  let num := Number value in
  match num with
  | NaN => Throw (GuacamoleCommandError INVALID_ARGUMENT command)
  | _ => Ok (VNumber num)
  end.

Definition Commands : list (jstring * CommandInfo) :=
  [ (js "key",
     {| desc := "Press <keystroke> (keydown and keyup).";
        method := Method.keysPress; params := [Keystroke_param] |});
    (js "keydown",
     {| desc := "Hold down <keystroke>.";
        method := Method.keysDown; params := [Keystroke_param] |});
    (js "keyup",
     {| desc := "Release <keystroke>.";
        method := Method.keysUp; params := [Keystroke_param] |});
    (js "type",
     {| desc := "Type <text> as if you had typed it.";
        method := Method.type; params := [String] |});
    (js "move",
     {| desc := "Move the mouse cursor to <X> <Y> coordinates.";
        method := Method.mouseMove; params := [UnsignedInt; UnsignedInt] |});
    (js "mousemove",
     {| desc := "Alias for move.";
        method := Method.mouseMove; params := [UnsignedInt; UnsignedInt] |});
    (js "click",
     {| desc := "Send a mouse <button> click (mousedown followed by mouseup).";
        method := Method.mouseClick; params := [String] |});
    (js "doubleclick",
     {| desc := "Send a mouse <button> double-click.";
        method := Method.mouseClick; params := [String] |});
    (js "mousedown",
     {| desc := "Hold down mouse <button>.";
        method := Method.mouseButtonDown; params := [String] |});
    (js "mouseup",
     {| desc := "Release mouse <button>.";
        method := Method.mouseButtonUp; params := [String] |});
    (js "scroll",
     {| desc := "Scroll number of <lines> up (positive number) or down (negative number).";
        method := Method.scroll; params := [SignedInt] |});
    (js "capture",
     {| desc := "Save current screen as <file>.";
        method := Method.captureScreenToFile; params := [String] |});
    (js "pause",
     {| desc := "Wait <seconds> before sending next command.";
        method := Method.pause; params := [ValidNumber] |}) ].

(** [Commands[cmd]] for an own property; [None] when [Object.hasOwn] fails. *)
Definition Commands_get (cmd : jstring) : option CommandInfo :=
  (list_find (λ e, e.1 = cmd) Commands) ≫= λ r, Some r.2.2.

(** The loop [while (words.length > 0)].  Every round shifts at least one
    word off the array, which bounds the rounds. *)
Fixpoint parseCommands_loop (fuel : nat) (words : loc) (cmds : list Command)
    : State Heap (list Command) :=
  match fuel with
  | O => throw OutOfFuel
  | S fuel' =>
      len ← array_length words;
      if len >? 0 then
        cmd ← array_shift words;
        match cmd with
        | None => throw OutsideModel
        | Some cmd =>
            match Commands_get cmd with
            | None => throw (GuacamoleCommandError UNKNOWN cmd)
            | Some info =>
                len ← array_length words;
                if len <? Z.of_nat (length (params info)) then
                  throw (GuacamoleCommandError INVALID_ARGUMENT cmd)
                else
                  params ← array_map
                    (λ parse, w ← array_shift words;
                              match w with
                              | Some w => lift (parse w cmd)
                              | None => throw OutsideModel
                              end)
                    (params info);
                  parseCommands_loop fuel' words (cmds ++ [(method info, params)])
            end
        end
      else mret cmds
  end.

Definition parseCommands (words : loc) : State Heap (list Command) :=
  words ← array_spread words;
  ws ← array_read words;
  parseCommands_loop (S (length ws)) words [].

Definition parseScript (content : jstring) : State Heap (list Command) :=
  match parseScriptToWords content with
  | Some (words, _) => words ← array_new words; parseCommands words
  | None => throw OutOfFuel
  end.

(** [client] is the object's method table, [cmd ↦ client[cmd]]. *)
Definition interpretCommands (client : Method.t → list Value → State World Value)
    (commands : list Command) : State World () :=
  for_of commands (λ c, client c.1 c.2 ;; mret ()).

End Commands.

(** A host for closed examples.  It agrees with ECMAScript where the
    examples use it: [toLowerCase] on Basic Latin text, and [Number] on an
    optionally signed run of decimal digits.  Elsewhere its [Number] is NaN,
    which ECMAScript's is not always (fractions, exponents, white space). *)
Definition ascii_lower (c : Z) : Z :=
  if (65 <=? c) && (c <=? 90) then c + 32 else c.

Definition integer_literal (s : jstring) : number :=
  let '(sign, digits) :=
    match s with
    | c :: r => if c =? Char.minus then (-1, r)
                else if c =? Char.plus then (1, r) else (1, s)
    | [] => (1, s)
    end in
  if forallb is_digit digits && negb (bool_decide (digits = []))
  then Num (sign * decimal digits) else NaN.

#[global] Instance BasicLatin : Host :=
  {| toLowerCase := fmap ascii_lower; Number := integer_literal |}.


(** ** Vocabulary of the properties *)

(** The property of the pointer state that a button names, and the names
    [setMouseButtonState] accepts. *)
Definition button_prop (b : jstring) : jstring :=
  default b (list_to_map (M := gmap jstring jstring) mouseButtonToStateProp !! b).

Definition valid_button (b : jstring) : bool :=
  Enum_isType MouseButton b || bool_decide (b ∈ mouseButtonProps).

(** One round of a click: the button [p] down, the toggle delay, the button
    up, each with the whole pointer state [s] has by then. *)
Definition round (toggle : Z) (p : jstring) (s : MouseState.t) : list Event :=
  [ SendMouseState (MouseState.set p true s); Delay (Num toggle);
    SendMouseState (MouseState.set p false s) ].

(** [n] rounds with [gap] between every two of them: [n] times a round and a
    gap, less the last gap. *)
Definition rounds (toggle gap : Z) (p : jstring) (s : MouseState.t) (n : nat)
    : list Event :=
  removelast (concat (replicate n (round toggle p s ++ [Delay (Num gap)]))).

(** A result of the command parser: a value, or one of its two errors. *)
Definition command_result {A} (r : Result A) : Prop :=
  match r with
  | Ok _ => True
  | Throw (GuacamoleCommandError _ _) => True
  | Throw _ => False
  end.

(** A world to start from: connected, the pointer at rest at the origin, no
    frame received yet, nothing done. *)
Definition World_connected : World :=
  {| tunnel := Connected; mouseState := MouseState.new;
     display := {| Canvas.width := 0; Canvas.height := 0; Canvas.png := [] |};
     events := [] |}.

(** A store that holds one array, the words move and 10. *)
Definition Heap_move10 : Heap := {[ 1%positive := [js "move"; js "10"] ]}.

(** The same world after the transport went down. *)
Definition World_disconnected : World :=
  {| tunnel := Disconnected; mouseState := MouseState.new;
     display := {| Canvas.width := 0; Canvas.height := 0; Canvas.png := [] |};
     events := [] |}.


(** ** utils.ts *)

(** [Enum(...values)]: the object that has each value as a key of itself. *)
Definition Enum (values : list jstring) : object jstring :=
  fold_left (λ acc value, obj_set acc value (Some value)) values [].

(** [Object.keys(o)] *)
Definition Object_keys {V} (o : object V) : list jstring := o.*1.

(** [s.trimEnd()] *)
Definition trimEnd (s : jstring) : jstring := reverse (trimStart (reverse s)).

(** One round of the loop of [wrapText] over the words, on the lines pushed
    so far and the line being filled. *)
Definition wrapText_step (maxWidth : Z) (st : list jstring * jstring) (word : jstring)
    : list jstring * jstring :=
  let '(lines, curLine) :=
    if Z.of_nat (length word) >? maxWidth - Z.of_nat (length st.2)
    then (st.1 ++ [trimEnd st.2], [])
    else st in
  (lines, curLine ++ word ++ [Char.space]).

Definition wrapText (text : jstring) (maxWidth : Z) : list jstring :=
  let '(lines, curLine) :=
    fold_left (wrapText_step maxWidth) (split Char.space text) ([], []) in
  lines ++ [trimEnd curLine].

(** [omitUndefined(obj)]: a property whose value is undefined is not
    copied. *)
Definition omitUndefined {V} (obj : object V) : object V :=
  fold_left (λ acc e, match e.2 with
                      | Some _ => obj_set acc e.1 e.2
                      | None => acc
                      end) obj [].

(** The options [createClient] works with: [{ ...defaultOptions, ...options }]
    (client.ts). *)
Definition createClient_options {V} (defaults options : object V) : object V :=
  obj_spread (obj_spread [] defaults) options.


(** ** Vocabulary of the further properties *)

(** The loop of the tokenizer with the bound [parseScriptToWords] gives it. *)
Definition lex (at_start : bool) (input : jstring) (st : Lexer) : option Lexer :=
  lexer_loop (S (length input)) at_start input st.

(** A unit that is none of the double quote, the backslash and the hash. *)
Definition plain (c : Z) : bool :=
  negb ((c =? Char.quote) || (c =? Char.backslash) || (c =? Char.hash)).

(** The fields of a text between its runs of white space, as
    [text.split(/\s+/)] gives them; [in_blank] says the unit before was white
    space. *)
Fixpoint fields (in_blank : bool) (s : jstring) : list jstring :=
  match s with
  | [] => [[]]
  | c :: r =>
      if is_space c then
        if in_blank then fields true r else [] :: fields true r
      else
        match fields false r with
        | w :: ws => (c :: w) :: ws
        | [] => [[c]]
        end
  end.

(** A word written between double quotes, with a backslash before each of
    its double quotes and backslashes. *)
Definition escape_unit (c : Z) : jstring :=
  if (c =? Char.quote) || (c =? Char.backslash) then [Char.backslash; c] else [c].

Definition quote_word (w : jstring) : jstring :=
  [Char.quote] ++ (w ≫= escape_unit) ++ [Char.quote].

(** No hash stands right after a white space unit. *)
Fixpoint no_hash_after_space (w : jstring) : bool :=
  match w with
  | a :: r =>
      match r with
      | b :: _ => negb (is_space a && (b =? Char.hash))
      | [] => true
      end && no_hash_after_space r
  | [] => true
  end.

(** [a] put before the first of the fields [l]. *)
Definition prepend (a : jstring) (l : list jstring) : list jstring :=
  match l with
  | w :: ws => (a ++ w) :: ws
  | [] => [a]
  end.

(** The number of double quotes of a text. *)
Definition quotes (s : jstring) : nat := length (filter (λ c, c = Char.quote) s).

(** [keys.join(sep)] *)
Fixpoint join (sep : jstring) (keys : list jstring) : jstring :=
  match keys with
  | [] => []
  | [k] => k
  | k :: rest => k ++ sep ++ join sep rest
  end.

(** A key name that is not empty and has neither of the two separators. *)
Definition clean_key (k : jstring) : Prop :=
  k ≠ [] ∧ Forall (λ c, c ≠ Char.plus ∧ c ≠ Char.minus) k.

(** The world after the client has done [es] more to the outside. *)
Definition sent (w : World) (es : list Event) : World :=
  {| tunnel := tunnel w; mouseState := mouseState w; display := display w;
     events := events w ++ es |}.

(** The key events of some codes, all pressed or all released. *)
Definition key_events (pressed : Z) (codes : list number) : list Event :=
  SendKeyEvent pressed <$> codes.

(** One stroke: the codes down in order, the toggle delay, the codes up in
    the opposite order. *)
Definition stroke (toggle : Z) (codes : list number) : list Event :=
  key_events 1 codes ++ [Delay (Num toggle)] ++ key_events 0 (reverse codes).

(** The strokes of some characters, each followed by the delay between
    keys. *)
Definition strokes (toggle between : Z) (kss : list (list Z)) : list Event :=
  concat ((λ ks, stroke toggle (Num <$> ks) ++ [Delay (Num between)]) <$> kss).

(** The parser on the words alone: what [parseCommands] does to the array it
    shifts words off, with the store left out.  The result goes with the
    words that are left. *)
Section ParserOnLists.
Context `{Host}.

Fixpoint read_params (cmd : jstring) (parsers : list (jstring → jstring → Result Value))
    (ws : list jstring) : Result (list Value) * list jstring :=
  match parsers with
  | [] => (Ok [], ws)
  | parse :: parsers =>
      match ws with
      | [] => (Throw OutsideModel, [])
      | w :: ws =>
          match parse w cmd with
          | Ok v =>
              match read_params cmd parsers ws with
              | (Ok vs, rest) => (Ok (v :: vs), rest)
              | (Throw e, rest) => (Throw e, rest)
              end
          | Throw e => (Throw e, ws)
          end
      end
  end.

Fixpoint read_commands (fuel : nat) (ws : list jstring) (cmds : list Command)
    : Result (list Command) * list jstring :=
  match fuel with
  | O => (Throw OutOfFuel, ws)
  | S fuel =>
      match ws with
      | [] => (Ok cmds, [])
      | cmd :: rest =>
          match Commands_get cmd with
          | None => (Throw (GuacamoleCommandError UNKNOWN cmd), rest)
          | Some info =>
              if (length rest <? length (params info))%nat
              then (Throw (GuacamoleCommandError INVALID_ARGUMENT cmd), rest)
              else
                match read_params cmd (params info) rest with
                | (Ok ps, rest') => read_commands fuel rest' (cmds ++ [(method info, ps)])
                | (Throw e, rest') => (Throw e, rest')
                end
          end
      end
  end.

End ParserOnLists.

(** The words a command takes: its name and its arguments. *)
Definition command_words (c : Command) : nat := S (length c.2).

(** A text that is empty or begins with white space. *)
Definition starts_blank (s : jstring) : bool :=
  match s with
  | [] => true
  | c :: _ => is_space c
  end.

(** A line of [wrapText] as its words give it: each word with a space after
    it, less the white space at the end. *)
Definition wrapText_line (words : list jstring) : jstring :=
  trimEnd (words ≫= λ word, word ++ [Char.space]).


(** * Properties *)

(** ** Keystroke *)

Lemma indexOf_from_bound (c : Z) (s : jstring) (i : Z) :
  indexOf_from c s i = -1 ∨ i ≤ indexOf_from c s i.
Proof.
  revert i. induction s as [|x r IH]; intros i; simpl; [by left|].
  destruct (x =? c); [right; lia|].
  destruct (IH (i + 1)) as [->| ?]; [by left | right; lia].
Qed.

Lemma lt_inf_found_first (c : Z) (r : jstring) (i : Z) :
  0 ≤ i → lt_inf (Some i) (negToInf (indexOf_from c r (i + 1))) = true.
Proof.
  intros Hi. unfold negToInf.
  destruct (indexOf_from_bound c r (i + 1)) as [-> | Hle]; [done|].
  destruct (Z.ltb_spec (indexOf_from c r (i + 1)) 0); simpl; [done|].
  apply Z.ltb_lt. lia.
Qed.

Lemma lt_inf_found_later (c : Z) (r : jstring) (i : Z) :
  0 ≤ i → lt_inf (negToInf (indexOf_from c r (i + 1))) (Some i) = false.
Proof.
  intros Hi. unfold negToInf.
  destruct (indexOf_from_bound c r (i + 1)) as [-> | Hle]; [done|].
  destruct (Z.ltb_spec (indexOf_from c r (i + 1)) 0); simpl; [done|].
  apply Z.ltb_ge. lia.
Qed.

Lemma Keystroke_separator_from (s : jstring) (i : Z) :
  0 ≤ i →
  (if lt_inf (negToInf (indexOf_from Char.plus s i))
             (negToInf (indexOf_from Char.minus s i))
   then Char.plus else Char.minus) = KeystrokeSpec.separator s.
Proof.
  revert i. induction s as [|x r IH]; intros i Hi; [done|].
  unfold KeystrokeSpec.separator. rewrite filter_cons. simpl.
  destruct (Z.eqb_spec x Char.plus) as [->|Hp].
  - change (Char.plus =? Char.minus) with false. cbn iota.
    replace (negToInf i) with (Some i)
      by (unfold negToInf; destruct (Z.ltb_spec i 0); [lia | done]).
    rewrite lt_inf_found_first by done.
    rewrite decide_True by (by left). done.
  - destruct (Z.eqb_spec x Char.minus) as [->|Hm].
    + replace (negToInf i) with (Some i)
        by (unfold negToInf; destruct (Z.ltb_spec i 0); [lia | done]).
      rewrite lt_inf_found_later by done.
      rewrite decide_True by (by right). done.
    + rewrite decide_False by (intros [?|?]; done).
      apply IH. lia.
Qed.

Lemma Keystroke_separator_spec (s : jstring) :
  Keystroke_separator s = KeystrokeSpec.separator s.
Proof. apply (Keystroke_separator_from s 0). lia. Qed.

(** The reducer on an accumulator that does not end in an empty key, and on
    one that does. *)
Lemma Keystroke_reducer_push (sep : Z) (acc : list jstring) (key : jstring) :
  last acc ≠ Some [] → Keystroke_reducer sep acc key = acc ++ [key].
Proof. intros Hl. unfold Keystroke_reducer. by rewrite decide_False. Qed.

Lemma Keystroke_reducer_merge (sep : Z) (acc : list jstring) (key : jstring) :
  Keystroke_reducer sep (acc ++ [[]]) key = acc ++ [sep :: key].
Proof.
  unfold Keystroke_reducer. rewrite last_snoc, decide_True by done.
  rewrite length_app. simpl.
  replace (length acc + 1 - 1)%nat with (length acc + 0)%nat by lia.
  by rewrite insert_app_r.
Qed.

Lemma Keystroke_fold_collapse (sep : Z) (segments : list jstring) :
  (∀ acc, last acc ≠ Some [] →
     fold_left (Keystroke_reducer sep) segments acc
     = acc ++ KeystrokeSpec.collapse sep segments)
  ∧ (∀ acc, last acc ≠ Some [] →
     fold_left (Keystroke_reducer sep) segments (acc ++ [[]])
     = acc ++ KeystrokeSpec.collapse sep ([] :: segments)).
Proof.
  induction segments as [|seg rest [IHpush IHmerge]].
  - split; intros acc _; simpl; by rewrite ?app_nil_r.
  - split; intros acc Hacc.
    + cbn [fold_left]. rewrite Keystroke_reducer_push by done.
      destruct seg as [|c seg].
      * by rewrite IHmerge.
      * rewrite IHpush by (by rewrite last_snoc).
        by rewrite <- app_assoc.
    + cbn [fold_left]. rewrite Keystroke_reducer_merge.
      rewrite IHpush by (by rewrite last_snoc).
      by rewrite <- app_assoc.
Qed.

(** C7. For every string, the Keystroke parser uses as separator whichever
    of plus and minus occurs first (minus when neither occurs), splits on it,
    and makes one key, the separator followed by the next segment, of every
    empty segment and the segment after it; Ctrl+Shift+c gives Ctrl, Shift,
    c and Ctrl++ gives Ctrl, +. *)
Theorem Keystroke_refines_spec :
  (∀ s : jstring, Keystroke s = KeystrokeSpec.parse s)
  ∧ Keystroke (js "Ctrl+Shift+c") = [js "Ctrl"; js "Shift"; js "c"]
  ∧ Keystroke (js "Ctrl++") = [js "Ctrl"; js "+"].
Proof.
  split; [|split; reflexivity].
  intros s. unfold Keystroke, KeystrokeSpec.parse.
  rewrite Keystroke_separator_spec.
  by apply (Keystroke_fold_collapse (KeystrokeSpec.separator s)).
Qed.

(** ** The tokenizer *)

Lemma span_length (p : Z → bool) (s : jstring) :
  (length (span p s).2 ≤ length s)%nat.
Proof.
  induction s as [|c r IH]; simpl; [lia|].
  destruct (p c); [|simpl; lia].
  destruct (span p r) as [a b]. simpl in *. lia.
Qed.

Lemma span_nonempty (p : Z → bool) (s : jstring) :
  (span p s).1 ≠ [] → (length (span p s).2 < length s)%nat.
Proof.
  destruct s as [|c r]; simpl; [done|].
  destruct (p c); [|done].
  pose proof (span_length p r). destruct (span p r) as [a b]. simpl in *. lia.
Qed.

(** A match leaves less text than there was. *)
Lemma match_here_shorter (b : bool) (s m rest : jstring) :
  Regex.match_here b s = Some (m, rest) → (length rest < length s)%nat.
Proof.
  unfold Regex.match_here, Regex.orelse.
  destruct (Regex.comment_line b s) as [[m1 r1]|] eqn:E1.
  { intros [= <- <-]. unfold Regex.comment_line in E1.
    destruct s as [|c r]; [done|].
    destruct (b && (c =? Char.hash)); [|done].
    pose proof (span_length Regex.not_newline r).
    destruct (span Regex.not_newline r) as [body r'].
    destruct r' as [|n r'']; [done|]. injection E1 as <- <-. simpl in *. lia. }
  destruct (Regex.word s) as [[m2 r2]|] eqn:E2.
  { intros [= <- <-]. unfold Regex.word in E2.
    pose proof (span_nonempty Regex.word_unit s).
    destruct (span Regex.word_unit s) as [[|w0 w] r]; [done|].
    injection E2 as <- <-. simpl in *. auto. }
  destruct (Regex.blank s) as [[m3 r3]|] eqn:E3.
  { intros [= <- <-]. unfold Regex.blank in E3.
    pose proof (span_nonempty is_space s).
    destruct (span is_space s) as [[|w0 w] r]; [done|].
    assert (length r < length s)%nat by (simpl in *; auto).
    destruct r as [|h r]; [by injection E3 as <- <-|].
    destruct (h =? Char.hash); [|by injection E3 as <- <-].
    pose proof (span_length Regex.not_newline r).
    destruct (span Regex.not_newline r) as [body r'].
    injection E3 as <- <-. simpl in *. lia. }
  destruct (Regex.dquote s) as [[m4 r4]|] eqn:E4.
  { intros [= <- <-]. unfold Regex.dquote in E4.
    destruct s as [|c r]; [done|]. destruct (c =? Char.quote); [|done].
    injection E4 as <- <-. simpl. lia. }
  unfold Regex.escape. destruct s as [|c [|d r]]; [done..|].
  destruct (c =? Char.backslash); [|done]. intros [= <- <-]. simpl. lia.
Qed.

Lemma exec_shorter (b : bool) (s m rest : jstring) :
  Regex.exec b s = Some (m, rest) → (length rest < length s)%nat.
Proof.
  revert b. induction s as [|c r IH]; intros b; simpl.
  - by destruct b.
  - destruct (Regex.match_here b (c :: r)) as [[m' r']|] eqn:E.
    + intros [= -> ->]. by apply match_here_shorter in E.
    + intros Hx. apply IH in Hx. lia.
Qed.

(** The bound of the loop is never hit. *)
Lemma lexer_loop_total (fuel : nat) (b : bool) (input : jstring) (st : Lexer) :
  (length input < fuel)%nat → is_Some (lexer_loop fuel b input st).
Proof.
  revert b input st. induction fuel as [|fuel IH]; intros b input st Hlen; [lia|].
  simpl. destruct (Regex.exec b input) as [[m rest]|] eqn:E; [|done].
  apply IH. apply exec_shorter in E. lia.
Qed.

Lemma parseScriptToWords_total (input : jstring) :
  is_Some (parseScriptToWords input).
Proof.
  unfold parseScriptToWords. apply fmap_is_Some, lexer_loop_total. lia.
Qed.

(** C3, on the code.  A comment at the very start of the input that a newline
    ends adds nothing to any word; the same comment with no newline after it
    loses only its first word, and the rest of its text becomes words. *)
Theorem comment_at_start_without_newline_leaks :
  parseScriptToWords (js "# hello" ++ [Char.newline]) = Some ([[]], false)
  ∧ parseScriptToWords (js "# hello") = Some ([[]; js "hello"], false)
  ∧ parseScriptToWords (js "# hello world")
    = Some ([[]; js "hello"; js "world"], false).
Proof. repeat split; reflexivity. Qed.

(** ** The keysym translator *)

Section KeyboardMapperProperties.
Context `{Host}.

(** C9. For every string that begins with 0x, [translateKey] returns the
    hexadecimal reading of the rest whatever the keymap holds, and throws
    nothing; the reading is NaN when the rest starts with no hexadecimal
    digit, as for 0x and 0xzz. *)
Theorem translateKey_hex_bypasses_keymap (keymap : Keymap) :
  (∀ rest : jstring,
     KeyboardMapper_translateKey keymap (js "0x" ++ rest) = Ok (parseInt rest 16))
  ∧ KeyboardMapper_translateKey keymap (js "0x") = Ok NaN
  ∧ KeyboardMapper_translateKey keymap (js "0xzz") = Ok NaN
  ∧ KeyboardMapper_translateKey keymap (js "0x41") = Ok (Num 65).
Proof. repeat split; reflexivity. Qed.

(** What a loop of [map.set] over the entries of an object leaves under a
    key: nothing new when no entry of that key has a value, and the value of
    the key's entry otherwise. *)
Lemma fold_set_lookup_absent {V W} (f : V → W) (o : object V) (m : gmap jstring W)
    (k : jstring) :
  (∀ v, (k, Some v) ∉ o) →
  fold_left (λ map e, match e.2 with
                      | Some v => <[ e.1 := f v ]> map
                      | None => map
                      end) o m !! k = m !! k.
Proof.
  revert m. induction o as [|[k' v'] o IH]; intros m Hno; [done|].
  cbn [fold_left]. rewrite IH.
  - destruct v' as [v'|]; [|done]. simpl. apply lookup_insert_ne.
    intros ->. apply (Hno v'). by left.
  - intros v Hin. apply (Hno v). by right.
Qed.

Lemma obj_get_absent {V} (o : object V) (k : jstring) :
  obj_wf o → obj_get o k = None → ∀ v, (k, Some v) ∉ o.
Proof.
  unfold obj_wf. induction o as [|[k' v'] o IH]; intros Hwf Hget v Hin.
  - by apply not_elem_of_nil in Hin.
  - apply NoDup_cons in Hwf as [Hk' Hwf]. simpl in Hget.
    apply elem_of_cons in Hin as [[= <- <-]|Hin].
    + by rewrite decide_True in Hget.
    + destruct (decide (k' = k)) as [->|Hne].
      * apply Hk'. apply list_elem_of_fmap. by exists (k, Some v).
      * by apply (IH Hwf Hget v).
Qed.

Lemma fold_set_lookup_present {V W} (f : V → W) (o : object V) (m : gmap jstring W)
    (k : jstring) (v : V) :
  obj_wf o → obj_get o k = Some v →
  fold_left (λ map e, match e.2 with
                      | Some v => <[ e.1 := f v ]> map
                      | None => map
                      end) o m !! k = Some (f v).
Proof.
  unfold obj_wf. revert m. induction o as [|[k' v'] o IH]; intros m Hwf Hget; [done|].
  apply NoDup_cons in Hwf as [Hk' Hwf]. simpl in Hget. cbn [fold_left].
  destruct (decide (k' = k)) as [->|Hne].
  - subst v'. simpl. rewrite fold_set_lookup_absent; [apply lookup_insert_eq|].
    intros v' Hin. apply Hk'. apply list_elem_of_fmap. by exists (k, Some v').
  - by apply IH.
Qed.

(** The table of characters under a character that is none of newline,
    space and tab. *)
Lemma charsMap_lookup (keymap : Keymap) (c : Z) :
  c ∉ [Char.newline; Char.space; Char.tab] →
  obj_wf (printable keymap) → obj_wf (combined keymap) →
  charsMap keymap !! [c]
  = match obj_get (combined keymap) [c] with
    | Some codes => Some codes
    | None => (λ code, [Some code]) <$> obj_get (printable keymap) [c]
    end.
Proof.
  intros Hc Hp Hcomb. unfold charsMap.
  rewrite !not_elem_of_cons in Hc. destruct Hc as (Hnl & Hsp & Htab & _).
  rewrite !lookup_insert_ne by congruence.
  destruct (obj_get (combined keymap) [c]) as [codes|] eqn:Ecomb.
  - by apply (fold_set_lookup_present (λ codes, codes)).
  - rewrite (fold_set_lookup_absent (λ codes, codes))
      by by apply obj_get_absent.
    destruct (obj_get (printable keymap) [c]) as [code|] eqn:Eprint.
    + by apply (fold_set_lookup_present (λ code, [Some code])).
    + rewrite (fold_set_lookup_absent (λ code, [Some code]))
        by by apply obj_get_absent.
      done.
Qed.

(** The code point of a one-unit string is its unit, surrogate or not. *)
Lemma codePointAt0_unit (c : Z) : codePointAt0 [c] = Some c.
Proof. unfold codePointAt0. by destruct ((0xD800 <=? c) && (c <=? 0xDBFF)). Qed.

(** The string of a code point has that code point. *)
Lemma codePointAt0_fromCodePoint (n : Z) :
  0 ≤ n ≤ 0x10FFFF → codePointAt0 (String_fromCodePoint n) = Some n.
Proof.
  intros Hn. unfold String_fromCodePoint.
  destruct (Z.leb_spec n 0xFFFF) as [Hbmp|Hastral]; [apply codePointAt0_unit|].
  pose proof (Z.div_mod (n - 0x10000) 0x400 ltac:(lia)) as Hdiv.
  pose proof (Z.mod_pos_bound (n - 0x10000) 0x400 ltac:(lia)) as Hmod.
  assert (0 ≤ (n - 0x10000) / 0x400 ≤ 0x3FF) as Hhigh.
  { split; [apply Z.div_pos; lia|]. apply Z.lt_succ_r, Z.div_lt_upper_bound; lia. }
  unfold codePointAt0.
  replace ((0xD800 <=? 0xD800 + (n - 0x10000) / 0x400)
           && (0xD800 + (n - 0x10000) / 0x400 <=? 0xDBFF)) with true by lia.
  replace ((0xDC00 <=? 0xDC00 + (n - 0x10000) mod 0x400)
           && (0xDC00 + (n - 0x10000) mod 0x400 <=? 0xDFFF)) with true by lia.
  f_equal. lia.
Qed.


(** C8, amended.  A character, none of newline, space and tab, that has a
    code in the printable table translates to that one code unless the
    combined table gives it a sequence too: then the combined sequence is
    returned, the later [set] having replaced the earlier.  A combined entry
    whose value is undefined is not set, and the printable code stays. *)
Theorem translateChar_combined_over_printable (keymap : Keymap) (c code : Z) :
  c ∉ [Char.newline; Char.space; Char.tab] →
  obj_wf (printable keymap) → obj_wf (combined keymap) →
  obj_get (printable keymap) [c] = Some code →
  KeyboardMapper_translateChar keymap [c]
  = Ok (default [Some code] (obj_get (combined keymap) [c])).
Proof.
  intros Hc Hp Hcomb Eprint. unfold KeyboardMapper_translateChar.
  rewrite charsMap_lookup, Eprint by done.
  by destruct (obj_get (combined keymap) [c]).
Qed.

End KeyboardMapperProperties.



(** C8 as stated fails: the character a of [overlappingKeymap] is in the
    printable table with the code 0x61, and translates to the combined
    sequence. *)
Lemma translateChar_printable_not_first :
  obj_get (printable overlappingKeymap) (js "a") = Some 0x61
  ∧ obj_get (combined overlappingKeymap) (js "a") = Some [Some 0xffe1; Some 0x61]
  ∧ KeyboardMapper_translateChar overlappingKeymap (js "a")
    = Ok [Some 0xffe1; Some 0x61].
Proof. repeat split; vm_compute; reflexivity. Qed.

(** C8, amended, at the character a of three keymaps: with a sequence in
    the combined table, with an undefined combined entry, and with no
    combined entry at all (US). *)
Lemma translateChar_combined_over_printable_witness :
  KeyboardMapper_translateChar overlappingKeymap (js "a") = Ok [Some 0xffe1; Some 0x61]
  ∧ KeyboardMapper_translateChar maskedKeymap (js "a") = Ok [Some 0x61]
  ∧ KeyboardMapper_translateChar Keymaps.US (js "a") = Ok [Some 0x61].
Proof.
  split; [|split].
  - apply (translateChar_combined_over_printable overlappingKeymap 0x61 0x61).
    + apply (bool_decide_unpack _). vm_compute. exact I.
    + unfold obj_wf. apply (bool_decide_unpack _). vm_compute. exact I.
    + unfold obj_wf. apply (bool_decide_unpack _). vm_compute. exact I.
    + vm_compute. reflexivity.
  - apply (translateChar_combined_over_printable maskedKeymap 0x61 0x61).
    + apply (bool_decide_unpack _). vm_compute. exact I.
    + unfold obj_wf. apply (bool_decide_unpack _). vm_compute. exact I.
    + unfold obj_wf. apply (bool_decide_unpack _). vm_compute. exact I.
    + vm_compute. reflexivity.
  - apply (translateChar_combined_over_printable Keymaps.US 0x61 0x61).
    + apply (bool_decide_unpack _). vm_compute. exact I.
    + unfold obj_wf. apply (bool_decide_unpack _). vm_compute. exact I.
    + unfold obj_wf. apply (bool_decide_unpack _). vm_compute. exact I.
    + vm_compute. reflexivity.
Defined.

(** ** The action executor *)

(** Setting a button property twice is setting it once. *)
Lemma MouseState_set_set (p : jstring) (v v' : bool) (s : MouseState.t) :
  MouseState.set p v (MouseState.set p v' s) = MouseState.set p v s.
Proof.
  unfold MouseState.set. destruct s.
  repeat (case_decide; [done|]). done.
Qed.

Lemma rounds_S (toggle gap : Z) (p : jstring) (s : MouseState.t) (n : nat) :
  rounds toggle gap p s (S n)
  = round toggle p s
    ++ (if bool_decide (0 < n)%nat then [Delay (Num gap)] else [])
    ++ rounds toggle gap p s n.
Proof.
  unfold rounds. destruct n as [|n]; [done|].
  rewrite bool_decide_true by lia.
  change (replicate (S (S n)) ?b) with (b :: replicate (S n) b).
  rewrite concat_cons.
  set (rest := concat _).
  assert (rest ≠ []) as Hrest by done.
  rewrite removelast_app by done. by rewrite <- !app_assoc.
Qed.

Lemma rounds_base (toggle gap : Z) (p : jstring) (v : bool) (s : MouseState.t)
    (n : nat) :
  rounds toggle gap p (MouseState.set p v s) n = rounds toggle gap p s n.
Proof. unfold rounds, round. by rewrite !MouseState_set_set. Qed.

Section ClientProperties.
Context `{Host}.

Lemma CheckConnectedDecorator_connected (func : list Value → State World Value)
    (args : list Value) (w : World) :
  tunnel w = Connected → CheckConnectedDecorator func args w = func args w.
Proof. intros Hon. unfold CheckConnectedDecorator. by rewrite Hon. Qed.

Lemma setMouseButtonState_valid (b : jstring) (v : bool) (w : World) :
  valid_button b = true →
  setMouseButtonState (VString b) v w
  = (Ok (), {| tunnel := tunnel w;
               mouseState := MouseState.set (button_prop b) v (mouseState w);
               display := display w; events := events w |}).
Proof.
  intros Hb. unfold setMouseButtonState.
  change (Enum_isType MouseButton b || bool_decide (b ∈ mouseButtonProps))
    with (valid_button b).
  by rewrite Hb.
Qed.

Lemma mouseButtonDown_run (b : jstring) (s : MouseState.t) (d : Canvas.t)
    (ev : list Event) :
  valid_button b = true →
  mouseButtonDown [VString b]
    {| tunnel := Connected; mouseState := s; display := d; events := ev |}
  = (Ok VUndefined,
     {| tunnel := Connected; mouseState := MouseState.set (button_prop b) true s;
        display := d;
        events := ev ++ [SendMouseState (MouseState.set (button_prop b) true s)] |}).
Proof.
  intros Hb. unfold mouseButtonDown, CheckConnectedDecorator, mouseButtonDown_method.
  cbn [tunnel isConnected arg nth]. unfold mbind, State_bind.
  by rewrite setMouseButtonState_valid.
Qed.

Lemma mouseButtonUp_run (b : jstring) (s : MouseState.t) (d : Canvas.t)
    (ev : list Event) :
  valid_button b = true →
  mouseButtonUp [VString b]
    {| tunnel := Connected; mouseState := s; display := d; events := ev |}
  = (Ok VUndefined,
     {| tunnel := Connected; mouseState := MouseState.set (button_prop b) false s;
        display := d;
        events := ev ++ [SendMouseState (MouseState.set (button_prop b) false s)] |}).
Proof.
  intros Hb. unfold mouseButtonUp, CheckConnectedDecorator, mouseButtonUp_method.
  cbn [tunnel isConnected arg nth]. unfold mbind, State_bind.
  by rewrite setMouseButtonState_valid.
Qed.

Lemma delay_run (ms : number) (w : World) :
  delay ms w
  = (Ok (), {| tunnel := tunnel w; mouseState := mouseState w;
               display := display w; events := events w ++ [Delay ms] |}).
Proof. done. Qed.

Lemma mouseClick_loop_run (options : ClientOptions) (b : jstring) (n : nat)
    (s : MouseState.t) (d : Canvas.t) (ev : list Event) :
  valid_button b = true →
  mouseClick_loop options (VString b) n
    {| tunnel := Connected; mouseState := s; display := d; events := ev |}
  = (Ok (),
     {| tunnel := Connected;
        mouseState := match n with
                      | O => s
                      | S _ => MouseState.set (button_prop b) false s
                      end;
        display := d;
        events := ev ++ rounds (toggleDelay options) (doubleClickDelay options)
                          (button_prop b) s n |}).
Proof.
  intros Hb. revert s ev. induction n as [|n IH]; intros s ev.
  - cbn. by rewrite app_nil_r.
  - cbn [mouseClick_loop]. unfold mbind, State_bind.
    rewrite mouseButtonDown_run, delay_run by done. cbn [tunnel mouseState display events].
    rewrite mouseButtonUp_run by done.
    rewrite MouseState_set_set, rounds_S.
    destruct (bool_decide (0 < n)%nat) eqn:Hn.
    + rewrite delay_run. cbn [tunnel mouseState display events].
      rewrite IH, rounds_base, MouseState_set_set.
      destruct n; [done|]. by rewrite <- !app_assoc.
    + unfold mret, State_ret. rewrite IH, rounds_base, MouseState_set_set.
      apply bool_decide_eq_false in Hn. destruct n; [|lia].
      by rewrite <- !app_assoc.
Qed.

Lemma scroll_loop_run (options : ClientOptions) (b : jstring) (n : nat)
    (s : MouseState.t) (d : Canvas.t) (ev : list Event) :
  valid_button b = true →
  scroll_loop options (VString b) n
    {| tunnel := Connected; mouseState := s; display := d; events := ev |}
  = (Ok (),
     {| tunnel := Connected;
        mouseState := match n with
                      | O => s
                      | S _ => MouseState.set (button_prop b) false s
                      end;
        display := d;
        events := ev ++ rounds (toggleDelay options) (toggleDelay options)
                          (button_prop b) s n |}).
Proof.
  intros Hb. revert s ev. induction n as [|n IH]; intros s ev.
  - cbn. by rewrite app_nil_r.
  - cbn [scroll_loop]. unfold mbind, State_bind.
    rewrite mouseButtonDown_run, delay_run by done. cbn [tunnel mouseState display events].
    rewrite mouseButtonUp_run by done.
    rewrite MouseState_set_set, rounds_S.
    destruct (bool_decide (0 < n)%nat) eqn:Hn.
    + rewrite delay_run. cbn [tunnel mouseState display events].
      rewrite IH, rounds_base, MouseState_set_set.
      destruct n; [done|]. by rewrite <- !app_assoc.
    + unfold mret, State_ret. rewrite IH, rounds_base, MouseState_set_set.
      apply bool_decide_eq_false in Hn. destruct n; [|lia].
      by rewrite <- !app_assoc.
Qed.

Lemma keysDown_no_keys (keymap : Keymap) (w : World) :
  tunnel w = Connected → keysDown keymap [VArray []] w = (Ok VUndefined, w).
Proof.
  intros Hon. unfold keysDown. by rewrite CheckConnectedDecorator_connected.
Qed.

Lemma keysUp_no_keys (keymap : Keymap) (w : World) :
  tunnel w = Connected → keysUp keymap [VArray []] w = (Ok VUndefined, w).
Proof.
  intros Hon. unfold keysUp. by rewrite CheckConnectedDecorator_connected.
Qed.

(** A connected [mouseClick] of a valid button with an integer count and
    no modifiers: the rounds of the loop and nothing else. *)
Lemma mouseClick_run (keymap : Keymap) (options : ClientOptions) (b : jstring)
    (count : Z) (s : MouseState.t) (d : Canvas.t) (ev : list Event) :
  valid_button b = true →
  mouseClick keymap options [VString b; VNumber (Num count)]
    {| tunnel := Connected; mouseState := s; display := d; events := ev |}
  = (Ok VUndefined,
     {| tunnel := Connected;
        mouseState := match Z.to_nat count with
                      | O => s
                      | S _ => MouseState.set (button_prop b) false s
                      end;
        display := d;
        events := ev ++ rounds (toggleDelay options) (doubleClickDelay options)
                          (button_prop b) s (Z.to_nat count) |}).
Proof.
  intros Hb. unfold mouseClick. rewrite CheckConnectedDecorator_connected by done.
  unfold mouseClick_method. cbn [arg nth]. unfold mbind, State_bind.
  rewrite keysDown_no_keys by done.
  rewrite mouseClick_loop_run by done.
  by rewrite keysUp_no_keys.
Qed.

(** The same with the count left out: it defaults to 1. *)
Lemma mouseClick_default_run (keymap : Keymap) (options : ClientOptions)
    (b : jstring) (w : World) :
  mouseClick keymap options [VString b] w
  = mouseClick keymap options [VString b; VNumber (Num 1)] w.
Proof. done. Qed.

(** C5. With a toggle delay of 12 and a double-click delay of 100, a
    connected [mouseClick] of Left with count 2 sends exactly: left down, 12
    ms, left up, 100 ms, left down, 12 ms, left up.  There is one gap of 100
    ms, no key event, and nothing after the last up. *)
Theorem mouseClick_left_twice (keymap : Keymap) (between : Z) (w : World) :
  tunnel w = Connected →
  let options := {| toggleDelay := 12; doubleClickDelay := 100;
                    delayBetweenKeys := between |} in
  let pressed := MouseState.set (js "left") true (mouseState w) in
  let released := MouseState.set (js "left") false (mouseState w) in
  mouseClick keymap options [VString (js "Left"); VNumber (Num 2)] w
  = (Ok VUndefined,
     {| tunnel := Connected; mouseState := released; display := display w;
        events := events w ++
          [ SendMouseState pressed; Delay (Num 12); SendMouseState released;
            Delay (Num 100);
            SendMouseState pressed; Delay (Num 12); SendMouseState released ] |}).
Proof.
  intros Hon options pressed released. destruct w as [t s d ev].
  cbn [tunnel] in Hon. subst t.
  by rewrite mouseClick_run.
Qed.

(** C6. A connected [scroll] of an integer number of lines presses the
    scroll-up button when the number is positive and the scroll-down button
    otherwise, as many rounds of down and up as the absolute value, with the
    toggle delay inside every round and between every two rounds.  For -3
    lines these are three rounds of the scroll-down button. *)
Theorem scroll_rounds (options : ClientOptions) (lines : Z) (w : World) :
  tunnel w = Connected →
  let toggle := toggleDelay options in
  let p := if decide (0 < lines) then js "up" else js "down" in
  scroll options [VNumber (Num lines)] w
  = (Ok VUndefined,
     {| tunnel := Connected;
        mouseState := if decide (lines = 0) then mouseState w
                      else MouseState.set p false (mouseState w);
        display := display w;
        events := events w ++ rounds toggle toggle p (mouseState w) (Z.to_nat (Z.abs lines)) |})
  ∧ let pressed := MouseState.set (js "down") true (mouseState w) in
    let released := MouseState.set (js "down") false (mouseState w) in
    events (scroll options [VNumber (Num (-3))] w).2
    = events w ++
        [ SendMouseState pressed; Delay (Num toggle); SendMouseState released;
          Delay (Num toggle);
          SendMouseState pressed; Delay (Num toggle); SendMouseState released;
          Delay (Num toggle);
          SendMouseState pressed; Delay (Num toggle); SendMouseState released ].
Proof.
  intros Hon toggle p. destruct w as [t s d ev].
  cbn [tunnel] in Hon. subst t.
  assert (∀ lines : Z,
    scroll options [VNumber (Num lines)]
      {| tunnel := Connected; mouseState := s; display := d; events := ev |}
    = (Ok VUndefined,
       {| tunnel := Connected;
          mouseState :=
            if decide (lines = 0) then s
            else MouseState.set (if decide (0 < lines) then js "up" else js "down")
                   false s;
          display := d;
          events := ev ++ rounds toggle toggle
                            (if decide (0 < lines) then js "up" else js "down")
                            s (Z.to_nat (Z.abs lines)) |})) as General.
  { clear lines p. intros lines.
    unfold scroll. rewrite CheckConnectedDecorator_connected by done.
    unfold scroll_method. cbn [arg nth]. unfold mbind, State_bind.
    destruct (decide (0 < lines)) as [Hpos|Hneg].
    - replace (lines >? 0) with true by (symmetry; apply Z.gtb_lt; lia).
      rewrite scroll_loop_run by done.
      rewrite decide_False by lia.
      destruct (Z.to_nat (Z.abs lines)) eqn:E; [lia|]. done.
    - replace (lines >? 0) with false by (symmetry; rewrite Z.gtb_ltb; apply Z.ltb_ge; lia).
      rewrite scroll_loop_run by done.
      destruct (decide (lines = 0)) as [->|Hnz]; [done|].
      destruct (Z.to_nat (Z.abs lines)) eqn:E; [lia|]. done. }
  split; [apply General|].
  intros pressed released. by rewrite General.
Qed.

(** C2. Whatever the method and the arguments, a call made while the
    transport is not Connected throws the Not-Connected error and leaves the
    world as it was: no event is sent and the pointer state is unchanged. *)
Theorem not_connected_fails_without_effect (keymap : Keymap)
    (options : ClientOptions) (cmd : Method.t) (args : list Value) (w : World) :
  isConnected (tunnel w) = false →
  Client_method keymap options cmd args w
  = (Throw (GuacamoleClientError NOT_CONNECTED), w).
Proof.
  intros Hoff.
  destruct cmd; unfold Client_method;
    match goal with
    | |- ?m _ _ = _ => unfold m
    | |- ?m _ _ _ = _ => unfold m
    | |- ?m _ _ _ _ = _ => unfold m
    | |- ?m _ _ _ _ _ = _ => unfold m
    end;
    unfold CheckConnectedDecorator; by rewrite Hoff.
Qed.

End ClientProperties.

(** ** The command parser *)

Lemma array_read_run (h : Heap) (a : loc) (ws : list jstring) :
  array_read a (<[ a := ws ]> h) = (Ok ws, <[ a := ws ]> h).
Proof. unfold array_read. by rewrite lookup_insert_eq. Qed.

Lemma array_length_run (h : Heap) (a : loc) (ws : list jstring) :
  array_length a (<[ a := ws ]> h) = (Ok (Z.of_nat (length ws)), <[ a := ws ]> h).
Proof. unfold array_length, mbind, State_bind. by rewrite array_read_run. Qed.

Lemma array_shift_run (h : Heap) (a : loc) (w : jstring) (ws : list jstring) :
  array_shift a (<[ a := w :: ws ]> h) = (Ok (Some w), <[ a := ws ]> h).
Proof.
  unfold array_shift, mbind, State_bind. rewrite array_read_run.
  by rewrite insert_insert_eq.
Qed.

Lemma array_spread_run (h : Heap) (a : loc) (ws : list jstring) :
  h !! a = Some ws →
  array_spread a h = (Ok (fresh (dom h)), <[ fresh (dom h) := ws ]> h).
Proof.
  intros Hws. unfold array_spread, mbind, State_bind, array_read.
  by rewrite Hws.
Qed.

Lemma lift_run {S A} (r : Result A) (s : S) : lift r s = (r, s).
Proof. done. Qed.

Lemma bind_run {S A B} (m : State S A) (f : A → State S B) (s : S) :
  (m ≫= f) s = match m s with
               | (Ok a, s') => f a s'
               | (Throw e, s') => (Throw e, s')
               end.
Proof. done. Qed.

Section ParserProperties.
Context `{Host}.

(** Every argument parser of the registry returns or throws a command
    error. *)
Lemma Commands_params_result (cmd : jstring) (info : CommandInfo) :
  Commands_get cmd = Some info →
  Forall (λ parse, ∀ w c : jstring, command_result (parse w c)) (params info).
Proof.
  unfold Commands_get. intros Hget.
  destruct (list_find (λ e, e.1 = cmd) Commands) as [[i [k info']]|] eqn:E;
    [|done].
  injection Hget as <-. apply list_find_Some in E as (Hi & _ & _).
  do 13 (destruct i as [|i];
         [injection Hi as <- <-; repeat constructor; intros w c;
          unfold Keystroke_param, String, SignedInt, UnsignedInt, ValidNumber;
          repeat case_match; done|]).
  done.
Qed.

(** The arguments of one command: words are shifted off the array at [a]
    and nothing else in the store changes. *)
Lemma parse_params_run (h : Heap) (a : loc) (cmd : jstring)
    (parsers : list (jstring → jstring → Result Value)) (rest : list jstring) :
  Forall (λ parse, ∀ w c : jstring, command_result (parse w c)) parsers →
  (length parsers ≤ length rest)%nat →
  ∃ r rest',
    array_map (λ parse, w ← array_shift a;
                        match w with
                        | Some w => lift (parse w cmd)
                        | None => throw OutsideModel
                        end) parsers (<[ a := rest ]> h)
    = (r, <[ a := rest' ]> h)
    ∧ command_result r ∧ (length rest' ≤ length rest)%nat.
Proof.
  intros Hok. revert rest. induction Hok as [|parse parsers Hparse _ IH];
    intros rest Hlen.
  - exists (Ok []), rest. done.
  - destruct rest as [|w rest]; [simpl in Hlen; lia|].
    cbn [array_map]. unfold mbind at 1, State_bind at 1.
    unfold mbind at 1, State_bind at 1. rewrite array_shift_run.
    rewrite lift_run. specialize (Hparse w cmd).
    destruct (parse w cmd) as [v|e].
    + destruct (IH rest) as (r & rest' & Erun & Hr & Hlen'); [simpl in Hlen; lia|].
      unfold mbind at 1, State_bind at 1. rewrite Erun.
      destruct r as [vs|e].
      * exists (Ok (v :: vs)), rest'. simpl. split_and!; [done..|lia].
      * exists (Throw e), rest'. simpl. split_and!; [done..|lia].
    + exists (Throw e), rest. simpl. split_and!; [done..|lia].
Qed.

Lemma parseCommands_loop_run (h : Heap) (a : loc) (fuel : nat)
    (rest : list jstring) (cmds : list Command) :
  (length rest < fuel)%nat →
  ∃ r rest',
    parseCommands_loop fuel a cmds (<[ a := rest ]> h) = (r, <[ a := rest' ]> h)
    ∧ command_result r.
Proof.
  revert rest cmds. induction fuel as [|fuel IH]; intros rest cmds Hfuel; [lia|].
  cbn [parseCommands_loop]. unfold mbind at 1, State_bind at 1.
  rewrite array_length_run.
  destruct rest as [|cmd rest].
  { exists (Ok cmds), []. done. }
  replace (Z.of_nat (length (cmd :: rest)) >? 0) with true
    by (symmetry; apply Z.gtb_lt; simpl; lia).
  unfold mbind at 1, State_bind at 1. rewrite array_shift_run.
  destruct (Commands_get cmd) as [info|] eqn:Einfo.
  2:{ by exists (Throw (GuacamoleCommandError UNKNOWN cmd)), rest. }
  unfold mbind at 1, State_bind at 1. rewrite array_length_run.
  destruct (Z.ltb_spec (Z.of_nat (length rest)) (Z.of_nat (length (params info)))).
  { by exists (Throw (GuacamoleCommandError INVALID_ARGUMENT cmd)), rest. }
  destruct (parse_params_run h a cmd (params info) rest)
    as (r & rest' & Erun & Hr & Hlen); [by eapply Commands_params_result|lia|].
  unfold mbind at 1, State_bind at 1. rewrite Erun.
  destruct r as [vs|e]; [|by exists (Throw e), rest'].
  apply IH. simpl in Hfuel. lia.
Qed.

(** C10. [parseCommands] works on an array of its own: after the call the
    caller's array holds the words it held, and so does every other array of
    the store, whether the call returned the commands or threw the
    Unknown-command or the Invalid-argument error (it does one of the two). *)
Theorem parseCommands_leaves_argument_unchanged (h : Heap) (words : loc)
    (ws : list jstring) :
  h !! words = Some ws →
  (parseCommands words h).2 !! words = Some ws
  ∧ h ⊆ (parseCommands words h).2
  ∧ command_result (parseCommands words h).1.
Proof.
  intros Hws. set (a := fresh (dom h)).
  assert (h !! a = None) as Hfresh by apply not_elem_of_dom, is_fresh.
  assert (∃ r rest', parseCommands words h = (r, <[ a := rest' ]> h)
                     ∧ command_result r) as (r & rest' & -> & Hr).
  { unfold parseCommands.
    unfold mbind at 1, State_bind at 1. rewrite (array_spread_run h words ws) by done.
    unfold mbind at 1, State_bind at 1. rewrite array_read_run.
    apply parseCommands_loop_run. lia. }
  cbn [fst snd]. split_and!; [|by apply insert_subseteq|done].
  rewrite lookup_insert_ne; [done|]. intros ->. congruence.
Qed.

End ParserProperties.

(** ** The interpreter *)

Section InterpreterProperties.
Context `{Host}.

Lemma Commands_get_doubleclick :
  Commands_get (js "doubleclick")
  = Some {| desc := "Send a mouse <button> double-click.";
            method := Method.mouseClick; params := [String] |}.
Proof. reflexivity. Qed.

Lemma parseCommands_loop_nil (h : Heap) (a : loc) (fuel : nat) (cmds : list Command) :
  parseCommands_loop (S fuel) a cmds (<[ a := [] ]> h) = (Ok cmds, <[ a := [] ]> h).
Proof.
  cbn [parseCommands_loop]. unfold mbind at 1, State_bind at 1.
  by rewrite array_length_run.
Qed.

Lemma parseCommands_loop_cons (h : Heap) (a : loc) (fuel : nat) (cmd : jstring)
    (rest : list jstring) (cmds : list Command) (info : CommandInfo) :
  Commands_get cmd = Some info →
  (length (params info) ≤ length rest)%nat →
  parseCommands_loop (S fuel) a cmds (<[ a := cmd :: rest ]> h)
  = match array_map (λ parse, w ← array_shift a;
                              match w with
                              | Some w => lift (parse w cmd)
                              | None => throw OutsideModel
                              end) (params info) (<[ a := rest ]> h) with
    | (Ok ps, h') => parseCommands_loop fuel a (cmds ++ [(method info, ps)]) h'
    | (Throw e, h') => (Throw e, h')
    end.
Proof.
  intros Hinfo Hlen. cbn [parseCommands_loop]. unfold mbind at 1, State_bind at 1.
  rewrite array_length_run.
  replace (Z.of_nat (length (cmd :: rest)) >? 0) with true
    by (symmetry; apply Z.gtb_lt; simpl; lia).
  unfold mbind at 1, State_bind at 1. rewrite array_shift_run, Hinfo.
  unfold mbind at 1, State_bind at 1. rewrite array_length_run.
  replace (Z.of_nat (length rest) <? Z.of_nat (length (params info))) with false
    by (symmetry; apply Z.ltb_ge; lia).
  reflexivity.
Qed.

(** C1, on the code.  The words doubleclick and a button name parse to the
    command [mouseClick] with the button as its only argument, so the count
    defaults to 1: for each of the five buttons, interpreting the command
    sends one round of down and up, where [mouseDoubleClick] sends two with
    the double-click delay between them. *)
Theorem doubleclick_command_clicks_once (keymap : Keymap) (h : Heap) (words : loc) :
  (∀ b : jstring,
     (parseCommands words (<[ words := [js "doubleclick"; b] ]> h)).1
     = Ok [(Method.mouseClick, [VString b])])
  ∧ Forall
      (λ b,
         let click := round 12 (button_prop b) MouseState.new in
         events (interpretCommands (Client_method keymap defaultOptions)
                   [(Method.mouseClick, [VString b])] World_connected).2
         = click
         ∧ events (mouseDoubleClick keymap defaultOptions [VString b]
                     World_connected).2
           = click ++ [Delay (Num 100)] ++ click)
      MouseButton.
Proof.
  split.
  - intros b. unfold parseCommands.
    unfold mbind at 1, State_bind at 1.
    rewrite (array_spread_run _ words [js "doubleclick"; b])
      by apply lookup_insert_eq.
    unfold mbind at 1, State_bind at 1. rewrite array_read_run.
    rewrite (parseCommands_loop_cons _ _ _ _ _ _ _ Commands_get_doubleclick)
      by (simpl; lia).
    cbn [params array_map]. rewrite !bind_run, array_shift_run, lift_run.
    cbn [String]. rewrite bind_run. cbn [mret State_ret length app method].
    by rewrite parseCommands_loop_nil.
  - repeat constructor.
    all: unfold interpretCommands, for_of, Client_method; cbn [fst snd].
    all: rewrite ?bind_run, ?mouseClick_default_run.
    all: unfold mouseDoubleClick, mouseDoubleClick_method, World_connected.
    all: rewrite ?CheckConnectedDecorator_connected by done; cbn [arg nth].
    all: by rewrite mouseClick_run.
Qed.

End InterpreterProperties.

(** ** The model on the examples of the specification *)

(** A quoted argument and a trailing comment. *)
Example parseScriptToWords_quoted_and_comment :
  parseScriptToWords
    (js "key Ctrl+c " ++ [Char.quote] ++ js "say hello" ++ [Char.quote]
       ++ js " # trailing")
  = Some ([js "key"; js "Ctrl+c"; js "say hello"], false).
Proof. reflexivity. Qed.

(** A quote that is never closed. *)
Example parseScriptToWords_unclosed :
  parseScriptToWords (js "type " ++ [Char.quote] ++ js "unterminated")
  = Some ([js "type"; js "unterminated"], true).
Proof. reflexivity. Qed.

(** A hash in the middle of a word is a character of the word. *)
Example parseScriptToWords_hash_in_word :
  parseScriptToWords (js "type a#b") = Some ([js "type"; js "a#b"], false).
Proof. reflexivity. Qed.

(** An unknown command, and a command one argument short. *)
Example parseCommands_errors :
  (parseCommands 1%positive {[ 1%positive := [js "frobnicate"] ]}).1
  = Throw (GuacamoleCommandError UNKNOWN (js "frobnicate"))
  ∧ (parseCommands 1%positive Heap_move10).1
    = Throw (GuacamoleCommandError INVALID_ARGUMENT (js "move")).
Proof. split; vm_compute; reflexivity. Qed.

(** Key names are looked up whatever their case. *)
Example translateKey_case_insensitive :
  KeyboardMapper_translateKey Keymaps.US (js "CTRL") = Ok (Num 0xffe3)
  ∧ KeyboardMapper_translateKey Keymaps.US (js "ctrl") = Ok (Num 0xffe3)
  ∧ KeyboardMapper_translateKey Keymaps.US (js "Ctrl") = Ok (Num 0xffe3).
Proof. repeat split; vm_compute; reflexivity. Qed.

(** A shifted character of the US keymap is Shift and its base key. *)
Example translateChar_shifted :
  KeyboardMapper_translateChar Keymaps.US (js "A") = Ok [Some 0xffe1; Some 0x61].
Proof. vm_compute. reflexivity. Qed.

(** A move to a negative coordinate fails and changes nothing. *)
Example mouseMove_negative :
  mouseMove [VNumber (Num (-1)); VNumber (Num 0)] World_connected
  = (Throw AssertionError, World_connected).
Proof. reflexivity. Qed.

(** After [disconnect] every call fails. *)
Example call_after_disconnect :
  (disconnect [] ;; keysDown Keymaps.US [VString (js "a")]) World_connected
  = (Throw (GuacamoleClientError NOT_CONNECTED),
     {| tunnel := Disconnected; mouseState := MouseState.new;
        display := display World_connected; events := [ClientDisconnect] |}).
Proof. reflexivity. Qed.

(** Typing two characters: each is pressed, held for the toggle delay and
    released, with the delay between keys after the first. *)
Example type_two_characters :
  events (type Keymaps.US defaultOptions [VString (js "aB")] World_connected).2
  = [ SendKeyEvent 1 (Num 0x61); Delay (Num 12); SendKeyEvent 0 (Num 0x61);
      Delay (Num 50);
      SendKeyEvent 1 (Num 0xffe1); SendKeyEvent 1 (Num 0x62); Delay (Num 12);
      SendKeyEvent 0 (Num 0x62); SendKeyEvent 0 (Num 0xffe1) ].
Proof. vm_compute. reflexivity. Qed.

(** ** The theorems at concrete inputs *)

(** C2 at a click of Left in a world whose transport went down. *)
Lemma not_connected_fails_without_effect_witness :
  isConnected (tunnel World_disconnected) = false
  ∧ Client_method Keymaps.US defaultOptions Method.mouseClick
      [VString (js "Left")] World_disconnected
    = (Throw (GuacamoleClientError NOT_CONNECTED), World_disconnected).
Proof.
  split; [reflexivity|].
  apply (not_connected_fails_without_effect Keymaps.US defaultOptions).
  reflexivity.
Defined.

(** C5 in the world [World_connected] with the US keymap. *)
Lemma mouseClick_left_twice_witness :
  tunnel World_connected = Connected
  ∧ events (mouseClick Keymaps.US defaultOptions
              [VString (js "Left"); VNumber (Num 2)] World_connected).2
    = [ SendMouseState (MouseState.set (js "left") true MouseState.new);
        Delay (Num 12);
        SendMouseState (MouseState.set (js "left") false MouseState.new);
        Delay (Num 100);
        SendMouseState (MouseState.set (js "left") true MouseState.new);
        Delay (Num 12);
        SendMouseState (MouseState.set (js "left") false MouseState.new) ].
Proof.
  split; [reflexivity|].
  rewrite (mouseClick_left_twice Keymaps.US 50 World_connected); reflexivity.
Defined.

(** C6 at two lines up in the world [World_connected]. *)
Lemma scroll_rounds_witness :
  tunnel World_connected = Connected
  ∧ events (scroll defaultOptions [VNumber (Num 2)] World_connected).2
    = [ SendMouseState (MouseState.set (js "up") true MouseState.new);
        Delay (Num 12);
        SendMouseState (MouseState.set (js "up") false MouseState.new);
        Delay (Num 12);
        SendMouseState (MouseState.set (js "up") true MouseState.new);
        Delay (Num 12);
        SendMouseState (MouseState.set (js "up") false MouseState.new) ].
Proof.
  split; [reflexivity|].
  rewrite (proj1 (scroll_rounds defaultOptions 2 World_connected eq_refl)).
  reflexivity.
Defined.

(** C10 at the words move 10, where the parser throws for want of a second
    argument, in a store that holds this one array. *)
Lemma parseCommands_leaves_argument_unchanged_witness :
  Heap_move10 !! 1%positive = Some [js "move"; js "10"]
  ∧ (parseCommands 1%positive Heap_move10).1
    = Throw (GuacamoleCommandError INVALID_ARGUMENT (js "move"))
  ∧ (parseCommands 1%positive Heap_move10).2 !! 1%positive
    = Some [js "move"; js "10"].
Proof.
  split; [reflexivity|]. split; [vm_compute; reflexivity|].
  apply (parseCommands_leaves_argument_unchanged Heap_move10 1%positive
           [js "move"; js "10"]).
  reflexivity.
Defined.

(** * Further properties *)

(** ** The tokenizer, run by run *)

Lemma lexer_loop_fuel (f1 f2 : nat) (b : bool) (input : jstring) (st : Lexer) :
  (length input < f1)%nat → (length input < f2)%nat →
  lexer_loop f1 b input st = lexer_loop f2 b input st.
Proof.
  revert f2 b input st. induction f1 as [|f1 IH]; intros f2 b input st H1 H2; [lia|].
  destruct f2 as [|f2]; [lia|]. simpl.
  destruct (Regex.exec b input) as [[m rest]|] eqn:E; [|done].
  apply exec_shorter in E. apply IH; lia.
Qed.

Lemma lex_step (b : bool) (input m rest : jstring) (st : Lexer) :
  Regex.exec b input = Some (m, rest) →
  lex b input st = lex false rest (lexer_step st m).
Proof.
  intros E. unfold lex.
  etransitivity; [exact (eq_refl : lexer_loop (S (length input)) b input st
                          = match Regex.exec b input with
                            | Some (m, rest) =>
                                lexer_loop (length input) false rest (lexer_step st m)
                            | None => Some st
                            end)|].
  rewrite E. apply exec_shorter in E. apply lexer_loop_fuel; lia.
Qed.

Lemma lex_nil (b : bool) (st : Lexer) : lex b [] st = Some st.
Proof. by destruct b. Qed.

Lemma span_app (p : Z → bool) (s : jstring) : (span p s).1 ++ (span p s).2 = s.
Proof.
  induction s as [|c r IH]; [done|]. simpl.
  destruct (p c); [|done]. destruct (span p r) as [a b]. simpl in *. by rewrite IH.
Qed.

Lemma span_Forall (p : Z → bool) (s : jstring) :
  Forall (λ c, p c = true) (span p s).1.
Proof.
  induction s as [|c r IH]; [constructor|]. simpl.
  destruct (p c) eqn:E; [|constructor]. destruct (span p r) as [a b].
  by constructor.
Qed.

Lemma span_rest (p : Z → bool) (s : jstring) :
  match (span p s).2 with
  | c :: _ => p c = false
  | [] => True
  end.
Proof.
  induction s as [|c r IH]; [done|]. simpl.
  destruct (p c) eqn:E; [|done]. by destruct (span p r) as [a b].
Qed.

(** A run that stops: the longest prefix of [a ++ rest] is [a]. *)
Lemma span_stop (p : Z → bool) (a rest : jstring) :
  Forall (λ c, p c = true) a →
  match rest with c :: _ => p c = false | [] => True end →
  span p (a ++ rest) = (a, rest).
Proof.
  intros Ha Hrest. induction Ha as [|c a Hc _ IH]; simpl.
  - destruct rest as [|c rest]; [done|]. simpl. by rewrite Hrest.
  - by rewrite Hc, IH.
Qed.

Lemma is_space_not_word (c : Z) : is_space c = true → Regex.word_unit c = false.
Proof. unfold Regex.word_unit. intros ->. by rewrite !orb_true_r. Qed.

Lemma is_space_not_hash (c : Z) : is_space c = true → (c =? Char.hash) = false.
Proof.
  intros Hs. destruct (Z.eqb_spec c Char.hash) as [->|]; [|done]. done.
Qed.

(** What the expression matches at a run of word units, at a run of white
    space that no hash follows, at a double quote and at a backslash. *)
Lemma exec_word (b : bool) (c : Z) (r : jstring) :
  Regex.word_unit c = true → b && (c =? Char.hash) = false →
  Regex.exec b (c :: r) = Some (span Regex.word_unit (c :: r)).
Proof.
  intros Hw Hb. cbn [Regex.exec]. unfold Regex.match_here, Regex.comment_line.
  rewrite Hb. cbn [Regex.orelse]. unfold Regex.word. cbn [span]. rewrite Hw.
  by destruct (span Regex.word_unit r).
Qed.

Lemma exec_blank (b : bool) (c : Z) (r : jstring) :
  is_space c = true →
  match (span is_space (c :: r)).2 with
  | h :: _ => (h =? Char.hash) = false
  | [] => True
  end →
  Regex.exec b (c :: r) = Some (span is_space (c :: r)).
Proof.
  intros Hs Hnext. cbn [Regex.exec]. unfold Regex.match_here, Regex.comment_line.
  rewrite (is_space_not_hash c Hs), andb_false_r. cbn [Regex.orelse].
  unfold Regex.word. cbn [span]. rewrite (is_space_not_word c Hs).
  cbn [Regex.orelse]. unfold Regex.blank. revert Hnext. cbn [span]. rewrite Hs.
  destruct (span is_space r) as [a rest]. cbn [snd].
  destruct rest as [|h rest]; [done|]. by intros ->.
Qed.

Lemma exec_quote (b : bool) (r : jstring) :
  Regex.exec b (Char.quote :: r) = Some ([Char.quote], r).
Proof. by destruct b. Qed.

Lemma exec_escape (b : bool) (d : Z) (r : jstring) :
  Regex.exec b (Char.backslash :: d :: r) = Some ([Char.backslash; d], r).
Proof. by destruct b. Qed.

Lemma append_last_snoc (ws : list jstring) (cur text : jstring) :
  append_last (ws ++ [cur]) text = ws ++ [cur ++ text].
Proof.
  unfold append_last. rewrite last_snoc, length_app. simpl.
  replace (length ws + 1 - 1)%nat with (length ws + 0)%nat by lia.
  by rewrite insert_app_r.
Qed.

Lemma is_space_not_backslash (c : Z) :
  is_space c = true → (c =? Char.backslash) = false.
Proof. intros Hs. by destruct (Z.eqb_spec c Char.backslash) as [->|]. Qed.

Lemma is_space_not_quote (c : Z) : is_space c = true → c ≠ Char.quote.
Proof. by intros Hs ->. Qed.

Lemma word_unit_inv (c : Z) :
  Regex.word_unit c = true →
  (c =? Char.backslash) = false ∧ (c =? Char.quote) = false ∧ is_space c = false.
Proof.
  unfold Regex.word_unit. rewrite negb_true_iff, !orb_false_iff. tauto.
Qed.

(** The step of the loop on a match that is neither an escape nor a double
    quote: inside quotes the match is added to the word as it is. *)
Lemma lexer_step_quoted (ws : list jstring) (cur : jstring) (c : Z) (m : jstring) :
  (c =? Char.backslash) = false → c ≠ Char.quote →
  lexer_step {| words := ws ++ [cur]; quoted := true |} (c :: m)
  = {| words := ws ++ [cur ++ c :: m]; quoted := true |}.
Proof.
  intros Hb Hq. unfold lexer_step. rewrite Hb.
  rewrite decide_False by congruence. cbn [quoted words].
  by rewrite append_last_snoc.
Qed.

(** Outside quotes a run of white space starts a new word, and a run of word
    units that begins with no hash is added to the word. *)
Lemma lexer_step_blank (ws : list jstring) (c : Z) (m : jstring) :
  Forall (λ c, is_space c = true) (c :: m) →
  lexer_step {| words := ws; quoted := false |} (c :: m)
  = {| words := ws ++ [[]]; quoted := false |}.
Proof.
  intros Hall. pose proof (Forall_inv Hall) as Hc. unfold lexer_step.
  rewrite (is_space_not_backslash c Hc).
  rewrite decide_False by (intros [= -> _]; done). cbn [quoted words].
  unfold trimStart.
  replace (c :: m) with ((c :: m) ++ []) at 1 by apply app_nil_r.
  by rewrite span_stop.
Qed.

Lemma lexer_step_word (ws : list jstring) (cur : jstring) (c : Z) (m : jstring) :
  Regex.word_unit c = true → (c =? Char.hash) = false →
  lexer_step {| words := ws ++ [cur]; quoted := false |} (c :: m)
  = {| words := ws ++ [cur ++ c :: m]; quoted := false |}.
Proof.
  intros Hw Hh. apply word_unit_inv in Hw as (Hb & Hq & Hs). unfold lexer_step.
  rewrite Hb. rewrite decide_False by (intros [= -> _]; done). cbn [quoted words].
  unfold trimStart. cbn [span]. rewrite Hs. cbn [snd]. rewrite Hh.
  by rewrite append_last_snoc.
Qed.

Lemma fields_true_false (s : jstring) :
  match s with c :: _ => is_space c = false | [] => True end →
  fields true s = fields false s.
Proof. destruct s as [|c r]; [done|]. simpl. by intros ->. Qed.

Lemma fields_blank_run (a rest : jstring) :
  Forall (λ c, is_space c = true) a →
  match rest with c :: _ => is_space c = false | [] => True end →
  fields true (a ++ rest) = fields false rest.
Proof.
  intros Ha Hrest. induction Ha as [|c a Hc _ IH]; simpl.
  - by apply fields_true_false.
  - by rewrite Hc.
Qed.

Lemma fields_nonempty (b : bool) (s : jstring) : fields b s ≠ [].
Proof.
  revert b. induction s as [|c r IH]; intros b; [done|]. simpl.
  destruct (is_space c); [destruct b; [apply IH|done]|].
  by destruct (fields false r).
Qed.

Lemma fields_word_run (a rest : jstring) :
  Forall (λ c, is_space c = false) a →
  fields false (a ++ rest) = prepend a (fields false rest).
Proof.
  intros Ha. pose proof (fields_nonempty false rest) as Hne.
  induction Ha as [|c a Hc _ IH]; simpl.
  - by destruct (fields false rest).
  - rewrite Hc, IH. by destruct (fields false rest).
Qed.

Lemma plain_word_unit (c : Z) :
  plain c = true → is_space c = false → Regex.word_unit c = true.
Proof.
  unfold plain, Regex.word_unit. rewrite !negb_true_iff, !orb_false_iff.
  intros [[-> ->] _] ->. done.
Qed.

Lemma plain_not_hash (c : Z) : plain c = true → (c =? Char.hash) = false.
Proof. unfold plain. rewrite negb_true_iff, !orb_false_iff. tauto. Qed.

Lemma lex_plain (n : nat) (s : jstring) :
  (length s ≤ n)%nat → Forall (λ c, plain c = true) s →
  ∀ (b : bool) (ws : list jstring) (cur : jstring),
    lex b s {| words := ws ++ [cur]; quoted := false |}
    = Some {| words := ws ++ prepend cur (fields false s); quoted := false |}.
Proof.
  revert s. induction n as [|n IH]; intros s Hlen Hplain b ws cur.
  { destruct s; [|simpl in Hlen; lia]. rewrite lex_nil. simpl. by rewrite app_nil_r. }
  destruct s as [|c r]; [rewrite lex_nil; simpl; by rewrite app_nil_r|].
  pose proof (Forall_inv Hplain) as Hc.
  destruct (is_space c) eqn:Hs.
  - pose proof (span_app is_space (c :: r)) as Happ.
    pose proof (span_Forall is_space (c :: r)) as Hall.
    pose proof (span_rest is_space (c :: r)) as Hrest.
    pose proof (span_nonempty is_space (c :: r)) as Hshort.
    assert (Regex.exec b (c :: r) = Some (span is_space (c :: r))) as E.
    { apply exec_blank; [done|].
      rewrite <- Happ in Hplain. apply Forall_app in Hplain as [_ Hp].
      destruct ((span is_space (c :: r)).2) as [|h t]; [done|].
      apply plain_not_hash, (Forall_inv Hp). }
    destruct (span is_space (c :: r)) as [a rest] eqn:Espan. cbn [fst snd] in *.
    assert (a ≠ []) as Ha by (cbn [span] in Espan; rewrite Hs in Espan;
      destruct (span is_space r); by injection Espan as <- <-).
    rewrite (lex_step _ _ _ _ _ E).
    destruct a as [|c' a]; [done|].
    rewrite lexer_step_blank by done.
    rewrite IH.
    + rewrite <- Happ.
      assert (fields false ((c' :: a) ++ rest) = [] :: fields false rest) as ->.
      { cbn [app fields]. rewrite (Forall_inv Hall).
        f_equal. apply fields_blank_run; [by apply Forall_inv_tail in Hall|done]. }
      pose proof (fields_nonempty false rest).
      destruct (fields false rest); [done|]. simpl.
      by rewrite <- app_assoc, app_nil_r.
    + specialize (Hshort Ha). simpl in *. lia.
    + rewrite <- Happ in Hplain. by apply Forall_app in Hplain as [_ Hp].
  - pose proof (plain_word_unit c Hc Hs) as Hw.
    pose proof (span_app Regex.word_unit (c :: r)) as Happ.
    pose proof (span_Forall Regex.word_unit (c :: r)) as Hall.
    pose proof (span_nonempty Regex.word_unit (c :: r)) as Hshort.
    assert (Regex.exec b (c :: r) = Some (span Regex.word_unit (c :: r))) as E.
    { apply exec_word; [done|]. by rewrite (plain_not_hash c Hc), andb_false_r. }
    destruct (span Regex.word_unit (c :: r)) as [a rest] eqn:Espan.
    cbn [fst snd] in *.
    assert (∃ a', a = c :: a') as [a' ->].
    { cbn [span] in Espan. rewrite Hw in Espan.
      destruct (span Regex.word_unit r). injection Espan as <- <-. by eexists. }
    rewrite (lex_step _ _ _ _ _ E).
    rewrite lexer_step_word by (done || by apply plain_not_hash).
    rewrite IH.
    + rewrite <- Happ. rewrite fields_word_run.
      * destruct (fields false rest); simpl; by rewrite <- ?app_assoc.
      * eapply Forall_impl; [exact Hall|]. intros x Hx.
        by apply word_unit_inv in Hx as (_ & _ & ?).
    + assert (c :: a' ≠ []) as Hne by done. specialize (Hshort Hne).
      simpl in *. lia.
    + rewrite <- Happ in Hplain. by apply Forall_app in Hplain as [_ Hp].
Qed.

(** The words of a text with no double quote, backslash or hash. *)
Lemma parseScriptToWords_fields (s : jstring) :
  Forall (λ c, plain c = true) s →
  parseScriptToWords s = Some (fields false s, false).
Proof.
  intros Hplain. unfold parseScriptToWords.
  change (lexer_loop (S (length s)) true s {| words := [[]]; quoted := false |})
    with (lex true s {| words := [] ++ [[]]; quoted := false |}).
  rewrite (lex_plain (length s) s (le_n _) Hplain true [] []).
  pose proof (fields_nonempty false s).
  simpl. by destruct (fields false s).
Qed.

(** X1. A text with no double quote, backslash or hash is split at its runs
    of white space, as [text.split(/\s+/)] would split it: the words are the
    fields between the runs (a text that starts or ends with white space has
    an empty first or last word) and no quote is left open. *)
Theorem parseScriptToWords_plain (s : jstring) :
  Forall (λ c, plain c = true) s →
  parseScriptToWords s = Some (fields false s, false).
Proof.
  intros Hplain. unfold parseScriptToWords.
  change (lexer_loop (S (length s)) true s {| words := [[]]; quoted := false |})
    with (lex true s {| words := [] ++ [[]]; quoted := false |}).
  rewrite (lex_plain (length s) s (le_n _) Hplain true [] []).
  pose proof (fields_nonempty false s).
  simpl. by destruct (fields false s).
Qed.

(** X1 at the words key and Ctrl+c with two spaces between them. *)
Lemma parseScriptToWords_plain_witness :
  parseScriptToWords (js "key  Ctrl+c") = Some ([js "key"; js "Ctrl+c"], false).
Proof.
  apply (parseScriptToWords_plain (js "key  Ctrl+c")).
  apply (bool_decide_unpack _). vm_compute. exact I.
Defined.

Lemma span_app_stop (p : Z → bool) (s rest : jstring) :
  match rest with c :: _ => p c = false | [] => True end →
  span p (s ++ rest) = ((span p s).1, (span p s).2 ++ rest).
Proof.
  intros Hrest. induction s as [|c r IH]; simpl.
  - destruct rest as [|c rest]; [done|]. simpl. by rewrite Hrest.
  - destruct (p c); [|done]. rewrite IH. by destruct (span p r).
Qed.

(** A plain text before a double quote: the loop reaches the quote with the
    fields of the text as its words. *)
Lemma lex_plain_then (n : nat) (s rest : jstring) :
  (length s ≤ n)%nat → Forall (λ c, plain c = true) s →
  ∀ (b : bool) (ws : list jstring) (cur : jstring),
    ∃ b', lex b (s ++ Char.quote :: rest) {| words := ws ++ [cur]; quoted := false |}
          = lex b' (Char.quote :: rest)
              {| words := ws ++ prepend cur (fields false s); quoted := false |}.
Proof.
  revert s. induction n as [|n IH]; intros s Hlen Hplain b ws cur.
  { destruct s; [|simpl in Hlen; lia]. exists b. simpl. by rewrite app_nil_r. }
  destruct s as [|c r]; [exists b; simpl; by rewrite app_nil_r|].
  pose proof (Forall_inv Hplain) as Hc.
  destruct (is_space c) eqn:Hs.
  - pose proof (span_app is_space (c :: r)) as Happ.
    pose proof (span_Forall is_space (c :: r)) as Hall.
    pose proof (span_rest is_space (c :: r)) as Hrest.
    pose proof (span_nonempty is_space (c :: r)) as Hshort.
    pose proof (span_app_stop is_space (c :: r) (Char.quote :: rest) eq_refl) as Hstop.
    destruct (span is_space (c :: r)) as [a t] eqn:Espan. cbn [fst snd] in *.
    assert (Regex.exec b ((c :: r) ++ Char.quote :: rest)
            = Some (a, t ++ Char.quote :: rest)) as E.
    { rewrite <- Hstop. apply (exec_blank b c (r ++ Char.quote :: rest)); [done|].
      change (c :: r ++ Char.quote :: rest) with ((c :: r) ++ Char.quote :: rest).
      rewrite Hstop. cbn [snd].
      rewrite <- Happ in Hplain. apply Forall_app in Hplain as [_ Hp].
      destruct t as [|h t]; [done|]. apply plain_not_hash, (Forall_inv Hp). }
    assert (a ≠ []) as Ha by (cbn [span] in Espan; rewrite Hs in Espan;
      destruct (span is_space r); by injection Espan as <- <-).
    rewrite (lex_step _ _ _ _ _ E).
    destruct a as [|c' a]; [done|].
    rewrite lexer_step_blank by done.
    destruct (IH t) with (b := false) (ws := ws ++ [cur]) (cur := @nil Z)
      as [b' ->].
    + specialize (Hshort Ha). simpl in *. lia.
    + rewrite <- Happ in Hplain. by apply Forall_app in Hplain as [_ Hp].
    + exists b'. rewrite <- Happ.
      assert (fields false ((c' :: a) ++ t) = [] :: fields false t) as ->.
      { cbn [app fields]. rewrite (Forall_inv Hall).
        f_equal. apply fields_blank_run; [by apply Forall_inv_tail in Hall|done]. }
      pose proof (fields_nonempty false t).
      destruct (fields false t); [done|]. simpl.
      by rewrite <- app_assoc, app_nil_r.
  - pose proof (plain_word_unit c Hc Hs) as Hw.
    pose proof (span_app Regex.word_unit (c :: r)) as Happ.
    pose proof (span_Forall Regex.word_unit (c :: r)) as Hall.
    pose proof (span_nonempty Regex.word_unit (c :: r)) as Hshort.
    pose proof (span_app_stop Regex.word_unit (c :: r) (Char.quote :: rest) eq_refl)
      as Hstop.
    destruct (span Regex.word_unit (c :: r)) as [a t] eqn:Espan.
    cbn [fst snd] in *.
    assert (Regex.exec b ((c :: r) ++ Char.quote :: rest)
            = Some (a, t ++ Char.quote :: rest)) as E.
    { rewrite <- Hstop. apply (exec_word b c (r ++ Char.quote :: rest)); [done|].
      by rewrite (plain_not_hash c Hc), andb_false_r. }
    assert (∃ a', a = c :: a') as [a' ->].
    { cbn [span] in Espan. rewrite Hw in Espan.
      destruct (span Regex.word_unit r). injection Espan as <- <-. by eexists. }
    rewrite (lex_step _ _ _ _ _ E).
    rewrite lexer_step_word by (done || by apply plain_not_hash).
    destruct (IH t) with (b := false) (ws := ws) (cur := cur ++ c :: a')
      as [b' ->].
    + assert (c :: a' ≠ []) as Hne by done. specialize (Hshort Hne).
      simpl in *. lia.
    + rewrite <- Happ in Hplain. by apply Forall_app in Hplain as [_ Hp].
    + exists b'. rewrite <- Happ. rewrite fields_word_run.
      * pose proof (fields_nonempty false t).
        destruct (fields false t); simpl; by rewrite <- ?app_assoc.
      * eapply Forall_impl; [exact Hall|]. intros x Hx.
        by apply word_unit_inv in Hx as (_ & _ & ?).
Qed.

Lemma escape_unit_word (a : jstring) :
  Forall (λ c, (c =? Char.quote) = false ∧ (c =? Char.backslash) = false) a →
  a ≫= escape_unit = a.
Proof.
  induction 1 as [|c a [Hq Hb] _ IH]; [done|].
  cbn. unfold escape_unit at 1. rewrite Hq, Hb. simpl. by f_equal.
Qed.

Lemma no_hash_after_space_app (a rest : jstring) :
  no_hash_after_space (a ++ rest) = true → no_hash_after_space rest = true.
Proof.
  induction a as [|c a IH]; [done|]. simpl.
  intros [_ Hrest]%andb_true_iff. by apply IH.
Qed.

Lemma no_hash_after_blank_run (a : jstring) (c : Z) (rest : jstring) :
  a ≠ [] → Forall (λ c, is_space c = true) a →
  no_hash_after_space (a ++ c :: rest) = true → (c =? Char.hash) = false.
Proof.
  intros Ha Hall. induction Hall as [|c' a Hc' Hall IH]; [done|].
  destruct a as [|c'' a].
  - simpl. rewrite Hc'. simpl. by intros [->%negb_true_iff _]%andb_true_iff.
  - intros [_ Hrest]%andb_true_iff. by apply IH.
Qed.

(** The head of an escaped text that starts with no word unit is no word
    unit, and of one that starts with no white space is no white space. *)
Lemma escape_head_not_word (c : Z) (rest tail : jstring) :
  Regex.word_unit c = false →
  match ((c :: rest) ≫= escape_unit) ++ tail with
  | h :: _ => Regex.word_unit h = false
  | [] => True
  end.
Proof.
  intros Hc. cbn. unfold escape_unit at 1.
  destruct ((c =? Char.quote) || (c =? Char.backslash)); simpl; done.
Qed.

Lemma escape_head_not_space (c : Z) (rest tail : jstring) :
  is_space c = false →
  match ((c :: rest) ≫= escape_unit) ++ tail with
  | h :: _ => is_space h = false
  | [] => True
  end.
Proof.
  intros Hc. cbn. unfold escape_unit at 1.
  destruct ((c =? Char.quote) || (c =? Char.backslash)); simpl; done.
Qed.

Lemma escape_head_not_hash (c : Z) (rest tail : jstring) :
  (c =? Char.hash) = false →
  match ((c :: rest) ≫= escape_unit) ++ tail with
  | h :: _ => (h =? Char.hash) = false
  | [] => True
  end.
Proof.
  intros Hc. cbn. unfold escape_unit at 1.
  destruct ((c =? Char.quote) || (c =? Char.backslash)); simpl; done.
Qed.

(** Inside quotes: the escaped word and the closing quote add the word to
    the current word and close the quote. *)
Lemma lex_quoted_body (n : nat) (w : jstring) :
  (length w ≤ n)%nat → no_hash_after_space w = true →
  ∀ (ws : list jstring) (cur : jstring),
    lex false ((w ≫= escape_unit) ++ [Char.quote])
      {| words := ws ++ [cur]; quoted := true |}
    = Some {| words := ws ++ [cur ++ w]; quoted := false |}.
Proof.
  revert w. induction n as [|n IH]; intros w Hlen Hw ws cur.
  { destruct w; [|simpl in Hlen; lia]. by rewrite app_nil_r. }
  destruct w as [|c r]; [by rewrite app_nil_r|].
  destruct ((c =? Char.quote) || (c =? Char.backslash)) eqn:Hesc.
  - (* an escaped unit *)
    cbn [mbind list_bind app]. unfold escape_unit at 1. rewrite Hesc.
    cbn [app]. rewrite (lex_step _ _ _ _ _ (exec_escape false c _)).
    unfold lexer_step. change (Char.backslash =? Char.backslash) with true.
    cbn [take words quoted]. rewrite append_last_snoc.
    rewrite IH; [|simpl in Hlen; lia|by apply (no_hash_after_space_app [c])].
    by rewrite <- app_assoc.
  - apply orb_false_iff in Hesc as [Hq Hb].
    destruct (is_space c) eqn:Hs.
    + (* a run of white space *)
      pose proof (span_app is_space (c :: r)) as Happ.
      pose proof (span_Forall is_space (c :: r)) as Hall.
      pose proof (span_rest is_space (c :: r)) as Hrest.
      pose proof (span_nonempty is_space (c :: r)) as Hshort.
      destruct (span is_space (c :: r)) as [a t] eqn:Espan. cbn [fst snd] in *.
      assert (∃ a', a = c :: a') as [a' ->].
      { cbn [span] in Espan. rewrite Hs in Espan.
        destruct (span is_space r). injection Espan as <- <-. by eexists. }
      assert ((c :: r) ≫= escape_unit = (c :: a') ++ (t ≫= escape_unit)) as Hbind.
      { rewrite <- Happ, bind_app. f_equal. apply escape_unit_word.
        eapply Forall_impl; [exact Hall|]. intros x Hx. split.
        - by destruct (Z.eqb_spec x Char.quote) as [->|].
        - by apply is_space_not_backslash. }
      rewrite Hbind, <- app_assoc. cbn [app].
      assert (span is_space (c :: a' ++ (t ≫= escape_unit) ++ [Char.quote])
              = (c :: a', (t ≫= escape_unit) ++ [Char.quote])) as Hspan.
      { apply (span_stop is_space (c :: a')); [done|]. destruct t as [|c' t]; [done|].
        by apply escape_head_not_space. }
      assert (Regex.exec false (c :: a' ++ (t ≫= escape_unit) ++ [Char.quote])
              = Some (c :: a', (t ≫= escape_unit) ++ [Char.quote])) as E.
      { rewrite <- Hspan. apply (exec_blank false c); [done|].
        rewrite Hspan. cbn [snd].
        destruct t as [|c' t]; [done|]. apply escape_head_not_hash.
        rewrite <- Happ in Hw. by apply no_hash_after_blank_run in Hw. }
      rewrite (lex_step _ _ _ _ _ E).
      rewrite lexer_step_quoted by
        (by apply is_space_not_backslash || by apply is_space_not_quote).
      rewrite IH.
      * by rewrite <- Happ, <- app_assoc.
      * assert (c :: a' ≠ []) as Hne by done. specialize (Hshort Hne).
        simpl in *. lia.
      * rewrite <- Happ in Hw. by apply no_hash_after_space_app in Hw.
    + (* a run of word units *)
      assert (Regex.word_unit c = true) as Hwu
        by (unfold Regex.word_unit; by rewrite Hb, Hq, Hs).
      pose proof (span_app Regex.word_unit (c :: r)) as Happ.
      pose proof (span_Forall Regex.word_unit (c :: r)) as Hall.
      pose proof (span_rest Regex.word_unit (c :: r)) as Hrest.
      pose proof (span_nonempty Regex.word_unit (c :: r)) as Hshort.
      destruct (span Regex.word_unit (c :: r)) as [a t] eqn:Espan.
      cbn [fst snd] in *.
      assert (∃ a', a = c :: a') as [a' ->].
      { cbn [span] in Espan. rewrite Hwu in Espan.
        destruct (span Regex.word_unit r). injection Espan as <- <-. by eexists. }
      assert ((c :: r) ≫= escape_unit = (c :: a') ++ (t ≫= escape_unit)) as Hbind.
      { rewrite <- Happ, bind_app. f_equal. apply escape_unit_word.
        eapply Forall_impl; [exact Hall|]. intros x Hx.
        apply word_unit_inv in Hx. tauto. }
      rewrite Hbind, <- app_assoc. cbn [app].
      assert (span Regex.word_unit (c :: a' ++ (t ≫= escape_unit) ++ [Char.quote])
              = (c :: a', (t ≫= escape_unit) ++ [Char.quote])) as Hspan.
      { apply (span_stop Regex.word_unit (c :: a')); [done|]. destruct t as [|c' t]; [done|].
        by apply escape_head_not_word. }
      assert (Regex.exec false (c :: a' ++ (t ≫= escape_unit) ++ [Char.quote])
              = Some (c :: a', (t ≫= escape_unit) ++ [Char.quote])) as E.
      { rewrite <- Hspan. by apply (exec_word false c). }
      rewrite (lex_step _ _ _ _ _ E).
      rewrite lexer_step_quoted by (done || by intros ->).
      rewrite IH.
      * by rewrite <- Happ, <- app_assoc.
      * assert (c :: a' ≠ []) as Hne by done. specialize (Hshort Hne).
        simpl in *. lia.
      * rewrite <- Happ in Hw. by apply no_hash_after_space_app in Hw.
Qed.

(** X2. Any word in which no hash stands right after white space can be
    given as one argument: written between double quotes, with a backslash
    before each of its double quotes and backslashes, after a text with no
    quote, backslash or hash, it is added whole to the last field of that
    text, white space and newlines included, and the quote is closed. *)
Theorem parseScriptToWords_quoted_word (p w : jstring) :
  Forall (λ c, plain c = true) p →
  no_hash_after_space w = true →
  parseScriptToWords (p ++ quote_word w)
  = Some (append_last (fields false p) w, false).
Proof.
  intros Hp Hw. unfold parseScriptToWords, quote_word.
  change (lexer_loop (S (length ?s)) true ?s ?st) with (lex true s st).
  destruct (lex_plain_then (length p) p ((w ≫= escape_unit) ++ [Char.quote])
              (le_n _) Hp true [] []) as [b' E].
  cbn [app] in E |- *. rewrite E.
  rewrite (lex_step _ _ _ _ _ (exec_quote b' _)).
  pose proof (fields_nonempty false p) as Hne.
  destruct (fields false p) as [|f fs] eqn:Ef; [done|].
  destruct (exists_last (l := f :: fs)) as (ws & cur & Hlast); [done|].
  cbn [prepend app]. rewrite Hlast.
  unfold lexer_step. change (Char.quote =? Char.backslash) with false.
  rewrite decide_True by done. cbn [words quoted negb].
  rewrite (lex_quoted_body (length w) w (le_n _) Hw). simpl.
  by rewrite append_last_snoc.
Qed.

(** X2 at the word [say "hi" # now] after the text [type ]. *)
Lemma parseScriptToWords_quoted_word_witness :
  parseScriptToWords
    (js "type " ++ quote_word (js "say " ++ [Char.quote] ++ js "hi" ++ [Char.quote]))
  = Some ([js "type"; js "say " ++ [Char.quote] ++ js "hi" ++ [Char.quote]], false).
Proof.
  apply (parseScriptToWords_quoted_word (js "type ")
           (js "say " ++ [Char.quote] ++ js "hi" ++ [Char.quote])).
  - apply (bool_decide_unpack _). vm_compute. exact I.
  - reflexivity.
Defined.

(** A quoted hash after white space takes the rest of the line with it,
    the closing quote included: the word ends with the quote and the quote
    stays open. *)
Example parseScriptToWords_quoted_hash_after_space :
  parseScriptToWords (quote_word (js "a #b"))
  = Some ([js "a #b" ++ [Char.quote]], true).
Proof. reflexivity. Qed.

Lemma lexer_step_quoted_flag (st : Lexer) (m : jstring) :
  m ≠ [Char.quote] → quoted (lexer_step st m) = quoted st.
Proof.
  intros Hm. unfold lexer_step. destruct m as [|c m]; [done|].
  destruct (c =? Char.backslash); [done|].
  rewrite decide_False by done.
  destruct (quoted st) eqn:Hq; [done|].
  destruct (trimStart (c :: m)) as [|h t]; [done|].
  by destruct (h =? Char.hash).
Qed.

Lemma quotes_app (a t : jstring) : quotes (a ++ t) = (quotes a + quotes t)%nat.
Proof. unfold quotes. by rewrite filter_app, length_app. Qed.

Lemma quotes_none (a : jstring) :
  Forall (λ c, c ≠ Char.quote) a → quotes a = 0%nat.
Proof.
  unfold quotes. induction 1 as [|c a Hc _ IH]; [done|].
  by rewrite filter_cons, decide_False.
Qed.

Lemma lex_quoted_parity (n : nat) (s : jstring) :
  (length s ≤ n)%nat →
  Forall (λ c, c ≠ Char.backslash ∧ c ≠ Char.hash) s →
  ∀ (b : bool) (st : Lexer),
    ∃ st', lex b s st = Some st'
           ∧ quoted st' = xorb (quoted st) (Nat.odd (quotes s)).
Proof.
  revert s. induction n as [|n IH]; intros s Hlen Hs b st.
  { destruct s; [|simpl in Hlen; lia]. exists st. rewrite lex_nil.
    by rewrite xorb_false_r. }
  destruct s as [|c r].
  { exists st. rewrite lex_nil. by rewrite xorb_false_r. }
  pose proof (Forall_inv Hs) as [Hcb Hch].
  destruct (decide (c = Char.quote)) as [->|Hcq].
  - rewrite (lex_step _ _ _ _ _ (exec_quote b r)).
    destruct (IH r) with (b := false) (st := lexer_step st [Char.quote])
      as (st' & -> & Hq); [simpl in Hlen; lia|by apply Forall_inv_tail in Hs|].
    exists st'. split; [done|]. rewrite Hq.
    change (quoted (lexer_step st [Char.quote])) with (negb (quoted st)).
    change (quotes (Char.quote :: r)) with (S (quotes r)).
    rewrite Nat.odd_succ, <- Nat.negb_odd.
    by destruct (quoted st), (Nat.odd (quotes r)).
  - assert (∃ a t, Regex.exec b (c :: r) = Some (a, t) ∧ a ++ t = c :: r
                   ∧ a ≠ [Char.quote] ∧ Forall (λ c, c ≠ Char.quote) a
                   ∧ (length t < length (c :: r))%nat) as (a & t & E & Happ & Ha & Hnq & Hshort).
    { destruct (is_space c) eqn:Hsp.
      - pose proof (span_app is_space (c :: r)) as Happ.
        pose proof (span_Forall is_space (c :: r)) as Hall.
        pose proof (span_nonempty is_space (c :: r)) as Hshort.
        assert (Regex.exec b (c :: r) = Some (span is_space (c :: r))) as E.
        { apply exec_blank; [done|].
          rewrite <- Happ in Hs. apply Forall_app in Hs as [_ Hp].
          destruct ((span is_space (c :: r)).2) as [|h t]; [done|].
          apply Forall_inv in Hp as [_ Hh]. by apply Z.eqb_neq. }
        destruct (span is_space (c :: r)) as [a t] eqn:Espan. cbn [fst snd] in *.
        assert (∃ a', a = c :: a') as [a' ->].
        { cbn [span] in Espan. rewrite Hsp in Espan.
          destruct (span is_space r). injection Espan as <- <-. by eexists. }
        exists (c :: a'), t. split_and!; [done|done|congruence| |by apply Hshort].
        eapply Forall_impl; [exact Hall|]. intros x Hx. by apply is_space_not_quote.
      - assert (Regex.word_unit c = true) as Hwu.
        { unfold Regex.word_unit. rewrite Hsp.
          by rewrite (proj2 (Z.eqb_neq _ _) Hcb), (proj2 (Z.eqb_neq _ _) Hcq). }
        pose proof (span_app Regex.word_unit (c :: r)) as Happ.
        pose proof (span_Forall Regex.word_unit (c :: r)) as Hall.
        pose proof (span_nonempty Regex.word_unit (c :: r)) as Hshort.
        assert (Regex.exec b (c :: r) = Some (span Regex.word_unit (c :: r))) as E.
        { apply exec_word; [done|].
          by rewrite (proj2 (Z.eqb_neq _ _) Hch), andb_false_r. }
        destruct (span Regex.word_unit (c :: r)) as [a t] eqn:Espan.
        cbn [fst snd] in *.
        assert (∃ a', a = c :: a') as [a' ->].
        { cbn [span] in Espan. rewrite Hwu in Espan.
          destruct (span Regex.word_unit r). injection Espan as <- <-. by eexists. }
        exists (c :: a'), t. split_and!; [done|done|congruence| |by apply Hshort].
        eapply Forall_impl; [exact Hall|]. intros x Hx.
        apply word_unit_inv in Hx as (_ & Hx & _). by apply Z.eqb_neq. }
    rewrite (lex_step _ _ _ _ _ E).
    destruct (IH t) with (b := false) (st := lexer_step st a)
      as (st' & -> & Hq).
    { simpl in *. lia. }
    { rewrite <- Happ in Hs. by apply Forall_app in Hs as [_ Hp]. }
    exists st'. split; [done|].
    rewrite Hq, lexer_step_quoted_flag by done.
    by rewrite <- Happ, quotes_app, (quotes_none a).
Qed.

(** X3. For a text with no backslash and no hash the tokenizer reports an
    unclosed quote exactly when the text has an odd number of double
    quotes. *)
Theorem parseScriptToWords_unclosed_parity (s : jstring) :
  Forall (λ c, c ≠ Char.backslash ∧ c ≠ Char.hash) s →
  snd <$> parseScriptToWords s = Some (Nat.odd (quotes s)).
Proof.
  intros Hs. unfold parseScriptToWords.
  change (lexer_loop (S (length s)) true s ?st) with (lex true s st).
  destruct (lex_quoted_parity (length s) s (le_n _) Hs true
              {| words := [[]]; quoted := false |}) as (st' & -> & Hq).
  simpl. by rewrite Hq.
Qed.

(** X3 at a text with three double quotes. *)
Lemma parseScriptToWords_unclosed_parity_witness :
  snd <$> parseScriptToWords
            ([Char.quote] ++ js "a b" ++ [Char.quote] ++ js " c " ++ [Char.quote]
               ++ js "d")
  = Some true.
Proof.
  apply (parseScriptToWords_unclosed_parity
           ([Char.quote] ++ js "a b" ++ [Char.quote] ++ js " c " ++ [Char.quote]
              ++ js "d")).
  apply (bool_decide_unpack _). vm_compute. exact I.
Defined.

(** ** Keystroke: what is lost and what comes back *)

Lemma split_nonempty (sep : Z) (s : jstring) : split sep s ≠ [].
Proof.
  induction s as [|c r IH]; [done|]. simpl.
  destruct (c =? sep); [done|]. by destruct (split sep r).
Qed.

Lemma join_cons (sep k : jstring) (rest : list jstring) :
  rest ≠ [] → join sep (k :: rest) = k ++ sep ++ join sep rest.
Proof. by destruct rest. Qed.

Lemma join_split (sep : Z) (s : jstring) : join [sep] (split sep s) = s.
Proof.
  induction s as [|c r IH]; [done|]. cbn [split].
  destruct (Z.eqb_spec c sep) as [->|Hne].
  - rewrite join_cons by apply split_nonempty. by rewrite IH.
  - pose proof (split_nonempty sep r) as Hs.
    destruct (split sep r) as [|w ws]; [done|].
    destruct ws as [|w' ws]; simpl in *; by rewrite <- IH.
Qed.

Lemma join_collapse (sep : Z) (n : nat) (l : list jstring) :
  (length l ≤ n)%nat →
  join [sep] (KeystrokeSpec.collapse sep l) = join [sep] l.
Proof.
  revert l. induction n as [|n IH]; intros l Hlen.
  { by destruct l; [|simpl in Hlen; lia]. }
  destruct l as [|seg rest]; [done|].
  destruct seg as [|c seg].
  - destruct rest as [|next rest]; [done|].
    cbn [KeystrokeSpec.collapse].
    destruct rest as [|next' rest]; [done|].
    rewrite join_cons.
    + rewrite IH by (simpl in *; lia).
      by rewrite (join_cons _ [] (next :: next' :: rest)),
        (join_cons _ next (next' :: rest)).
    + cbn [KeystrokeSpec.collapse]. by destruct next', rest.
  - cbn [KeystrokeSpec.collapse].
    destruct rest as [|next rest]; [done|].
    rewrite join_cons.
    + rewrite IH by (simpl in *; lia).
      by rewrite (join_cons _ (c :: seg) (next :: rest)).
    + cbn [KeystrokeSpec.collapse]. by destruct next, rest.
Qed.

(** X4. Keystroke loses nothing of its argument: the keys it returns,
    joined with the separator it chose, are the argument again. *)
Theorem Keystroke_join (s : jstring) :
  join [Keystroke_separator s] (Keystroke s) = s.
Proof.
  unfold Keystroke.
  rewrite (proj1 (Keystroke_fold_collapse (Keystroke_separator s) _) []) by done.
  cbn [app]. rewrite (join_collapse _ _ _ (le_n _)). apply join_split.
Qed.

Lemma collapse_init_nonempty (sep : Z) (n : nat) (l : list jstring) :
  (length l ≤ n)%nat →
  Forall (λ k, k ≠ []) (removelast (KeystrokeSpec.collapse sep l)).
Proof.
  revert l. induction n as [|n IH]; intros l Hlen.
  { destruct l; [constructor|simpl in Hlen; lia]. }
  destruct l as [|seg rest]; [constructor|].
  assert (∀ (k : jstring) (l' : list jstring),
            k ≠ [] → Forall (λ k : jstring, k ≠ []) (removelast l') →
            Forall (λ k : jstring, k ≠ []) (removelast (k :: l'))) as Hcons.
  { intros k l' Hk Hl'. destruct l'; [constructor|]. by constructor. }
  destruct seg as [|c seg].
  - destruct rest as [|next rest]; [constructor|].
    cbn [KeystrokeSpec.collapse]. apply Hcons; [done|].
    apply IH. simpl in *. lia.
  - cbn [KeystrokeSpec.collapse]. apply Hcons; [done|].
    apply IH. simpl in *. lia.
Qed.

(** X5. Keystroke never returns an empty list, and only the last of the
    keys it returns can be empty (an argument that is empty or ends with the
    separator). *)
Theorem Keystroke_empty_key_last (s : jstring) :
  Keystroke s ≠ [] ∧ Forall (λ k, k ≠ []) (removelast (Keystroke s)).
Proof.
  unfold Keystroke.
  rewrite (proj1 (Keystroke_fold_collapse (Keystroke_separator s) _) []) by done.
  cbn [app]. split; [|by apply (collapse_init_nonempty _ _ _ (le_n _))].
  pose proof (split_nonempty (Keystroke_separator s) s).
  destruct (split (Keystroke_separator s) s) as [|[|c seg] [|next rest]]; done.
Qed.

Lemma split_clean (sep : Z) (k : jstring) :
  Forall (λ c, c ≠ sep) k → split sep k = [k].
Proof.
  induction 1 as [|c k Hc _ IH]; [done|]. simpl.
  rewrite (proj2 (Z.eqb_neq _ _) Hc). by rewrite IH.
Qed.

Lemma split_clean_app (sep : Z) (k rest : jstring) :
  Forall (λ c, c ≠ sep) k → split sep (k ++ sep :: rest) = k :: split sep rest.
Proof.
  induction 1 as [|c k Hc _ IH]; simpl.
  - by rewrite Z.eqb_refl.
  - rewrite (proj2 (Z.eqb_neq _ _) Hc). by rewrite IH.
Qed.

Lemma split_join_clean (sep : Z) (keys : list jstring) :
  keys ≠ [] → Forall (Forall (λ c, c ≠ sep)) keys →
  split sep (join [sep] keys) = keys.
Proof.
  intros Hne Hall. induction Hall as [|k keys Hk Hkeys IH]; [done|].
  destruct keys as [|k' keys]; [by apply split_clean|].
  rewrite join_cons by done. cbn [app].
  rewrite split_clean_app by done. by rewrite IH.
Qed.

Lemma collapse_clean (sep : Z) (keys : list jstring) :
  Forall (λ k, k ≠ []) keys → KeystrokeSpec.collapse sep keys = keys.
Proof.
  induction 1 as [|k keys Hk _ IH]; [done|].
  destruct k as [|c k]; [done|]. cbn [KeystrokeSpec.collapse]. by rewrite IH.
Qed.

Lemma separator_clean (k rest : jstring) :
  Forall (λ c, c ≠ Char.plus ∧ c ≠ Char.minus) k →
  KeystrokeSpec.separator (k ++ rest) = KeystrokeSpec.separator rest.
Proof.
  unfold KeystrokeSpec.separator. induction 1 as [|c k [Hp Hm] _ IH]; [done|].
  cbn [app]. rewrite filter_cons, decide_False by (intros [?|?]; done). done.
Qed.

(** X6. Keystroke undoes a join: key names that are not empty and hold no
    plus and no minus, joined with plus or joined with minus, come back as
    they were. *)
Theorem Keystroke_of_join (sep : Z) (keys : list jstring) :
  sep = Char.plus ∨ sep = Char.minus →
  keys ≠ [] → Forall clean_key keys →
  Keystroke (join [sep] keys) = keys.
Proof.
  intros Hsep Hne Hclean. unfold Keystroke.
  rewrite (proj1 (Keystroke_fold_collapse _ _) []) by done. cbn [app].
  rewrite Keystroke_separator_spec.
  assert (Forall (Forall (λ c, c ≠ Char.plus ∧ c ≠ Char.minus)) keys) as Hfree.
  { eapply Forall_impl; [exact Hclean|]. by intros k [_ ?]. }
  assert (Forall (λ k, k ≠ []) keys) as Hfull.
  { eapply Forall_impl; [exact Hclean|]. by intros k [? _]. }
  destruct keys as [|k [|k' keys]]; [done| |].
  - (* one key: no separator occurs, minus is taken and splits nothing *)
    cbn [join]. apply Forall_inv in Hfree.
    replace (KeystrokeSpec.separator k) with Char.minus.
    2:{ rewrite <- (app_nil_r k) at 1. by rewrite separator_clean. }
    rewrite split_clean; [by apply collapse_clean|].
    eapply Forall_impl; [exact Hfree|]. by intros c [_ ?].
  - replace (KeystrokeSpec.separator (join [sep] (k :: k' :: keys))) with sep.
    2:{ rewrite join_cons by done. rewrite separator_clean by by apply Forall_inv in Hfree.
        unfold KeystrokeSpec.separator. cbn [app]. rewrite filter_cons.
        by rewrite decide_True. }
    rewrite split_join_clean; [by apply collapse_clean|done|].
    eapply Forall_impl; [exact Hfree|]. intros key Hkey.
    eapply Forall_impl; [exact Hkey|]. intros c [? ?]. by destruct Hsep as [->| ->].
Qed.

(** X6 at the keys Ctrl, Shift and c joined with plus. *)
Lemma Keystroke_of_join_witness :
  Keystroke (join [Char.plus] [js "Ctrl"; js "Shift"; js "c"])
  = [js "Ctrl"; js "Shift"; js "c"].
Proof.
  apply (Keystroke_of_join Char.plus [js "Ctrl"; js "Shift"; js "c"]).
  - by left.
  - done.
  - repeat constructor; try done.
    all: apply (bool_decide_unpack _); vm_compute; exact I.
Defined.

(** ** Objects: what an assignment and a spread leave behind *)

Lemma obj_has_false {V} (o : object V) (k : jstring) :
  obj_has o k = false ↔ k ∉ o.*1.
Proof.
  unfold obj_has. induction o as [|[k' v'] o IH]; simpl.
  - split; [intros _; apply not_elem_of_nil|done].
  - rewrite orb_false_iff, IH, not_elem_of_cons, bool_decide_eq_false.
    split; intros [? ?]; (split; [congruence|done]).
Qed.

Lemma obj_get_replace {V} (o : object V) (k k' : jstring) (v : option V) :
  obj_has o k = true →
  obj_get (obj_replace k v o) k' = if decide (k = k') then v else obj_get o k'.
Proof.
  unfold obj_has. induction o as [|[k1 v1] o IH]; simpl; [done|]. intros Hhas.
  destruct (decide (k1 = k)) as [->|Hne]; simpl.
  - destruct (decide (k = k')); done.
  - rewrite bool_decide_eq_false_2 in Hhas by done. simpl in Hhas.
    rewrite (IH Hhas). destruct (decide (k1 = k')) as [->|]; [|done].
    by rewrite decide_False by congruence.
Qed.

Lemma obj_get_insert_index {V} (o : object V) (n : Z) (k k' : jstring) (v : option V) :
  obj_has o k = false →
  obj_get (obj_insert_index n k v o) k' = if decide (k = k') then v else obj_get o k'.
Proof.
  unfold obj_has. induction o as [|[k1 v1] o IH]; simpl; [done|]. intros Hhas.
  apply orb_false_iff in Hhas as [Hk1 Hhas]. apply bool_decide_eq_false in Hk1.
  destruct (array_index k1) as [m|]; [destruct (m <? n)|]; simpl; try done.
  rewrite (IH Hhas). destruct (decide (k1 = k')) as [->|]; [|done].
  by rewrite decide_False by congruence.
Qed.

Lemma obj_get_append {V} (o : object V) (k k' : jstring) (v : option V) :
  obj_has o k = false →
  obj_get (o ++ [(k, v)]) k' = if decide (k = k') then v else obj_get o k'.
Proof.
  unfold obj_has. induction o as [|[k1 v1] o IH]; simpl; [done|]. intros Hhas.
  apply orb_false_iff in Hhas as [Hk1 Hhas]. apply bool_decide_eq_false in Hk1.
  rewrite (IH Hhas). destruct (decide (k1 = k')) as [->|]; [|done].
  by rewrite decide_False by congruence.
Qed.

(** Reading after writing: the key written holds the new value, every other
    key what it held. *)
Lemma obj_get_set {V} (o : object V) (k k' : jstring) (v : option V) :
  obj_get (obj_set o k v) k' = if decide (k = k') then v else obj_get o k'.
Proof.
  unfold obj_set. destruct (obj_has o k) eqn:Hhas.
  - by apply obj_get_replace.
  - destruct (array_index k); [by apply obj_get_insert_index|by apply obj_get_append].
Qed.

Lemma obj_replace_keys {V} (o : object V) (k : jstring) (v : option V) :
  (obj_replace k v o).*1 = o.*1.
Proof.
  induction o as [|[k1 v1] o IH]; csimpl; [done|].
  destruct (decide (k1 = k)) as [->|]; csimpl; [done|by rewrite IH].
Qed.

Lemma obj_insert_index_keys {V} (o : object V) (n : Z) (k : jstring) (v : option V) :
  (obj_insert_index n k v o).*1 ≡ₚ k :: o.*1.
Proof.
  induction o as [|[k1 v1] o IH]; csimpl; [done|].
  destruct (array_index k1) as [m|]; [destruct (m <? n)|]; csimpl; try done.
  rewrite IH. apply Permutation_swap.
Qed.

(** An assignment keeps the keys of an object distinct. *)
Lemma obj_wf_set {V} (o : object V) (k : jstring) (v : option V) :
  obj_wf o → obj_wf (obj_set o k v).
Proof.
  unfold obj_wf, obj_set. intros Hwf. destruct (obj_has o k) eqn:Hhas; cbv iota.
  - by rewrite obj_replace_keys.
  - apply obj_has_false in Hhas. destruct (array_index k); cbv iota.
    + rewrite obj_insert_index_keys. by apply NoDup_cons.
    + rewrite fmap_app. simpl. apply NoDup_app. split_and!; [done| |apply NoDup_singleton].
      intros k' Hin ->%list_elem_of_singleton. done.
Qed.

Lemma obj_replace_elem {V} (o : object V) (k : jstring) (v : option V)
    (e : jstring * option V) :
  e ∈ obj_replace k v o → e = (k, v) ∨ e ∈ o.
Proof.
  induction o as [|[k1 v1] o IH]; simpl; [by right|].
  destruct (decide (k1 = k)) as [->|]; rewrite !elem_of_cons; tauto.
Qed.

Lemma obj_insert_index_elem {V} (o : object V) (n : Z) (k : jstring) (v : option V)
    (e : jstring * option V) :
  e ∈ obj_insert_index n k v o → e = (k, v) ∨ e ∈ o.
Proof.
  induction o as [|[k1 v1] o IH]; simpl.
  - rewrite list_elem_of_singleton. by left.
  - destruct (array_index k1) as [m|]; [destruct (m <? n)|];
      rewrite !elem_of_cons; tauto.
Qed.

(** An assignment adds no entry but the one written. *)
Lemma obj_set_elem {V} (o : object V) (k : jstring) (v : option V)
    (e : jstring * option V) :
  e ∈ obj_set o k v → e = (k, v) ∨ e ∈ o.
Proof.
  unfold obj_set. destruct (obj_has o k).
  - apply obj_replace_elem.
  - destruct (array_index k); [apply obj_insert_index_elem|].
    rewrite elem_of_app, list_elem_of_singleton. tauto.
Qed.

(** Every entry of a spread comes from one of the two objects. *)
Lemma obj_spread_elem {V} (target source : object V) (e : jstring * option V) :
  e ∈ obj_spread target source → e ∈ target ∨ e ∈ source.
Proof.
  unfold obj_spread. revert target.
  induction source as [|[k v] source IH]; intros target; simpl; [by left|].
  intros [Hin|Hin]%IH; [|right; by right].
  apply obj_set_elem in Hin as [->|Hin]; [right; by left|by left].
Qed.

Lemma obj_wf_spread {V} (target source : object V) :
  obj_wf target → obj_wf (obj_spread target source).
Proof.
  unfold obj_spread. revert target.
  induction source as [|[k v] source IH]; intros target Hwf; simpl; [done|].
  apply IH. by apply obj_wf_set.
Qed.

(** ** keymaps.ts: what the table builders hold *)

Lemma codePointsMap_fold (chars : list jstring) (acc : object Z) (c : jstring) :
  obj_get (fold_left (λ acc char, obj_set acc char (codePointAt0 char)) chars acc) c
  = if decide (c ∈ chars) then codePointAt0 c else obj_get acc c.
Proof.
  revert acc. induction chars as [|a chars IH]; intros acc; cbn [fold_left].
  - by rewrite decide_False by apply not_elem_of_nil.
  - rewrite IH. destruct (decide (c ∈ chars)) as [Hin|Hin].
    + by rewrite decide_True by by right.
    + rewrite obj_get_set. destruct (decide (a = c)) as [->|Hne].
      * by rewrite decide_True by by left.
      * rewrite decide_False; [done|]. rewrite not_elem_of_cons. split; congruence.
Qed.

Lemma codePointsMap_wf (chars : list jstring) : obj_wf (codePointsMap chars).
Proof.
  unfold codePointsMap.
  assert (obj_wf ([] : object Z)) as Hwf by apply NoDup_nil_2.
  revert Hwf. generalize ([] : object Z).
  induction chars as [|a chars IH]; intros acc Hwf; simpl; [done|].
  apply IH. by apply obj_wf_set.
Qed.

(** X7. [codePointsMap] holds, under each of the strings given, what
    [codePointAt(0)] gives for it, and nothing under any other key; a string
    given twice changes nothing.  Under the string of a character given it
    holds the character's code point, the one unit up to U+FFFF and the code
    point of the surrogate pair above. *)
Theorem codePointsMap_lookup (chars : list jstring) :
  (∀ c : jstring,
     obj_get (codePointsMap chars) c
     = if decide (c ∈ chars) then codePointAt0 c else None)
  ∧ (∀ n : Z,
       0 ≤ n ≤ 0x10FFFF → String_fromCodePoint n ∈ chars →
       obj_get (codePointsMap chars) (String_fromCodePoint n) = Some n).
Proof.
  assert (∀ c : jstring,
            obj_get (codePointsMap chars) c
            = if decide (c ∈ chars) then codePointAt0 c else None) as Hlookup.
  { intros c. unfold codePointsMap. by rewrite codePointsMap_fold. }
  split; [done|]. intros n Hn Hin.
  by rewrite Hlookup, decide_True, codePointAt0_fromCodePoint.
Qed.

Lemma shifted_fold_other (modifier : Z) (map : list (jstring * jstring))
    (keysyms : object Z) (acc : object (list (option Z))) (k : jstring) :
  k ∉ map.*1 →
  obj_get (fold_left (λ acc e, obj_set acc e.1 (Some [Some modifier; obj_get keysyms e.2]))
             map acc) k
  = obj_get acc k.
Proof.
  revert acc. induction map as [|[k1 b1] map IH]; intros acc Hk; csimpl in *; [done|].
  apply not_elem_of_cons in Hk as [Hne Hk].
  rewrite IH, obj_get_set by done. by rewrite decide_False by congruence.
Qed.

Lemma shifted_fold (modifier : Z) (map : list (jstring * jstring))
    (keysyms : object Z) (acc : object (list (option Z))) (k b : jstring) :
  NoDup map.*1 → (k, b) ∈ map →
  obj_get (fold_left (λ acc e, obj_set acc e.1 (Some [Some modifier; obj_get keysyms e.2]))
             map acc) k
  = Some [Some modifier; obj_get keysyms b].
Proof.
  revert acc. induction map as [|[k1 b1] map IH]; intros acc Hnd Hin; csimpl in *.
  - by apply not_elem_of_nil in Hin.
  - apply NoDup_cons in Hnd as [Hk1 Hnd].
    apply elem_of_cons in Hin as [[= <- <-]|Hin]; [|by apply IH].
    rewrite shifted_fold_other, obj_get_set by done. by rewrite decide_True.
Qed.

Lemma shifted_wf (modifier : Z) (map : list (jstring * jstring)) (keysyms : object Z) :
  obj_wf (shifted modifier map keysyms).
Proof.
  unfold shifted.
  assert (obj_wf ([] : object (list (option Z)))) as Hwf by apply NoDup_nil_2.
  revert Hwf. generalize ([] : object (list (option Z))).
  induction map as [|a map IH]; intros acc Hwf; simpl; [done|].
  apply IH. by apply obj_wf_set.
Qed.

(** X8. [shifted], given pairs of a key and its base key with no key twice,
    holds under each key the two codes of the modifier and of the base key in
    the table given; the second is undefined when the table lacks the base
    key. *)
Theorem shifted_lookup (modifier : Z) (map : list (jstring * jstring))
    (keysyms : object Z) (k b : jstring) :
  NoDup map.*1 → (k, b) ∈ map →
  obj_get (shifted modifier map keysyms) k = Some [Some modifier; obj_get keysyms b].
Proof. intros Hnd Hin. unfold shifted. by apply shifted_fold. Qed.

(** ** keyboard.ts: the translator over any keymap *)

Lemma lor_disjoint (a b n : Z) :
  0 ≤ n → 0 ≤ b < 2 ^ n → Z.land a (Z.ones n) = 0 → Z.lor a b = a + b.
Proof.
  intros Hn Hb Ha.
  assert (Z.land a b = 0) as Hland.
  { rewrite <- (Z.mod_small b (2 ^ n)) by done.
    rewrite <- Z.land_ones by done.
    rewrite (Z.land_comm b), Z.land_assoc, Ha. apply Z.land_0_l. }
  rewrite <- Z.lxor_lor by done. symmetry. by apply Z.add_nocarry_lxor.
Qed.

(** The three ranges of the fallback encoding, in sums. *)
Lemma keysymFromCodePoint_range (c k : Z) :
  0 ≤ c → keysymFromCodePoint c = Ok k →
  (isControlChar c = true ∧ k = 0xff00 + c ∧ c ≤ 0x9f)
  ∨ (isControlChar c = false ∧ k = c ∧ 0x20 ≤ c ≤ 0xff)
  ∨ (k = 0x01000000 + c ∧ 0x100 ≤ c ≤ 0x10ffff).
Proof.
  intros Hc. unfold keysymFromCodePoint.
  destruct (isControlChar c) eqn:Hctl.
  - intros [= <-]. left. unfold isControlChar in Hctl.
    assert (c ≤ 0x9f) by lia.
    split_and!; [done| |done]. apply (lor_disjoint _ _ 8); [lia|lia|done].
  - unfold isControlChar in Hctl.
    destruct ((0 <=? c) && (c <=? 255)) eqn:Hlat.
    + intros [= <-]. right; left. split_and!; [done|done|lia|lia].
    + destruct ((256 <=? c) && (c <=? 1114111)) eqn:Huni; [|done].
      intros [= <-]. right; right.
      split; [|lia]. apply (lor_disjoint _ _ 24); [lia|lia|done].
Qed.

(** X9. The fallback encoding gives different code points different keysyms:
    the control range lands in 0xFF00 to 0xFF9F, Latin-1 stays in 0x20 to
    0xFF, and the rest of Unicode lands above 0x01000000. *)
Theorem keysymFromCodePoint_injective (c1 c2 k : Z) :
  0 ≤ c1 → 0 ≤ c2 →
  keysymFromCodePoint c1 = Ok k → keysymFromCodePoint c2 = Ok k → c1 = c2.
Proof.
  intros H1 H2 E1 E2.
  apply keysymFromCodePoint_range in E1; [|done].
  apply keysymFromCodePoint_range in E2; [|done].
  lia.
Qed.

Section KeyboardMapperFurther.
Context `{Host}.

(** A loop of [map.set] leaves a key unset only when the map did not have it
    and no entry of that key has a value. *)
Lemma fold_set_lookup_None {V W} (f : V → W) (o : object V) (m : gmap jstring W)
    (k : jstring) :
  fold_left (λ map e, match e.2 with
                      | Some v => <[ e.1 := f v ]> map
                      | None => map
                      end) o m !! k = None →
  m !! k = None ∧ ∀ v, (k, Some v) ∉ o.
Proof.
  revert m. induction o as [|[k' v'] o IH]; intros m; cbn [fold_left].
  - intros Hm. split; [done|]. intros v. apply not_elem_of_nil.
  - intros [Hm Hno]%IH. destruct v' as [v'|]; simpl in Hm.
    + apply lookup_insert_None in Hm as [Hm Hne]. split; [done|].
      intros v [[= ? ?]|Hin]%elem_of_cons; [done|by apply (Hno v)].
    + split; [done|]. intros v [[= ? ?]|Hin]%elem_of_cons. by apply (Hno v).
Qed.

(** X10. [translateChar] throws on a string of one code unit exactly when
    the unit is none of newline, space and tab, no entry of the printable and
    combined tables gives it a value, and the keymap forbids the fallback;
    the error is then the unknown-key error.  With the fallback allowed no
    string of one unit is refused. *)
Theorem translateChar_throws_iff (keymap : Keymap) (c : Z) :
  code_unit c →
  ((∃ e, KeyboardMapper_translateChar keymap [c] = Throw e)
   ↔ ((c ∉ [Char.newline; Char.space; Char.tab])
      ∧ (∀ code, ([c], Some code) ∉ printable keymap)
      ∧ (∀ codes, ([c], Some codes) ∉ combined keymap)
      ∧ allowFallback keymap = false))
  ∧ (∀ e, KeyboardMapper_translateChar keymap [c] = Throw e
          → e = GuacamoleClientError UNKNOWN_KEY).
Proof.
  intros Hunit. unfold code_unit in Hunit.
  assert (∃ keysym, keysymFromCodePoint c = Ok keysym) as [keysym Hkeysym].
  { unfold keysymFromCodePoint.
    destruct (isControlChar c); [by eexists|].
    destruct ((0 <=? c) && (c <=? 255)) eqn:Hlat; [by eexists|].
    replace ((256 <=? c) && (c <=? 1114111)) with true by lia. by eexists. }
  unfold KeyboardMapper_translateChar. rewrite Hkeysym. split; [split|].
  - intros [e He]. destruct (charsMap keymap !! [c]) as [ks|] eqn:Hlook; [done|].
    unfold charsMap in Hlook.
    apply lookup_insert_None in Hlook as [Hlook Htab].
    apply lookup_insert_None in Hlook as [Hlook Hsp].
    apply lookup_insert_None in Hlook as [Hlook Hnl].
    apply (fold_set_lookup_None (λ codes, codes)) in Hlook as [Hlook Hcomb].
    apply (fold_set_lookup_None (λ code, [Some code])) in Hlook as [_ Hprint].
    split_and!; [|done|done|].
    + rewrite !not_elem_of_cons. split_and!; [congruence..|apply not_elem_of_nil].
    + by destruct (allowFallback keymap).
  - intros (Hc & Hprint & Hcomb & Hfb).
    rewrite !not_elem_of_cons in Hc. destruct Hc as (Hnl & Hsp & Htab & _).
    assert (charsMap keymap !! [c] = None) as ->.
    { unfold charsMap. rewrite !lookup_insert_ne by congruence.
      rewrite (fold_set_lookup_absent (λ codes, codes)) by done.
      by rewrite (fold_set_lookup_absent (λ code, [Some code])) by done. }
    rewrite Hfb. by eexists.
  - intros e. destruct (charsMap keymap !! [c]); [done|].
    destruct (allowFallback keymap); [done|]. by intros [= <-].
Qed.

(** Newline, space and tab are never looked up in the printable and
    combined tables and never fall back: they translate to the one code that
    the key names Enter, Space and Tab have in the table of keys, an
    undefined element when the keymap has no such key. *)
Lemma translateChar_fixed (keymap : Keymap) :
  KeyboardMapper_translateChar keymap [Char.newline] = Ok [keysMap keymap !! js "enter"]
  ∧ KeyboardMapper_translateChar keymap [Char.space] = Ok [keysMap keymap !! js "space"]
  ∧ KeyboardMapper_translateChar keymap [Char.tab] = Ok [keysMap keymap !! js "tab"].
Proof.
  unfold KeyboardMapper_translateChar, charsMap. split_and!.
  - by rewrite lookup_insert_ne, lookup_insert_ne, lookup_insert_eq.
  - by rewrite lookup_insert_ne, lookup_insert_eq.
  - by rewrite lookup_insert_eq.
Qed.

(** X11. In a keymap built the way the US keymap is, with [codePointsMap]
    for the printable table and [shifted] over it for the combined one, a
    string of one code unit that is a key of a pair translates to the
    modifier followed by what [codePointAt(0)] gives for the pair's base key:
    the code point of the character the base key begins with. *)
Theorem translateChar_shifted_pair (keymap : Keymap) (base : list jstring)
    (pairs : list (jstring * jstring)) (modifier c : Z) (b : jstring) :
  code_unit c →
  printable keymap = codePointsMap base →
  combined keymap = shifted modifier pairs (printable keymap) →
  NoDup pairs.*1 → ([c], b) ∈ pairs → b ∈ base →
  c ∉ [Char.newline; Char.space; Char.tab] →
  KeyboardMapper_translateChar keymap [c] = Ok [Some modifier; codePointAt0 b].
Proof.
  intros _ Eprint Ecomb Hnd Hin Hb Hc. unfold KeyboardMapper_translateChar.
  rewrite charsMap_lookup; [|done|rewrite Eprint; apply codePointsMap_wf
                            |rewrite Ecomb; apply shifted_wf].
  assert (obj_get (combined keymap) [c] = Some [Some modifier; codePointAt0 b])
    as ->; [|done].
  rewrite Ecomb. unfold shifted. rewrite (shifted_fold _ _ _ _ _ b) by done.
  rewrite Eprint. unfold codePointsMap. rewrite codePointsMap_fold.
  by rewrite decide_True.
Qed.

Lemma keysMap_fold_elem (o : object Z) (m : gmap jstring Z) (k : jstring) (code : Z) :
  fold_left (λ map e, match e.2 with
                      | Some code => <[ toLowerCase e.1 := code ]> map
                      | None => map
                      end) o m !! k = Some code →
  m !! k = Some code ∨ ∃ name, toLowerCase name = k ∧ (name, Some code) ∈ o.
Proof.
  revert m. induction o as [|[k' v'] o IH]; intros m; cbn [fold_left]; [by left|].
  intros [Hm|(name & Hname & Hin)]%IH.
  - destruct v' as [v'|]; simpl in Hm; [|by left].
    apply lookup_insert_Some in Hm as [[<- <-]|[_ Hm]]; [|by left].
    right. exists k'. split; [done|by left].
  - right. exists name. split; [done|by right].
Qed.

(** X12. A key that does not begin with 0x translates only to a code, other
    than zero, that one of the control, modifier and printable tables gives to
    a name equal to the key up to case. *)
Theorem translateKey_from_tables (keymap : Keymap) (key : jstring) (n : number) :
  startsWith (js "0x") key = false →
  KeyboardMapper_translateKey keymap key = Ok n →
  ∃ name code,
    n = Num code ∧ code ≠ 0 ∧ toLowerCase name = toLowerCase key
    ∧ ((name, Some code) ∈ control keymap ∨ (name, Some code) ∈ modifiers keymap
       ∨ (name, Some code) ∈ printable keymap).
Proof.
  intros Hhex. unfold KeyboardMapper_translateKey. rewrite Hhex.
  destruct (keysMap keymap !! toLowerCase key) as [code|] eqn:Hlook; [|done].
  destruct (code =? 0) eqn:Hzero; [done|]. intros [= <-].
  unfold keysMap in Hlook.
  apply keysMap_fold_elem in Hlook as [Hlook|(name & Hname & Hin)]; [done|].
  exists name, code. split_and!; [done|lia|done|].
  apply obj_spread_elem in Hin as [Hin|Hin]; [|by right; right].
  apply obj_spread_elem in Hin as [Hin|Hin]; [|by right; left].
  apply obj_spread_elem in Hin as [Hin|Hin]; [|by left].
  by apply not_elem_of_nil in Hin.
Qed.

End KeyboardMapperFurther.

(** X7 with the letter a and the character U+1F600, a surrogate pair. *)
Lemma codePointsMap_lookup_witness :
  obj_get (codePointsMap [js "a"; String_fromCodePoint 0x1F600])
    (String_fromCodePoint 0x1F600)
  = Some 0x1F600.
Proof.
  apply (proj2 (codePointsMap_lookup [js "a"; String_fromCodePoint 0x1F600]) 0x1F600).
  - lia.
  - apply (bool_decide_unpack _). vm_compute. exact I.
Defined.

(** X8 with the pairs of the shifted digits 1 and 2. *)
Lemma shifted_lookup_witness :
  obj_get (shifted 0xffe1 [(js "!", js "1"); (js "@", js "2")] PrintableKeysyms) (js "@")
  = Some [Some 0xffe1; Some 50].
Proof.
  apply (shifted_lookup 0xffe1 [(js "!", js "1"); (js "@", js "2")] PrintableKeysyms
           (js "@") (js "2")).
  - apply (bool_decide_unpack _). vm_compute. exact I.
  - apply (bool_decide_unpack _). vm_compute. exact I.
Defined.

(** X9 at U+0041, whose keysym is 0x41. *)
Lemma keysymFromCodePoint_injective_witness :
  keysymFromCodePoint 0x41 = Ok 0x41 ∧ keysymFromCodePoint 0x41 = Ok 0x41 ∧ 0x41 = 0x41.
Proof.
  split_and!; [reflexivity..|].
  apply (keysymFromCodePoint_injective 0x41 0x41 0x41); [lia|lia|reflexivity|reflexivity].
Defined.

(** X10 with the US keymap, which forbids the fallback, and e acute. *)
Lemma translateChar_throws_iff_witness :
  ((∃ e, KeyboardMapper_translateChar Keymaps.US [0xE9] = Throw e)
   ↔ ((0xE9 ∉ [Char.newline; Char.space; Char.tab])
      ∧ (∀ code, ([0xE9], Some code) ∉ printable Keymaps.US)
      ∧ (∀ codes, ([0xE9], Some codes) ∉ combined Keymaps.US)
      ∧ allowFallback Keymaps.US = false))
  ∧ (∀ e, KeyboardMapper_translateChar Keymaps.US [0xE9] = Throw e
          → e = GuacamoleClientError UNKNOWN_KEY).
Proof.
  apply (translateChar_throws_iff Keymaps.US 0xE9). unfold code_unit. lia.
Defined.

(** X11 with the US keymap and the capital A. *)
Lemma translateChar_shifted_pair_witness :
  KeyboardMapper_translateChar Keymaps.US (js "A") = Ok [Some 0xffe1; Some 97].
Proof.
  apply (translateChar_shifted_pair Keymaps.US
           (chars "`1234567890-=" ++ chars "qwertyuiop[]" ++ chars "asdfghjkl;'\"
            ++ chars "zxcvbnm,./" ++ chars " ")
           (zip (chars "~!@#$%^&*()_+" ++ chars "QWERTYUIOP{}" ++ chars "ASDFGHJKL:"
                   ++ [[Char.quote]] ++ chars "|" ++ chars "ZXCVBNM<>?")
                (chars "`1234567890-=" ++ chars "qwertyuiop[]" ++ chars "asdfghjkl;'\"
                   ++ chars "zxcvbnm,./"))
           0xffe1 65 (js "a")).
  - unfold code_unit. lia.
  - reflexivity.
  - reflexivity.
  - apply (bool_decide_unpack _). vm_compute. exact I.
  - apply (bool_decide_unpack _). vm_compute. exact I.
  - apply (bool_decide_unpack _). vm_compute. exact I.
  - apply (bool_decide_unpack _). vm_compute. exact I.
Defined.

(** X12 with the US keymap and the key CTRL. *)
Lemma translateKey_from_tables_witness :
  ∃ name code,
    Num 0xffe3 = Num code ∧ code ≠ 0 ∧ toLowerCase name = toLowerCase (js "CTRL")
    ∧ ((name, Some code) ∈ control Keymaps.US ∨ (name, Some code) ∈ modifiers Keymaps.US
       ∨ (name, Some code) ∈ printable Keymaps.US).
Proof.
  apply (translateKey_from_tables Keymaps.US (js "CTRL") (Num 0xffe3)); reflexivity.
Defined.

(** ** client.ts: keys, text and clicks over any keymap *)

Lemma sent_nil (w : World) : sent w [] = w.
Proof. destruct w. unfold sent. cbn. by rewrite app_nil_r. Qed.

Lemma sent_sent (w : World) (es es' : list Event) :
  sent (sent w es) es' = sent w (es ++ es').
Proof. unfold sent. cbn. by rewrite app_assoc. Qed.

Lemma emit_run (e : Event) (w : World) : emit e w = (Ok (), sent w [e]).
Proof. done. Qed.

Section ClientFurther.
Context `{Host}.
Variable keymap : Keymap.
Variable options : ClientOptions.

(** The loop of [keysDown] and [keysUp] over keys that all translate. *)
Lemma keys_loop_run (pressed : Z) (keys : list Value) (codes : list number) (w : World) :
  Forall2 (λ key code, translateKey keymap key = Ok code) keys codes →
  for_of keys (λ key, keysym ← lift (translateKey keymap key);
                      emit (SendKeyEvent pressed keysym)) w
  = (Ok (), sent w (key_events pressed codes)).
Proof.
  intros Hkeys. revert w. induction Hkeys as [|key code keys codes Hkey _ IH]; intros w.
  - by rewrite sent_nil.
  - cbn [for_of]. rewrite !bind_run, lift_run, Hkey, emit_run, IH.
    by rewrite sent_sent.
Qed.

(** The same loop when a key fails after some that translate. *)
Lemma keys_loop_fail (pressed : Z) (keys : list Value) (codes : list number)
    (bad : Value) (later : list Value) (e : Error) (w : World) :
  Forall2 (λ key code, translateKey keymap key = Ok code) keys codes →
  translateKey keymap bad = Throw e →
  for_of (keys ++ bad :: later)
    (λ key, keysym ← lift (translateKey keymap key);
            emit (SendKeyEvent pressed keysym)) w
  = (Throw e, sent w (key_events pressed codes)).
Proof.
  intros Hkeys Hbad. revert w.
  induction Hkeys as [|key code keys codes Hkey _ IH]; intros w.
  - cbn [app for_of]. rewrite !bind_run, lift_run, Hbad. by rewrite sent_nil.
  - cbn [app for_of]. rewrite !bind_run, lift_run, Hkey, emit_run, IH.
    by rewrite sent_sent.
Qed.

Lemma keysDown_run (keys : list Value) (codes : list number) (w : World) :
  tunnel w = Connected →
  Forall2 (λ key code, translateKey keymap key = Ok code) keys codes →
  keysDown keymap [VArray keys] w = (Ok VUndefined, sent w (key_events 1 codes)).
Proof.
  intros Hon Hkeys. unfold keysDown.
  rewrite CheckConnectedDecorator_connected by done.
  unfold keysDown_method. cbn [unifyVarArgs]. rewrite bind_run.
  by rewrite (keys_loop_run 1 keys codes).
Qed.

Lemma keysUp_run (keys : list Value) (codes : list number) (w : World) :
  tunnel w = Connected →
  Forall2 (λ key code, translateKey keymap key = Ok code) keys codes →
  keysUp keymap [VArray keys] w = (Ok VUndefined, sent w (key_events 0 codes)).
Proof.
  intros Hon Hkeys. unfold keysUp.
  rewrite CheckConnectedDecorator_connected by done.
  unfold keysUp_method. cbn [unifyVarArgs]. rewrite bind_run.
  by rewrite (keys_loop_run 0 keys codes).
Qed.

Lemma keysDown_fail (keys : list Value) (codes : list number) (bad : Value)
    (later : list Value) (e : Error) (w : World) :
  tunnel w = Connected →
  Forall2 (λ key code, translateKey keymap key = Ok code) keys codes →
  translateKey keymap bad = Throw e →
  keysDown keymap [VArray (keys ++ bad :: later)] w
  = (Throw e, sent w (key_events 1 codes)).
Proof.
  intros Hon Hkeys Hbad. unfold keysDown.
  rewrite CheckConnectedDecorator_connected by done.
  unfold keysDown_method. cbn [unifyVarArgs]. rewrite bind_run.
  by rewrite (keys_loop_fail 1 keys codes bad later e).
Qed.

(** X13. A connected [keysPress] of keys that all translate presses them in
    the order given and releases them in the opposite order; the toggle delay
    comes between the two only when it is above zero. *)
Theorem keysPress_releases_in_reverse (keys : list Value) (codes : list number)
    (w : World) :
  tunnel w = Connected →
  Forall2 (λ key code, translateKey keymap key = Ok code) keys codes →
  keysPress keymap options [VArray keys] w
  = (Ok VUndefined,
     sent w (key_events 1 codes
             ++ (if toggleDelay options >? 0
                 then [Delay (Num (toggleDelay options))] else [])
             ++ key_events 0 (reverse codes))).
Proof.
  intros Hon Hkeys. unfold keysPress.
  rewrite CheckConnectedDecorator_connected by done.
  unfold keysPress_method. cbn [unifyVarArgs].
  rewrite bind_run, (keysDown_run keys codes) by done.
  rewrite bind_run. destruct (toggleDelay options >? 0).
  - rewrite delay_run.
    change {| tunnel := tunnel ?w; mouseState := mouseState ?w;
              display := display ?w; events := events ?w ++ ?es |}
      with (sent w es).
    rewrite (keysUp_run (reverse keys) (reverse codes))
      by (done || by apply Forall2_reverse).
    by rewrite !sent_sent.
  - unfold mret, State_ret.
    rewrite (keysUp_run (reverse keys) (reverse codes))
      by (done || by apply Forall2_reverse).
    by rewrite !sent_sent.
Qed.

(** X14. When a key of a connected [keysPress] does not translate, the keys
    before it have been pressed and stay pressed: the error is thrown with no
    delay and no release sent. *)
Theorem keysPress_failure_leaves_keys_down (keys : list Value) (codes : list number)
    (bad : Value) (later : list Value) (e : Error) (w : World) :
  tunnel w = Connected →
  Forall2 (λ key code, translateKey keymap key = Ok code) keys codes →
  translateKey keymap bad = Throw e →
  keysPress keymap options [VArray (keys ++ bad :: later)] w
  = (Throw e, sent w (key_events 1 codes)).
Proof.
  intros Hon Hkeys Hbad. unfold keysPress.
  rewrite CheckConnectedDecorator_connected by done.
  unfold keysPress_method. cbn [unifyVarArgs].
  by rewrite bind_run, (keysDown_fail keys codes bad later e).
Qed.

(** The codes [translateChar] returned, when none is undefined, as keys. *)
Lemma keysym_values_translate (ks : list Z) :
  Forall2 (λ key code, translateKey keymap key = Ok code)
    (keysym_value <$> (Some <$> ks)) (Num <$> ks).
Proof. induction ks as [|k ks IH]; csimpl; by constructor. Qed.

Lemma type_loop_run (text : jstring) (kss : list (list Z)) (w : World) :
  tunnel w = Connected →
  Forall2 (λ c ks, KeyboardMapper_translateChar keymap [c] = Ok (Some <$> ks)) text kss →
  type_loop keymap options text w
  = (Ok (),
     sent w (removelast
               (strokes (toggleDelay options) (delayBetweenKeys options) kss))).
Proof.
  intros Hon Htext. revert w Hon.
  induction Htext as [|c ks text kss Hc Htext IH]; intros w Hon.
  - by rewrite sent_nil.
  - cbn [type_loop]. rewrite bind_run, lift_run, Hc.
    rewrite bind_run, (keysDown_run _ (Num <$> ks))
      by (done || apply keysym_values_translate).
    rewrite bind_run, delay_run.
    change {| tunnel := tunnel ?w; mouseState := mouseState ?w;
              display := display ?w; events := events ?w ++ ?es |}
      with (sent w es).
    rewrite bind_run, (keysUp_run _ (reverse (Num <$> ks)))
      by (done || apply Forall2_reverse, keysym_values_translate).
    rewrite bind_run, !sent_sent.
    unfold strokes. csimpl. fold (strokes (toggleDelay options) (delayBetweenKeys options) kss).
    destruct Htext as [|c' ks' text kss Hc' Htext].
    + rewrite bool_decide_false by (intros ?; done).
      unfold mret at 1, State_ret at 1. cbn [type_loop]. unfold mret, State_ret.
      unfold strokes. csimpl. rewrite app_nil_r.
      by rewrite removelast_last.
    + rewrite bool_decide_true by done. rewrite delay_run.
      change {| tunnel := tunnel ?w; mouseState := mouseState ?w;
                display := display ?w; events := events ?w ++ ?es |}
        with (sent w es).
      rewrite IH by done. rewrite !sent_sent.
      set (rest := strokes _ _ (ks' :: kss)).
      assert (rest ≠ []) as Hrest.
      { unfold rest, strokes, stroke. csimpl. by destruct (key_events 1 (Num <$> ks')). }
      rewrite removelast_app by done.
      unfold stroke. by rewrite <- !app_assoc.
Qed.

(** X15. A connected [type] of a text whose characters all translate sends a
    stroke for every character in turn, its codes down, the toggle delay and
    the codes up in the opposite order, with the delay between keys after
    every stroke but the last. *)
Theorem type_strokes (text : jstring) (kss : list (list Z)) (w : World) :
  tunnel w = Connected →
  Forall2 (λ c ks, KeyboardMapper_translateChar keymap [c] = Ok (Some <$> ks)) text kss →
  type keymap options [VString text] w
  = (Ok VUndefined,
     sent w (removelast
               (strokes (toggleDelay options) (delayBetweenKeys options) kss))).
Proof.
  intros Hon Htext. unfold type.
  rewrite CheckConnectedDecorator_connected by done.
  unfold type_method. cbn [arg nth]. rewrite bind_run.
  by rewrite (type_loop_run text kss).
Qed.

Lemma type_loop_fail (text : jstring) (kss : list (list Z)) (c : Z)
    (later : jstring) (e : Error) (w : World) :
  tunnel w = Connected →
  Forall2 (λ c ks, KeyboardMapper_translateChar keymap [c] = Ok (Some <$> ks)) text kss →
  KeyboardMapper_translateChar keymap [c] = Throw e →
  type_loop keymap options (text ++ c :: later) w
  = (Throw e,
     sent w (strokes (toggleDelay options) (delayBetweenKeys options) kss)).
Proof.
  intros Hon Htext Hbad. revert w Hon.
  induction Htext as [|c' ks text kss Hc Htext IH]; intros w Hon.
  - cbn [app type_loop]. rewrite bind_run, lift_run, Hbad. by rewrite sent_nil.
  - cbn [app type_loop]. rewrite bind_run, lift_run, Hc.
    rewrite bind_run, (keysDown_run _ (Num <$> ks))
      by (done || apply keysym_values_translate).
    rewrite bind_run, delay_run.
    change {| tunnel := tunnel ?w; mouseState := mouseState ?w;
              display := display ?w; events := events ?w ++ ?es |}
      with (sent w es).
    rewrite bind_run, (keysUp_run _ (reverse (Num <$> ks)))
      by (done || apply Forall2_reverse, keysym_values_translate).
    rewrite bind_run, !sent_sent.
    rewrite bool_decide_true by (by destruct text).
    rewrite delay_run.
    change {| tunnel := tunnel ?w; mouseState := mouseState ?w;
              display := display ?w; events := events ?w ++ ?es |}
      with (sent w es).
    rewrite IH by done. rewrite !sent_sent.
    unfold strokes, stroke. csimpl. by rewrite <- !app_assoc.
Qed.

(** X16. When a character of a connected [type] does not translate, the
    characters before it have been typed, each with the delay between keys
    after it, and nothing is sent for the rest of the text. *)
Theorem type_stops_at_unknown_character (text : jstring) (kss : list (list Z))
    (c : Z) (later : jstring) (e : Error) (w : World) :
  tunnel w = Connected →
  Forall2 (λ c ks, KeyboardMapper_translateChar keymap [c] = Ok (Some <$> ks)) text kss →
  KeyboardMapper_translateChar keymap [c] = Throw e →
  type keymap options [VString (text ++ c :: later)] w
  = (Throw e,
     sent w (strokes (toggleDelay options) (delayBetweenKeys options) kss)).
Proof.
  intros Hon Htext Hbad. unfold type.
  rewrite CheckConnectedDecorator_connected by done.
  unfold type_method. cbn [arg nth]. rewrite bind_run.
  by rewrite (type_loop_fail text kss c later e).
Qed.

End ClientFurther.

Section MouseFurther.
Context `{Host}.
Variable keymap : Keymap.
Variable options : ClientOptions.

Lemma setMouseButtonState_invalid (b : jstring) (v : bool) (w : World) :
  valid_button b = false →
  setMouseButtonState (VString b) v w = (Throw AssertionError, w).
Proof.
  intros Hb. unfold setMouseButtonState.
  change (Enum_isType MouseButton b || bool_decide (b ∈ mouseButtonProps))
    with (valid_button b).
  by rewrite Hb.
Qed.

(** X17. A connected [mouseClick] of a valid button with modifier keys that
    all translate presses the modifiers, clicks the button count times with
    the double-click delay between the clicks, and releases the modifiers in
    the order they were pressed; a count of zero or less clicks nothing. *)
Theorem mouseClick_with_modifiers (b : jstring) (count : Z) (mods : list Value)
    (codes : list number) (w : World) :
  tunnel w = Connected → valid_button b = true →
  Forall2 (λ key code, translateKey keymap key = Ok code) mods codes →
  mouseClick keymap options [VString b; VNumber (Num count); VArray mods] w
  = (Ok VUndefined,
     {| tunnel := Connected;
        mouseState := match Z.to_nat count with
                      | O => mouseState w
                      | S _ => MouseState.set (button_prop b) false (mouseState w)
                      end;
        display := display w;
        events := events w ++ key_events 1 codes
                    ++ rounds (toggleDelay options) (doubleClickDelay options)
                         (button_prop b) (mouseState w) (Z.to_nat count)
                    ++ key_events 0 codes |}).
Proof.
  intros Hon Hb Hmods. unfold mouseClick.
  rewrite CheckConnectedDecorator_connected by done.
  unfold mouseClick_method. cbn [arg nth].
  rewrite bind_run, (keysDown_run keymap mods codes) by done.
  destruct w as [t s d ev]. cbn [tunnel] in Hon. subst t.
  unfold sent. cbn [tunnel mouseState display events].
  rewrite bind_run, mouseClick_loop_run by done.
  rewrite (keysUp_run keymap mods codes) by done.
  unfold sent. cbn [tunnel mouseState display events].
  by rewrite <- !app_assoc.
Qed.

(** X18. A connected [mouseClick] of a name that is no button, with a count
    above zero, throws the assertion error after the modifier keys have been
    pressed: they stay pressed, and nothing is sent for the pointer. *)
Theorem mouseClick_invalid_button_leaves_modifiers_down (b : jstring) (count : Z)
    (mods : list Value) (codes : list number) (w : World) :
  tunnel w = Connected → valid_button b = false → 0 < count →
  Forall2 (λ key code, translateKey keymap key = Ok code) mods codes →
  mouseClick keymap options [VString b; VNumber (Num count); VArray mods] w
  = (Throw AssertionError, sent w (key_events 1 codes)).
Proof.
  intros Hon Hb Hcount Hmods. unfold mouseClick.
  rewrite CheckConnectedDecorator_connected by done.
  unfold mouseClick_method. cbn [arg nth].
  rewrite bind_run, (keysDown_run keymap mods codes) by done.
  destruct (Z.to_nat count) as [|n] eqn:En; [lia|].
  cbn [mouseClick_loop]. rewrite !bind_run. unfold mouseButtonDown.
  rewrite CheckConnectedDecorator_connected by done.
  unfold mouseButtonDown_method. cbn [arg nth].
  by rewrite bind_run, setMouseButtonState_invalid.
Qed.

Lemma mouseMove_run (x y : Z) (s : MouseState.t) (d : Canvas.t) (ev : list Event) :
  0 ≤ x → 0 ≤ y →
  mouseMove [VNumber (Num x); VNumber (Num y)]
    {| tunnel := Connected; mouseState := s; display := d; events := ev |}
  = (Ok VUndefined,
     {| tunnel := Connected; mouseState := MouseState.move x y s; display := d;
        events := ev ++ [SendMouseState (MouseState.move x y s)] |}).
Proof.
  intros Hx Hy. unfold mouseMove.
  rewrite CheckConnectedDecorator_connected by done.
  unfold mouseMove_method. cbn [arg nth].
  replace (x >=? 0) with true by lia. replace (y >=? 0) with true by lia.
  done.
Qed.

(** Interpreting a list of commands that begins with one command. *)
Lemma interpretCommands_cons (client : Method.t → list Value → State World Value)
    (c : Command) (commands : list Command) (w : World) :
  interpretCommands client (c :: commands) w
  = match client c.1 c.2 w with
    | (Ok _, w') => interpretCommands client commands w'
    | (Throw e, w') => (Throw e, w')
    end.
Proof.
  unfold interpretCommands. cbn [for_of]. rewrite !bind_run.
  by destruct (client c.1 c.2 w) as [[v|e] w'].
Qed.

(** X19. Interpreting the commands of a drag, a valid button down, a move to
    a point and the button up, sends three pointer states: the button pressed
    where the pointer was, the button still pressed at the point, and the
    button released at the point. *)
Theorem interpretCommands_drag (b : jstring) (x y : Z) (w : World) :
  tunnel w = Connected → valid_button b = true → 0 ≤ x → 0 ≤ y →
  let pressed := MouseState.set (button_prop b) true (mouseState w) in
  let moved := MouseState.move x y pressed in
  let released := MouseState.set (button_prop b) false moved in
  interpretCommands (Client_method keymap options)
    [ (Method.mouseButtonDown, [VString b]);
      (Method.mouseMove, [VNumber (Num x); VNumber (Num y)]);
      (Method.mouseButtonUp, [VString b]) ] w
  = (Ok (),
     {| tunnel := Connected; mouseState := released; display := display w;
        events := events w ++ [ SendMouseState pressed; SendMouseState moved;
                                SendMouseState released ] |}).
Proof.
  intros Hon Hb Hx Hy pressed moved released.
  destruct w as [t s d ev]. cbn [tunnel] in Hon. subst t.
  rewrite interpretCommands_cons. cbn [fst snd Client_method].
  rewrite mouseButtonDown_run by done.
  rewrite interpretCommands_cons. cbn [fst snd Client_method].
  rewrite mouseMove_run by done.
  rewrite interpretCommands_cons. cbn [fst snd Client_method].
  rewrite mouseButtonUp_run by done.
  unfold interpretCommands. cbn [for_of mret State_ret].
  by rewrite <- !app_assoc.
Qed.

(** X20. Interpreting two lists of commands one after the other is
    interpreting the first and then the second from the world the first left;
    when a command of the first list throws, the second list is not
    started. *)
Theorem interpretCommands_app (client : Method.t → list Value → State World Value)
    (first second : list Command) (w : World) :
  interpretCommands client (first ++ second) w
  = match interpretCommands client first w with
    | (Ok _, w') => interpretCommands client second w'
    | (Throw e, w') => (Throw e, w')
    end.
Proof.
  revert w. induction first as [|c first IH]; intros w; [done|].
  cbn [app]. rewrite !interpretCommands_cons.
  destruct (client c.1 c.2 w) as [[v|e] w']; [apply IH|done].
Qed.

End MouseFurther.

(** X13 with the keys Ctrl and c of the US keymap. *)
Lemma keysPress_releases_in_reverse_witness :
  keysPress Keymaps.US defaultOptions [VArray [VString (js "Ctrl"); VString (js "c")]]
    World_connected
  = (Ok VUndefined,
     sent World_connected
       [ SendKeyEvent 1 (Num 0xffe3); SendKeyEvent 1 (Num 0x63); Delay (Num 12);
         SendKeyEvent 0 (Num 0x63); SendKeyEvent 0 (Num 0xffe3) ]).
Proof.
  apply (keysPress_releases_in_reverse Keymaps.US defaultOptions
           [VString (js "Ctrl"); VString (js "c")] [Num 0xffe3; Num 0x63]
           World_connected).
  - reflexivity.
  - repeat constructor.
Defined.

(** X14 with the key Ctrl followed by a name that is no key. *)
Lemma keysPress_failure_leaves_keys_down_witness :
  keysPress Keymaps.US defaultOptions
    [VArray [VString (js "Ctrl"); VString (js "nokey"); VString (js "c")]]
    World_connected
  = (Throw (GuacamoleClientError UNKNOWN_KEY),
     sent World_connected [SendKeyEvent 1 (Num 0xffe3)]).
Proof.
  apply (keysPress_failure_leaves_keys_down Keymaps.US defaultOptions
           [VString (js "Ctrl")] [Num 0xffe3] (VString (js "nokey"))
           [VString (js "c")] (GuacamoleClientError UNKNOWN_KEY) World_connected).
  - reflexivity.
  - repeat constructor.
  - reflexivity.
Defined.

(** X15 with the text aB and the US keymap. *)
Lemma type_strokes_witness :
  type Keymaps.US defaultOptions [VString (js "aB")] World_connected
  = (Ok VUndefined,
     sent World_connected
       [ SendKeyEvent 1 (Num 0x61); Delay (Num 12); SendKeyEvent 0 (Num 0x61);
         Delay (Num 50);
         SendKeyEvent 1 (Num 0xffe1); SendKeyEvent 1 (Num 0x62); Delay (Num 12);
         SendKeyEvent 0 (Num 0x62); SendKeyEvent 0 (Num 0xffe1) ]).
Proof.
  apply (type_strokes Keymaps.US defaultOptions (js "aB") [[0x61]; [0xffe1; 0x62]]
           World_connected).
  - reflexivity.
  - repeat constructor.
Defined.

(** X16 with the text a, e acute, b and the US keymap, which has no e
    acute. *)
Lemma type_stops_at_unknown_character_witness :
  type Keymaps.US defaultOptions [VString (js "a" ++ 0xE9 :: js "b")] World_connected
  = (Throw (GuacamoleClientError UNKNOWN_KEY),
     sent World_connected
       [ SendKeyEvent 1 (Num 0x61); Delay (Num 12); SendKeyEvent 0 (Num 0x61);
         Delay (Num 50) ]).
Proof.
  apply (type_stops_at_unknown_character Keymaps.US defaultOptions (js "a") [[0x61]]
           0xE9 (js "b") (GuacamoleClientError UNKNOWN_KEY) World_connected).
  - reflexivity.
  - repeat constructor.
  - reflexivity.
Defined.

(** X17 with a Ctrl and Shift click of the left button, twice. *)
Lemma mouseClick_with_modifiers_witness :
  events
    (mouseClick Keymaps.US defaultOptions
       [VString (js "Left"); VNumber (Num 2);
        VArray [VString (js "Ctrl"); VString (js "Shift")]] World_connected).2
  = [ SendKeyEvent 1 (Num 0xffe3); SendKeyEvent 1 (Num 0xffe1) ]
    ++ rounds 12 100 (js "left") MouseState.new 2
    ++ [ SendKeyEvent 0 (Num 0xffe3); SendKeyEvent 0 (Num 0xffe1) ].
Proof.
  rewrite (mouseClick_with_modifiers Keymaps.US defaultOptions (js "Left") 2
             [VString (js "Ctrl"); VString (js "Shift")] [Num 0xffe3; Num 0xffe1]
             World_connected).
  - reflexivity.
  - reflexivity.
  - reflexivity.
  - repeat constructor.
Defined.

(** X18 with a Ctrl click of a button named Side. *)
Lemma mouseClick_invalid_button_leaves_modifiers_down_witness :
  mouseClick Keymaps.US defaultOptions
    [VString (js "Side"); VNumber (Num 1); VArray [VString (js "Ctrl")]]
    World_connected
  = (Throw AssertionError, sent World_connected [SendKeyEvent 1 (Num 0xffe3)]).
Proof.
  apply (mouseClick_invalid_button_leaves_modifiers_down Keymaps.US defaultOptions
           (js "Side") 1 [VString (js "Ctrl")] [Num 0xffe3] World_connected).
  - reflexivity.
  - reflexivity.
  - lia.
  - repeat constructor.
Defined.

(** X19 with the left button and the point 30, 40. *)
Lemma interpretCommands_drag_witness :
  events
    (interpretCommands (Client_method Keymaps.US defaultOptions)
       [ (Method.mouseButtonDown, [VString (js "Left")]);
         (Method.mouseMove, [VNumber (Num 30); VNumber (Num 40)]);
         (Method.mouseButtonUp, [VString (js "Left")]) ] World_connected).2
  = [ SendMouseState (MouseState.set (js "left") true MouseState.new);
      SendMouseState (MouseState.move 30 40
                        (MouseState.set (js "left") true MouseState.new));
      SendMouseState (MouseState.set (js "left") false
                        (MouseState.move 30 40
                           (MouseState.set (js "left") true MouseState.new))) ].
Proof.
  rewrite (interpretCommands_drag Keymaps.US defaultOptions (js "Left") 30 40
             World_connected).
  - reflexivity.
  - reflexivity.
  - reflexivity.
  - lia.
  - lia.
Defined.

(** ** commands.ts: the parser on any list of words *)

Section ParserFurther.
Context `{Host}.

Lemma array_shift_empty (h : Heap) (a : loc) :
  array_shift a (<[ a := [] ]> h) = (Ok None, <[ a := [] ]> h).
Proof. unfold array_shift, mbind, State_bind. by rewrite array_read_run. Qed.

(** The arguments of a command, read off the array at [a], are those read
    off the list of its words. *)
Lemma read_params_run (h : Heap) (a : loc) (cmd : jstring)
    (parsers : list (jstring → jstring → Result Value)) (ws : list jstring) :
  array_map (λ parse, w ← array_shift a;
                      match w with
                      | Some w => lift (parse w cmd)
                      | None => throw OutsideModel
                      end) parsers (<[ a := ws ]> h)
  = ((read_params cmd parsers ws).1, <[ a := (read_params cmd parsers ws).2 ]> h).
Proof.
  revert ws. induction parsers as [|parse parsers IH]; intros ws; [done|].
  cbn [array_map read_params]. rewrite !bind_run.
  destruct ws as [|w ws]; [by rewrite array_shift_empty|].
  rewrite array_shift_run, lift_run.
  destruct (parse w cmd) as [v|e]; [|done].
  rewrite bind_run, IH.
  by destruct (read_params cmd parsers ws) as [[vs|e] rest].
Qed.

Lemma read_commands_run (h : Heap) (a : loc) (fuel : nat) (ws : list jstring)
    (cmds : list Command) :
  parseCommands_loop fuel a cmds (<[ a := ws ]> h)
  = ((read_commands fuel ws cmds).1, <[ a := (read_commands fuel ws cmds).2 ]> h).
Proof.
  revert ws cmds. induction fuel as [|fuel IH]; intros ws cmds; [done|].
  cbn [parseCommands_loop read_commands]. rewrite bind_run, array_length_run.
  destruct ws as [|cmd rest]; [done|].
  replace (Z.of_nat (length (cmd :: rest)) >? 0) with true
    by (symmetry; apply Z.gtb_lt; simpl; lia).
  rewrite bind_run, array_shift_run.
  destruct (Commands_get cmd) as [info|]; [|done].
  rewrite bind_run, array_length_run.
  destruct (Nat.ltb_spec (length rest) (length (params info))) as [Hlt|Hge].
  - by replace (Z.of_nat (length rest) <? Z.of_nat (length (params info))) with true
      by (symmetry; apply Z.ltb_lt; lia).
  - replace (Z.of_nat (length rest) <? Z.of_nat (length (params info))) with false
      by (symmetry; apply Z.ltb_ge; lia).
    rewrite bind_run, read_params_run.
    destruct (read_params cmd (params info) rest) as [[ps|e] rest']; [|done].
    apply IH.
Qed.

(** [parseCommands] on an array that holds the words [ws]. *)
Lemma parseCommands_read (h : Heap) (words : loc) (ws : list jstring) :
  h !! words = Some ws →
  (parseCommands words h).1 = (read_commands (S (length ws)) ws []).1.
Proof.
  intros Hws. unfold parseCommands.
  rewrite bind_run, (array_spread_run h words ws) by done.
  rewrite bind_run, array_read_run.
  by rewrite read_commands_run.
Qed.

(** Arguments read with success: one for each parser, and the words after
    them are left. *)
Lemma read_params_Ok (cmd : jstring) (parsers : list (jstring → jstring → Result Value))
    (ws rest : list jstring) (ps : list Value) :
  read_params cmd parsers ws = (Ok ps, rest) →
  length ps = length parsers ∧ ws = take (length parsers) ws ++ rest
  ∧ length ws = (length parsers + length rest)%nat.
Proof.
  revert ws ps. induction parsers as [|parse parsers IH]; intros ws ps; cbn [read_params].
  - by intros [= <- <-].
  - destruct ws as [|w ws]; [done|]. destruct (parse w cmd) as [v|e]; [|done].
    destruct (read_params cmd parsers ws) as [[vs|e] rest'] eqn:E; [|done].
    intros [= <- <-]. destruct (IH _ _ E) as (Hlen & Hws & Hsum).
    simpl. split_and!; [by rewrite Hlen|by rewrite <- Hws|by rewrite Hsum].
Qed.

(** Words after the arguments of a command do not change how they read. *)
Lemma read_params_app (cmd : jstring) (parsers : list (jstring → jstring → Result Value))
    (ws more : list jstring) :
  (length parsers ≤ length ws)%nat →
  read_params cmd parsers (ws ++ more)
  = ((read_params cmd parsers ws).1, (read_params cmd parsers ws).2 ++ more).
Proof.
  revert ws. induction parsers as [|parse parsers IH]; intros ws Hlen; [done|].
  destruct ws as [|w ws]; [simpl in Hlen; lia|].
  cbn [app read_params]. destruct (parse w cmd) as [v|e]; [|done].
  rewrite IH by (simpl in Hlen; lia).
  by destruct (read_params cmd parsers ws) as [[vs|e] rest].
Qed.

(** The bound on the rounds is never what stops the loop. *)
Lemma read_commands_fuel (f f' : nat) (ws : list jstring) (cmds : list Command) :
  (length ws < f)%nat → (length ws < f')%nat →
  read_commands f ws cmds = read_commands f' ws cmds.
Proof.
  revert f' ws cmds. induction f as [|f IH]; intros f' ws cmds Hf Hf'; [lia|].
  destruct f' as [|f']; [lia|]. cbn [read_commands].
  destruct ws as [|cmd rest]; [done|].
  destruct (Commands_get cmd) as [info|]; [|done].
  destruct (length rest <? length (params info))%nat; [done|].
  destruct (read_params cmd (params info) rest) as [[ps|e] rest'] eqn:E; [|done].
  apply read_params_Ok in E as (_ & _ & Hsum).
  simpl in Hf, Hf'. apply IH; lia.
Qed.

(** Reading on after a list of words that reads to the end. *)
Lemma read_commands_app (f f' : nat) (ws more : list jstring)
    (cmds cmds' : list Command) (rest : list jstring) :
  read_commands f ws cmds = (Ok cmds', rest) →
  (length (ws ++ more) < f')%nat →
  read_commands f' (ws ++ more) cmds = read_commands f' more cmds'.
Proof.
  revert f' ws cmds. induction f as [|f IH]; intros f' ws cmds; [done|].
  cbn [read_commands]. destruct ws as [|cmd ws].
  { by intros [= <- <-] _. }
  destruct (Commands_get cmd) as [info|] eqn:Einfo; [|done].
  destruct (Nat.ltb_spec (length ws) (length (params info))) as [Hlt|Hge]; [done|].
  destruct (read_params cmd (params info) ws) as [[ps|e] rest'] eqn:E; [|done].
  intros Hrun Hf'. destruct f' as [|f']; [simpl in Hf'; lia|].
  simpl in Hf'. rewrite length_app in Hf'.
  rewrite (read_commands_fuel (S f') f' more cmds') by lia.
  cbn [app read_commands]. rewrite Einfo.
  replace (length (ws ++ more) <? length (params info))%nat with false
    by (rewrite length_app; symmetry; apply Nat.ltb_ge; lia).
  rewrite read_params_app, E by done. cbn [fst snd].
  apply read_params_Ok in E as (_ & _ & Hsum).
  apply (IH f' rest' _ Hrun). rewrite length_app. lia.
Qed.

(** The commands read so far are handed on as they are. *)
Lemma read_commands_acc (f : nat) (ws : list jstring) (cmds : list Command) :
  read_commands f ws cmds
  = (match (read_commands f ws []).1 with
     | Ok cmds' => Ok (cmds ++ cmds')
     | Throw e => Throw e
     end, (read_commands f ws []).2).
Proof.
  revert ws cmds. induction f as [|f IH]; intros ws cmds; [done|].
  cbn [read_commands]. destruct ws as [|cmd ws].
  { cbn. by rewrite app_nil_r. }
  destruct (Commands_get cmd) as [info|]; [|done].
  destruct (length ws <? length (params info))%nat; [done|].
  destruct (read_params cmd (params info) ws) as [[ps|e] rest']; [|done].
  rewrite (IH rest' (cmds ++ _)), (IH rest' ([] ++ _)). cbn [fst snd app].
  destruct (read_commands f rest' []).1; [|done].
  by rewrite <- app_assoc.
Qed.

(** X21. Word lists parse one after the other: when two lists of words each
    parse to commands, the two lists joined parse to the commands of the
    first followed by those of the second. *)
Theorem parseCommands_app (h1 h2 h : Heap) (a1 a2 a : loc) (ws1 ws2 : list jstring)
    (cmds1 cmds2 : list Command) :
  h1 !! a1 = Some ws1 → h2 !! a2 = Some ws2 → h !! a = Some (ws1 ++ ws2) →
  (parseCommands a1 h1).1 = Ok cmds1 →
  (parseCommands a2 h2).1 = Ok cmds2 →
  (parseCommands a h).1 = Ok (cmds1 ++ cmds2).
Proof.
  intros Ha1 Ha2 Ha.
  rewrite (parseCommands_read h1 a1 ws1), (parseCommands_read h2 a2 ws2),
    (parseCommands_read h a (ws1 ++ ws2)) by done.
  intros H1 H2.
  destruct (read_commands (S (length ws1)) ws1 []) as [r1 rest1] eqn:E1.
  cbn [fst] in H1. subst r1.
  rewrite (read_commands_app _ _ ws1 ws2 [] cmds1 rest1 E1) by lia.
  rewrite read_commands_acc. cbn [fst].
  rewrite (read_commands_fuel _ (S (length ws2))) by (rewrite ?length_app; lia).
  by rewrite H2.
Qed.

(** X22. After words that parse to commands, a word that is no command name
    is rejected as an unknown command whatever follows it, and none of the
    commands before it is returned. *)
Theorem parseCommands_unknown_word (h1 h : Heap) (a1 a : loc) (ws more : list jstring)
    (bad : jstring) (cmds : list Command) :
  h1 !! a1 = Some ws → h !! a = Some (ws ++ bad :: more) →
  (parseCommands a1 h1).1 = Ok cmds →
  Commands_get bad = None →
  (parseCommands a h).1 = Throw (GuacamoleCommandError UNKNOWN bad).
Proof.
  intros Ha1 Ha.
  rewrite (parseCommands_read h1 a1 ws), (parseCommands_read h a (ws ++ bad :: more))
    by done.
  intros Hrun Hbad.
  destruct (read_commands (S (length ws)) ws []) as [r rest] eqn:E.
  cbn [fst] in Hrun. subst r.
  rewrite (read_commands_app _ _ ws (bad :: more) [] cmds rest E) by lia.
  cbn [read_commands]. by rewrite Hbad.
Qed.

(** X23. After words that parse to commands, a command name followed by
    fewer words than the command has parameters is rejected as an invalid
    argument of that command. *)
Theorem parseCommands_too_few_words (h1 h : Heap) (a1 a : loc) (ws more : list jstring)
    (cmd : jstring) (info : CommandInfo) (cmds : list Command) :
  h1 !! a1 = Some ws → h !! a = Some (ws ++ cmd :: more) →
  (parseCommands a1 h1).1 = Ok cmds →
  Commands_get cmd = Some info → (length more < length (params info))%nat →
  (parseCommands a h).1 = Throw (GuacamoleCommandError INVALID_ARGUMENT cmd).
Proof.
  intros Ha1 Ha.
  rewrite (parseCommands_read h1 a1 ws), (parseCommands_read h a (ws ++ cmd :: more))
    by done.
  intros Hrun Hinfo Hfew.
  destruct (read_commands (S (length ws)) ws []) as [r rest] eqn:E.
  cbn [fst] in Hrun. subst r.
  rewrite (read_commands_app _ _ ws (cmd :: more) [] cmds rest E) by lia.
  cbn [read_commands]. rewrite Hinfo.
  by replace (length more <? length (params info))%nat with true
    by (symmetry; by apply Nat.ltb_lt).
Qed.

Lemma read_commands_words (f : nat) (ws rest : list jstring)
    (cmds0 cmds : list Command) :
  read_commands f ws cmds0 = (Ok cmds, rest) →
  ∃ new,
    cmds = cmds0 ++ new
    ∧ length ws = sum_list (command_words <$> new)
    ∧ Forall (λ c, ∃ name info, Commands_get name = Some info
                                ∧ c.1 = method info
                                ∧ length c.2 = length (params info)) new.
Proof.
  revert ws cmds0. induction f as [|f IH]; intros ws cmds0; [done|].
  cbn [read_commands]. destruct ws as [|cmd ws].
  { intros [= <- <-]. exists []. by rewrite app_nil_r. }
  destruct (Commands_get cmd) as [info|] eqn:Einfo; [|done].
  destruct (length ws <? length (params info))%nat; [done|].
  destruct (read_params cmd (params info) ws) as [[ps|e] rest'] eqn:E; [|done].
  intros (new & -> & Hlen & Hnew)%IH.
  apply read_params_Ok in E as (Hps & _ & Hsum).
  exists ((method info, ps) :: new). split_and!.
  - by rewrite <- app_assoc.
  - csimpl. unfold command_words at 1. cbn [snd]. by rewrite Hps, Hsum, Hlen.
  - constructor; [|done]. by exists cmd, info.
Qed.

(** X24. When [parseCommands] returns, every word has gone into a command:
    each command is the method of a name of the registry with as many
    arguments as the name has parameters, and the commands with their
    arguments count as many as the words. *)
Theorem parseCommands_consumes_every_word (h : Heap) (a : loc) (ws : list jstring)
    (cmds : list Command) :
  h !! a = Some ws →
  (parseCommands a h).1 = Ok cmds →
  length ws = sum_list (command_words <$> cmds)
  ∧ Forall (λ c, ∃ name info, Commands_get name = Some info
                              ∧ c.1 = method info
                              ∧ length c.2 = length (params info)) cmds.
Proof.
  intros Ha. rewrite (parseCommands_read h a ws) by done. intros Hrun.
  destruct (read_commands (S (length ws)) ws []) as [r rest] eqn:E.
  cbn [fst] in Hrun. subst r.
  by apply read_commands_words in E as (new & -> & Hlen & Hnew).
Qed.

(** [parseScript] on a text that splits into the words [ws]. *)
Lemma parseScript_read (h : Heap) (content : jstring) (ws : list jstring)
    (unclosed : bool) :
  parseScriptToWords content = Some (ws, unclosed) →
  (parseScript content h).1 = (read_commands (S (length ws)) ws []).1.
Proof.
  intros Hws. unfold parseScript. rewrite Hws, bind_run. unfold array_new.
  apply parseCommands_read, lookup_insert_eq.
Qed.

Lemma Commands_get_empty : Commands_get [] = None.
Proof. reflexivity. Qed.

Lemma is_space_plain (c : Z) : is_space c = true → plain c = true.
Proof.
  intros Hc. unfold plain.
  rewrite (is_space_not_hash c Hc), (is_space_not_backslash c Hc).
  by destruct (Z.eqb_spec c Char.quote) as [->|].
Qed.

(** White space after a text that ends a word opens one more, empty
    field. *)
Lemma fields_trailing_space (b : bool) (s : jstring) (d c : Z) :
  is_space d = false → is_space c = true →
  fields b (s ++ [d; c]) = fields b (s ++ [d]) ++ [[]].
Proof.
  intros Hd Hc. revert b. induction s as [|x s IH]; intros b.
  - cbn [app fields]. by rewrite Hd, Hc.
  - cbn [app fields]. destruct (is_space x).
    + destruct b; by rewrite IH.
    + rewrite IH. pose proof (fields_nonempty false (s ++ [d])).
      by destruct (fields false (s ++ [d])).
Qed.

(** X25. White space after a script of plain words that parses makes it fail:
    when the script ends in a word and parses to commands, the same script
    followed by a white space unit, a final newline for one, is rejected as
    the unknown command of the empty name. *)
Theorem parseScript_trailing_space (h : Heap) (s : jstring) (d c : Z)
    (cmds : list Command) :
  Forall (λ c, plain c = true) s →
  last s = Some d → is_space d = false → is_space c = true →
  (parseScript s h).1 = Ok cmds →
  (parseScript (s ++ [c]) h).1 = Throw (GuacamoleCommandError UNKNOWN []).
Proof.
  intros Hplain [s' ->]%last_Some Hd Hc.
  rewrite (parseScript_read h _ _ false (parseScriptToWords_fields _ Hplain)).
  assert (Forall (λ c, plain c = true) ((s' ++ [d]) ++ [c])) as Hplain'.
  { apply Forall_app. split; [done|]. constructor; [by apply is_space_plain|done]. }
  rewrite (parseScript_read h _ _ false (parseScriptToWords_fields _ Hplain')).
  rewrite <- (app_assoc s' [d] [c]). cbn [app].
  rewrite fields_trailing_space by done.
  set (ws := fields false (s' ++ [d])). intros Hrun.
  destruct (read_commands (S (length ws)) ws []) as [r rest] eqn:E.
  cbn [fst] in Hrun. subst r.
  rewrite (read_commands_app _ _ ws [[]] [] cmds rest E) by lia.
  cbn [read_commands]. by rewrite Commands_get_empty.
Qed.

(** A script of plain words that is empty or begins with white space is
    rejected as the unknown command of the empty name: the first word is
    empty, and no word is skipped. *)
Lemma parseScript_starts_blank (h : Heap) (s : jstring) :
  Forall (λ c, plain c = true) s → starts_blank s = true →
  (parseScript s h).1 = Throw (GuacamoleCommandError UNKNOWN []).
Proof.
  intros Hplain Hblank.
  rewrite (parseScript_read h _ _ false (parseScriptToWords_fields _ Hplain)).
  destruct s as [|c s]; [done|]. cbn [starts_blank] in Hblank.
  cbn [fields]. rewrite Hblank. cbn [read_commands].
  by rewrite Commands_get_empty.
Qed.

Lemma append_last_nonempty (ws : list jstring) (text : jstring) :
  ws ≠ [] → append_last ws text ≠ [].
Proof.
  unfold append_last. intros Hws. destruct (last ws); [|done].
  intros Hnil. apply (f_equal length) in Hnil. rewrite length_insert in Hnil.
  by destruct ws.
Qed.

Lemma lexer_step_nonempty (st : Lexer) (m : jstring) :
  words st ≠ [] → words (lexer_step st m) ≠ [].
Proof.
  intros Hws. unfold lexer_step. destruct m as [|c rest]; [done|].
  destruct (c =? Char.backslash); [by apply append_last_nonempty|].
  destruct (decide (c :: rest = [Char.quote])); [done|].
  destruct (quoted st); [by apply append_last_nonempty|].
  destruct (trimStart (c :: rest)) as [|x t].
  - cbn [words]. by destruct (words st).
  - destruct (x =? Char.hash); [done|]. by apply append_last_nonempty.
Qed.

(** The tokenizer never returns an empty list of words. *)
Lemma lexer_loop_nonempty (fuel : nat) (b : bool) (input : jstring) (st st' : Lexer) :
  words st ≠ [] → lexer_loop fuel b input st = Some st' → words st' ≠ [].
Proof.
  revert b input st. induction fuel as [|fuel IH]; intros b input st Hws; [done|].
  cbn [lexer_loop]. destruct (Regex.exec b input) as [[m rest]|].
  - apply IH. by apply lexer_step_nonempty.
  - by intros [= <-].
Qed.

(** X26. [parseScript] ends on every text, and it never returns an empty
    list: it returns one command at least, or throws the Unknown-command or
    the Invalid-argument error.  The tokenizer always gives a first word. *)
Theorem parseScript_result (h : Heap) (content : jstring) :
  match (parseScript content h).1 with
  | Ok cmds => cmds ≠ []
  | Throw (GuacamoleCommandError _ _) => True
  | Throw _ => False
  end.
Proof.
  destruct (parseScriptToWords_total content) as [[ws unclosed] Hws].
  rewrite (parseScript_read h content ws unclosed Hws).
  assert (ws ≠ []) as Hne.
  { unfold parseScriptToWords in Hws.
    apply fmap_Some in Hws as (st & Hloop & [= -> _]).
    by apply lexer_loop_nonempty in Hloop. }
  destruct (parseCommands_loop_run ∅ 1%positive (S (length ws)) ws [])
    as (r & rest & Hrun & Hr); [lia|].
  rewrite read_commands_run in Hrun. apply (f_equal fst) in Hrun.
  cbn [fst] in Hrun. rewrite <- Hrun in Hr. clear Hrun.
  destruct (read_commands (S (length ws)) ws []) as [[cmds|e] rest'] eqn:E;
    cbn [fst] in *; [|unfold command_result in Hr; by destruct e].
  intros ->.
  apply read_commands_words in E as (new & Hnew & Hlen & _).
  symmetry in Hnew. apply app_eq_nil in Hnew as [_ ->].
  by destruct ws.
Qed.

End ParserFurther.

(** X21 with the words of a key press and those of a click. *)
Lemma parseCommands_app_witness :
  (parseCommands 1%positive
     {[ 1%positive := [js "key"; js "a"] ++ [js "click"; js "Left"] ]}).1
  = Ok ([(Method.keysPress, [VArray [VString (js "a")]])]
        ++ [(Method.mouseClick, [VString (js "Left")])]).
Proof.
  apply (parseCommands_app
           {[ 1%positive := [js "key"; js "a"] ]}
           {[ 1%positive := [js "click"; js "Left"] ]}
           {[ 1%positive := [js "key"; js "a"] ++ [js "click"; js "Left"] ]}
           1%positive 1%positive 1%positive
           [js "key"; js "a"] [js "click"; js "Left"]).
  - reflexivity.
  - reflexivity.
  - reflexivity.
  - vm_compute. reflexivity.
  - vm_compute. reflexivity.
Defined.

(** X22 with a key press followed by the word press, which is no command. *)
Lemma parseCommands_unknown_word_witness :
  (parseCommands 1%positive
     {[ 1%positive := [js "key"; js "a"] ++ js "press" :: [js "b"] ]}).1
  = Throw (GuacamoleCommandError UNKNOWN (js "press")).
Proof.
  apply (parseCommands_unknown_word
           {[ 1%positive := [js "key"; js "a"] ]}
           {[ 1%positive := [js "key"; js "a"] ++ js "press" :: [js "b"] ]}
           1%positive 1%positive [js "key"; js "a"] [js "b"] (js "press")
           [(Method.keysPress, [VArray [VString (js "a")]])]).
  - reflexivity.
  - reflexivity.
  - vm_compute. reflexivity.
  - reflexivity.
Defined.

(** X23 with a key press followed by a move that has one coordinate. *)
Lemma parseCommands_too_few_words_witness :
  (parseCommands 1%positive
     {[ 1%positive := [js "key"; js "a"] ++ js "move" :: [js "10"] ]}).1
  = Throw (GuacamoleCommandError INVALID_ARGUMENT (js "move")).
Proof.
  apply (parseCommands_too_few_words
           {[ 1%positive := [js "key"; js "a"] ]}
           {[ 1%positive := [js "key"; js "a"] ++ js "move" :: [js "10"] ]}
           1%positive 1%positive [js "key"; js "a"] [js "10"] (js "move")
           {| desc := "Move the mouse cursor to <X> <Y> coordinates.";
              method := Method.mouseMove; params := [UnsignedInt; UnsignedInt] |}
           [(Method.keysPress, [VArray [VString (js "a")]])]).
  - reflexivity.
  - reflexivity.
  - vm_compute. reflexivity.
  - reflexivity.
  - simpl. lia.
Defined.

(** X24 with the five words of a key press and a move. *)
Lemma parseCommands_consumes_every_word_witness :
  length [js "key"; js "a"; js "move"; js "10"; js "20"]
  = sum_list (command_words <$>
                [ (Method.keysPress, [VArray [VString (js "a")]]);
                  (Method.mouseMove, [VNumber (Num 10); VNumber (Num 20)]) ])
  ∧ Forall (λ c, ∃ name info, Commands_get name = Some info
                              ∧ c.1 = method info
                              ∧ length c.2 = length (params info))
      [ (Method.keysPress, [VArray [VString (js "a")]]);
        (Method.mouseMove, [VNumber (Num 10); VNumber (Num 20)]) ].
Proof.
  apply (parseCommands_consumes_every_word
           {[ 1%positive := [js "key"; js "a"; js "move"; js "10"; js "20"] ]}
           1%positive [js "key"; js "a"; js "move"; js "10"; js "20"]).
  - reflexivity.
  - vm_compute. reflexivity.
Defined.

(** X25 with the script of one key press and a final newline. *)
Lemma parseScript_trailing_space_witness :
  (parseScript (js "key a") ∅).1 = Ok [(Method.keysPress, [VArray [VString (js "a")]])]
  ∧ (parseScript (js "key a" ++ [Char.newline]) ∅).1
    = Throw (GuacamoleCommandError UNKNOWN []).
Proof.
  split; [vm_compute; reflexivity|].
  apply (parseScript_trailing_space ∅ (js "key a") 97 Char.newline
           [(Method.keysPress, [VArray [VString (js "a")]])]).
  - apply (bool_decide_unpack _). vm_compute. exact I.
  - reflexivity.
  - reflexivity.
  - reflexivity.
  - vm_compute. reflexivity.
Defined.

(** A space before the script of one key press. *)
Example parseScript_leading_space :
  (parseScript (js " key a") ∅).1 = Throw (GuacamoleCommandError UNKNOWN []).
Proof.
  apply (parseScript_starts_blank ∅ (js " key a")).
  - apply (bool_decide_unpack _). vm_compute. exact I.
  - reflexivity.
Qed.

(** ** utils.ts *)

Lemma obj_has_true {V} (o : object V) (k : jstring) :
  obj_has o k = true ↔ k ∈ o.*1.
Proof.
  pose proof (obj_has_false o k) as Hfalse.
  destruct (obj_has o k); split; try done.
  - intros _. destruct (decide (k ∈ o.*1)) as [|Hno]; [done|].
    by apply Hfalse in Hno.
  - intros Hin. by destruct (proj1 Hfalse).
Qed.

(** The keys after an assignment: the key written and the keys there were. *)
Lemma obj_set_keys {V} (o : object V) (k k' : jstring) (v : option V) :
  k ∈ (obj_set o k' v).*1 ↔ k = k' ∨ k ∈ o.*1.
Proof.
  unfold obj_set. destruct (obj_has o k') eqn:Hhas; cbv iota.
  - rewrite obj_replace_keys. apply obj_has_true in Hhas.
    split; [by right|]. by intros [->|].
  - destruct (array_index k'); cbv iota.
    + by rewrite obj_insert_index_keys, elem_of_cons.
    + rewrite fmap_app, elem_of_app. csimpl. rewrite list_elem_of_singleton. tauto.
Qed.

Lemma Enum_fold_keys (values : list jstring) (acc : object jstring) (k : jstring) :
  k ∈ (fold_left (λ acc value, obj_set acc value (Some value)) values acc).*1
  ↔ k ∈ values ∨ k ∈ acc.*1.
Proof.
  revert acc. induction values as [|v values IH]; intros acc; cbn [fold_left].
  - rewrite elem_of_nil. tauto.
  - rewrite IH, obj_set_keys, elem_of_cons. tauto.
Qed.

(** An enumeration accepts its values and nothing else: [Enum.isType]
    on the object that [Enum] builds from some values holds of a string
    exactly when the string is one of the values. *)
Lemma Enum_isType_iff (values : list jstring) (value : jstring) :
  Enum_isType (Object_keys (Enum values)) value = true ↔ value ∈ values.
Proof.
  unfold Enum_isType, Object_keys, Enum.
  rewrite bool_decide_eq_true, Enum_fold_keys, elem_of_nil. tauto.
Qed.

(** The model's list of mouse buttons is the keys of the enumeration of
    mouse.ts. *)
Example MouseButton_Enum :
  Object_keys (Enum [js "Left"; js "Middle"; js "Right"; js "ScrollUp"; js "ScrollDown"])
  = MouseButton.
Proof. reflexivity. Qed.

Lemma trimStart_length (s : jstring) : (length (trimStart s) ≤ length s)%nat.
Proof. apply span_length. Qed.

Lemma trimEnd_length (s : jstring) : (length (trimEnd s) ≤ length s)%nat.
Proof.
  unfold trimEnd. rewrite length_reverse.
  etransitivity; [apply trimStart_length|]. by rewrite length_reverse.
Qed.

Lemma trimEnd_space (s : jstring) : trimEnd (s ++ [Char.space]) = trimEnd s.
Proof.
  unfold trimEnd. rewrite reverse_app. cbn [reverse rev_append app].
  unfold trimStart. cbn [span is_space]. cbn.
  by destruct (span is_space (reverse s)).
Qed.

Lemma wrapText_step_flush (maxWidth : Z) (lines : list jstring) (curLine word : jstring) :
  (Z.of_nat (length word) >? maxWidth - Z.of_nat (length curLine)) = true →
  wrapText_step maxWidth (lines, curLine) word
  = (lines ++ [trimEnd curLine], word ++ [Char.space]).
Proof. intros Hflush. unfold wrapText_step. cbn [fst snd]. by rewrite Hflush. Qed.

Lemma wrapText_step_fill (maxWidth : Z) (lines : list jstring) (curLine word : jstring) :
  (Z.of_nat (length word) >? maxWidth - Z.of_nat (length curLine)) = false →
  wrapText_step maxWidth (lines, curLine) word
  = (lines, curLine ++ word ++ [Char.space]).
Proof. intros Hfill. unfold wrapText_step. cbn [fst snd]. by rewrite Hfill. Qed.

(** What the loop of [wrapText] keeps true when every word fits the width:
    the lines pushed fit it, and so does the line being filled less its last
    space. *)
Lemma wrapText_fold_width (maxWidth : Z) (words : list jstring)
    (lines : list jstring) (curLine : jstring) :
  0 ≤ maxWidth →
  Forall (λ word, Z.of_nat (length word) ≤ maxWidth) words →
  Forall (λ line, Z.of_nat (length line) ≤ maxWidth) lines →
  Z.of_nat (length (trimEnd curLine)) ≤ maxWidth →
  (curLine = [] ∨ ∃ body, curLine = body ++ [Char.space]
                          ∧ Z.of_nat (length body) ≤ maxWidth) →
  let st := fold_left (wrapText_step maxWidth) words (lines, curLine) in
  Forall (λ line, Z.of_nat (length line) ≤ maxWidth) (st.1 ++ [trimEnd st.2]).
Proof.
  intros Hmax Hwords. revert lines curLine.
  induction Hwords as [|word words Hword _ IH]; intros lines curLine Hlines Htrim Hcur.
  - cbn. apply Forall_app. split; [done|]. by constructor.
  - cbn [fold_left].
    destruct (Z.of_nat (length word) >? maxWidth - Z.of_nat (length curLine)) eqn:Hflush.
    + rewrite wrapText_step_flush by done. apply IH.
      * apply Forall_app. split; [done|]. by constructor.
      * rewrite trimEnd_space. pose proof (trimEnd_length word). lia.
      * right. by exists word.
    + rewrite wrapText_step_fill by done.
      assert (Z.of_nat (length (curLine ++ word)) ≤ maxWidth) as Hfit.
      { rewrite length_app. lia. }
      apply IH; [done| |].
      * rewrite app_assoc, trimEnd_space.
        pose proof (trimEnd_length (curLine ++ word)). lia.
      * right. exists (curLine ++ word). by rewrite app_assoc.
Qed.

(** X27. When no word of the text, the pieces between its spaces, is longer
    than the width, no line that [wrapText] returns is longer than the
    width. *)
Theorem wrapText_width (text : jstring) (maxWidth : Z) :
  Forall (λ word, Z.of_nat (length word) ≤ maxWidth) (split Char.space text) →
  Forall (λ line, Z.of_nat (length line) ≤ maxWidth) (wrapText text maxWidth).
Proof.
  intros Hwords. unfold wrapText.
  assert (0 ≤ maxWidth) as Hmax.
  { pose proof (split_nonempty Char.space text).
    destruct Hwords as [|word words Hword _]; [done|lia]. }
  pose proof (wrapText_fold_width maxWidth (split Char.space text) [] [] Hmax Hwords)
    as Hfold.
  cbn zeta in Hfold.
  destruct (fold_left _ _ _) as [lines curLine]. apply Hfold.
  - constructor.
  - done.
  - by left.
Qed.

Lemma wrapText_fold_groups (maxWidth : Z) (words : list jstring)
    (groups : list (list jstring)) (group : list jstring) :
  let st := fold_left (wrapText_step maxWidth) words
              (wrapText_line <$> groups, group ≫= λ word, word ++ [Char.space]) in
  ∃ groups' : list (list jstring),
    concat groups' = concat groups ++ group ++ words
    ∧ st.1 ++ [trimEnd st.2] = wrapText_line <$> groups'.
Proof.
  revert groups group. induction words as [|word words IH]; intros groups group.
  - exists (groups ++ [group]). cbn [fold_left fst snd].
    rewrite concat_app, fmap_app, app_nil_r. cbn. by rewrite app_nil_r.
  - cbn [fold_left].
    destruct (Z.of_nat (length word)
              >? maxWidth - Z.of_nat (length (group ≫= λ word, word ++ [Char.space])))
      eqn:Hflush.
    + rewrite wrapText_step_flush by done.
      specialize (IH (groups ++ [group]) [word]).
      rewrite fmap_app in IH. cbn [fmap list_fmap] in IH.
      assert ([word] ≫= (λ word, word ++ [Char.space]) = word ++ [Char.space])
        as Hone by (cbn; by rewrite app_nil_r).
      rewrite Hone in IH. fold (wrapText_line group) in IH |- *. destruct IH as (groups' & Hconcat & Hlines).
      exists groups'. split; [|done].
      rewrite Hconcat, concat_app. cbn. by rewrite app_nil_r, <- !app_assoc.
    + rewrite wrapText_step_fill by done.
      specialize (IH groups (group ++ [word])).
      assert ((group ++ [word]) ≫= (λ word, word ++ [Char.space])
              = (group ≫= λ word, word ++ [Char.space]) ++ word ++ [Char.space])
        as Hsnoc by (rewrite bind_app; cbn; by rewrite app_nil_r).
      rewrite Hsnoc in IH. destruct IH as (groups' & Hconcat & Hlines).
      exists groups'. split; [|done].
      rewrite Hconcat. by rewrite <- !app_assoc.
Qed.

(** X28. [wrapText] loses no word and moves none: the words of the text can
    be cut into consecutive groups, one for each line returned, so that each
    line is the words of its group with a space after each, less the white
    space at its end. *)
Theorem wrapText_groups (text : jstring) (maxWidth : Z) :
  ∃ groups : list (list jstring),
    concat groups = split Char.space text
    ∧ wrapText text maxWidth = wrapText_line <$> groups.
Proof.
  unfold wrapText.
  destruct (wrapText_fold_groups maxWidth (split Char.space text) [] [])
    as (groups & Hconcat & Hlines).
  exists groups. split; [done|].
  cbn [fmap list_fmap mbind list_bind] in Hlines.
  by destruct (fold_left _ _ _).
Qed.

Lemma obj_get_notin {V} (o : object V) (k : jstring) :
  k ∉ o.*1 → obj_get o k = None.
Proof.
  induction o as [|[k1 v1] o IH]; csimpl; [done|].
  intros [Hne Hno]%not_elem_of_cons. rewrite decide_False by congruence. by apply IH.
Qed.

Lemma obj_get_elem {V} (o : object V) (k : jstring) (v : option V) :
  obj_wf o → (k, v) ∈ o → obj_get o k = v.
Proof.
  unfold obj_wf. induction o as [|[k1 v1] o IH]; csimpl.
  - by intros _ ?%elem_of_nil.
  - intros [Hk1 Hwf]%NoDup_cons [[= <- <-]|Hin]%elem_of_cons.
    + by rewrite decide_True.
    + rewrite decide_False; [by apply IH|]. intros ->. apply Hk1.
      apply list_elem_of_fmap. by exists (k, v).
Qed.

Lemma omitUndefined_fold_get {V} (o acc : object V) (k : jstring) :
  obj_wf o →
  obj_get (fold_left (λ acc e, match e.2 with
                               | Some _ => obj_set acc e.1 e.2
                               | None => acc
                               end) o acc) k
  = match obj_get o k with
    | Some v => Some v
    | None => obj_get acc k
    end.
Proof.
  unfold obj_wf. revert acc. induction o as [|[k1 v1] o IH]; intros acc; csimpl; [done|].
  intros [Hk1 Hwf]%NoDup_cons. rewrite IH by done.
  destruct (decide (k1 = k)) as [->|Hne].
  - rewrite (obj_get_notin o k) by done.
    destruct v1 as [v1|]; [|done]. cbn [snd fst]. rewrite obj_get_set.
    by rewrite decide_True.
  - destruct (obj_get o k); [done|].
    destruct v1 as [v1|]; [|done]. cbn [snd fst]. rewrite obj_get_set.
    by rewrite decide_False.
Qed.

Lemma omitUndefined_fold_elem {V} (o acc : object V) (e : jstring * option V) :
  e ∈ fold_left (λ acc e, match e.2 with
                          | Some _ => obj_set acc e.1 e.2
                          | None => acc
                          end) o acc →
  e ∈ acc ∨ is_Some e.2.
Proof.
  revert acc. induction o as [|[k1 v1] o IH]; intros acc; cbn [fold_left]; [by left|].
  intros [Hin|Hsome]%IH; [|by right].
  destruct v1 as [v1|]; cbn [fst snd] in Hin; [|by left].
  apply obj_set_elem in Hin as [->|Hin]; [right; by eexists|by left].
Qed.

Lemma omitUndefined_wf {V} (o : object V) : obj_wf (omitUndefined o).
Proof.
  unfold omitUndefined.
  assert (obj_wf ([] : object V)) as Hwf by apply NoDup_nil_2.
  revert Hwf. generalize ([] : object V).
  induction o as [|[k v] o IH]; intros acc Hwf; cbn [fold_left]; [done|].
  apply IH. destruct v; [by apply obj_wf_set|done].
Qed.

(** X29. [omitUndefined] changes no reading and leaves no undefined value:
    every key reads in the copy what it read in the object, and every
    property of the copy has a value. *)
Theorem omitUndefined_reads (V : Type) (obj : object V) :
  obj_wf obj →
  (∀ k, obj_get (omitUndefined obj) k = obj_get obj k)
  ∧ Forall (λ e, is_Some e.2) (omitUndefined obj).
Proof.
  intros Hwf. split.
  - intros k. unfold omitUndefined. rewrite omitUndefined_fold_get by done.
    by destruct (obj_get obj k).
  - apply Forall_forall. intros e [Hin|Hsome]%omitUndefined_fold_elem; [|done].
    by apply elem_of_nil in Hin.
Qed.

(** Reading a spread: the source where it has the key, the target
    elsewhere. *)
Lemma obj_spread_get {V} (target source : object V) (k : jstring) :
  obj_wf source →
  obj_get (obj_spread target source) k
  = if decide (k ∈ source.*1) then obj_get source k else obj_get target k.
Proof.
  unfold obj_wf, obj_spread. revert target.
  induction source as [|[k1 v1] source IH]; intros target.
  - intros _. cbn [fold_left]. by rewrite decide_False by apply not_elem_of_nil.
  - rewrite fmap_cons. cbn [fold_left fst snd].
    intros [Hk1 Hwf]%NoDup_cons. rewrite IH by done.
    destruct (decide (k1 = k)) as [->|Hne].
    + rewrite decide_False by done. rewrite decide_True by by left.
      cbn [obj_get]. by rewrite obj_get_set, !decide_True.
    + rewrite obj_get_set. cbn [obj_get]. rewrite !(decide_False (P := k1 = k)) by done.
      destruct (decide (k ∈ source.*1)) as [Hin|Hno].
      * by rewrite decide_True by by right.
      * rewrite decide_False; [done|]. rewrite not_elem_of_cons. split; congruence.
Qed.

(** X30. An option that is not given keeps its default: with the options
    passed through [omitUndefined], as the command line passes them,
    [createClient] reads under every key the value given when there is one
    and the default otherwise, also when the key is there with an undefined
    value. *)
Theorem createClient_options_default (V : Type) (defaults flags : object V)
    (k : jstring) :
  obj_wf defaults → obj_wf flags →
  obj_get (createClient_options defaults (omitUndefined flags)) k
  = match obj_get flags k with
    | Some v => Some v
    | None => obj_get defaults k
    end.
Proof.
  intros Hdefaults Hflags. unfold createClient_options.
  rewrite obj_spread_get by apply omitUndefined_wf.
  assert (obj_get (omitUndefined flags) k = obj_get flags k) as Hget.
  { unfold omitUndefined. rewrite omitUndefined_fold_get by done.
    by destruct (obj_get flags k). }
  assert (obj_get (obj_spread [] defaults) k = obj_get defaults k) as Hdef.
  { rewrite obj_spread_get by done.
    destruct (decide (k ∈ defaults.*1)) as [|Hno]; [done|].
    by rewrite (obj_get_notin defaults). }
  destruct (decide (k ∈ (omitUndefined flags).*1)) as [Hin|Hno].
  - apply list_elem_of_fmap in Hin as ([k' v] & -> & Hin). cbn [fst] in *.
    pose proof (obj_get_elem _ _ _ (omitUndefined_wf flags) Hin) as Hv.
    apply omitUndefined_fold_elem in Hin as [Hin|[x Hx]];
      [by apply elem_of_nil in Hin|].
    cbn [snd] in Hx. subst v. rewrite Hv. by rewrite <- Hget, Hv.
  - rewrite Hdef. apply obj_get_notin in Hno. rewrite Hget in Hno. by rewrite Hno.
Qed.

(** X27 with a description of the registry wrapped to 16 units. *)
Lemma wrapText_width_witness :
  Forall (λ line, Z.of_nat (length line) ≤ 16)
    (wrapText (js "Release mouse <button>.") 16).
Proof.
  apply (wrapText_width (js "Release mouse <button>.") 16).
  repeat constructor; vm_compute; discriminate.
Defined.

(** X29 with an object of one value and one undefined property. *)
Lemma omitUndefined_reads_witness :
  (∀ k, obj_get (omitUndefined [(js "url", Some 1); (js "keymap", None)]) k
        = obj_get [(js "url", Some 1); (js "keymap", None)] k)
  ∧ Forall (λ e, is_Some e.2) (omitUndefined [(js "url", Some 1); (js "keymap", None)]).
Proof.
  apply (omitUndefined_reads Z [(js "url", Some 1); (js "keymap", None)]).
  unfold obj_wf. apply (bool_decide_unpack _). vm_compute. exact I.
Defined.

(** X30 with the toggle delay left undefined on the command line. *)
Lemma createClient_options_default_witness :
  obj_get
    (createClient_options
       [(js "toggleDelay", Some 12); (js "doubleClickDelay", Some 100)]
       (omitUndefined [(js "toggleDelay", None); (js "doubleClickDelay", Some 250)]))
    (js "toggleDelay")
  = Some 12.
Proof.
  apply (createClient_options_default Z
           [(js "toggleDelay", Some 12); (js "doubleClickDelay", Some 100)]
           [(js "toggleDelay", None); (js "doubleClickDelay", Some 250)]
           (js "toggleDelay")).
  - unfold obj_wf. apply (bool_decide_unpack _). vm_compute. exact I.
  - unfold obj_wf. apply (bool_decide_unpack _). vm_compute. exact I.
Defined.

(** Without [omitUndefined] the undefined option would replace the
    default. *)
Example createClient_options_undefined :
  obj_get (createClient_options [(js "toggleDelay", Some 12)]
             [(js "toggleDelay", None)]) (js "toggleDelay")
  = None.
Proof. reflexivity. Qed.

(** A first word longer than the width leaves the first line empty. *)
Example wrapText_long_first_word :
  wrapText (js "abcdef gh") 3 = [[]; js "abcdef"; js "gh"].
Proof. reflexivity. Qed.
